(** * Grievance deduplication backend: a shallow embedding

    The first part follows the JavaScript sources module by module:

    - [JsNum]: the arithmetic of JavaScript numbers, as an interface with two
      instances: IEEE binary64 (what the program runs on) and the real
      numbers (the exact arithmetic in which the numeric properties are
      stated);
    - [AdaptiveThreshold]: src/nlp/adaptiveThreshold.js;
    - [Js]: the strings, arrays and sets of the language, as far as the
      sources use them;
    - [Embedding]: src/nlp/embedding.js;
    - [Records]: the grievance objects that travel through a batch;
    - [Dbscan]: src/nlp/dbscan.js;
    - [BatchProcessor]: src/batch/batchProcessor.js;
    - [Regex]: the regular expressions of the text module and their matcher;
    - [TextPreprocessing]: the NLP text preprocessing module;
    - [Index]: src/index.js, the embedding of a single-text submission;
    - [JsArray]: arrays sorted with a numeric comparator;
    - [EmbeddingSearch]: the similarity search and the greedy clusters of
      the embedding module;
    - [TextAnalysis]: the statistics, the validation and the lexical
      measures of the text module;
    - [CategoryDetector]: src/nlp/categoryDetector.js;
    - [BatchDedup]: the two layers of deduplication of
      src/batch/batchProcessor.js, and the counts of a batch.

    The second part states and proves the properties of each module:
    [AdaptiveThresholdFacts], [EmbeddingFacts], [IndexFacts], [DbscanFacts],
    [BatchProcessorFacts], [RegexFacts] and [TextFacts]; then
    [CalibrationFacts], [LexicalFacts], [ArrayFacts], [EmbeddingSearchFacts],
    [FallbackFacts], [TextAnalysisFacts], [CategoryFacts], [BatchDedupFacts],
    [BatchSavingFacts], [ClusteringFacts] and [ClusterPassFacts]. *)

From Stdlib Require Import Reals Lra Floats QArith ZArith Uint63 List Ascii String.
From Stdlib Require Import Sorting.Sorted.
From stdpp Require Import gmap strings list.

(** * JavaScript numbers *)

Module JsNum.

(** The operations the sources apply to numbers.  [lit] reads a decimal
    literal of the source text, [of_nat] turns an array length or a loop
    counter into a number, [geb a b] is [a >= b], [eqb] is [===] and
    [truthy] is the conversion to boolean that [||] and [if] perform. *)
Class Number (num : Type) := {
  lit : Q -> num;
  of_nat : nat -> num;
  opp : num -> num;
  add : num -> num -> num;
  sub : num -> num -> num;
  mul : num -> num -> num;
  div : num -> num -> num;
  sqrt : num -> num;
  max : num -> num -> num;
  min : num -> num -> num;
  round : num -> num;
  leb : num -> num -> bool;
  eqb : num -> num -> bool;
  truthy : num -> bool
}.

Definition geb {num} `{Number num} (a b : num) : bool := leb b a.

(** [a || d] on numbers. *)
Definition or_else {num} `{Number num} (a d : num) : num :=
  if truthy a then a else d.

(** [o || d] where [o] may be [undefined] or [null]. *)
Definition opt_or_else {num} `{Number num} (o : option num) (d : num) : num :=
  match o with
  | Some a => or_else a d
  | None => d
  end.

(** ** Exact arithmetic: the real numbers *)

#[global] Instance Rle_decision : RelDecision Rle := Rle_dec.
#[global] Instance Req_decision : EqDecision R := Req_dec_T.

(** [Math.round]: the nearest integer, ties towards plus infinity. *)
Definition Rround (x : R) : R := IZR (Int_part (x + / 2)).

#[global] Instance real_number : Number R := {|
  lit := Q2R;
  of_nat := INR;
  opp := Ropp;
  add := Rplus;
  sub := Rminus;
  mul := Rmult;
  div := Rdiv;
  sqrt := R_sqrt.sqrt;
  max := Rmax;
  min := Rmin;
  round := Rround;
  leb := fun a b => bool_decide (a <= b)%R;
  eqb := fun a b => bool_decide (a = b);
  truthy := fun a => bool_decide (a <> 0%R)
|}.

(** ** Machine arithmetic: IEEE 754 binary64 *)

Definition float_of_Z (z : Z) : float :=
  match z with
  | Z0 => PrimFloat.zero
  | Zpos _ => PrimFloat.of_uint63 (Uint63.of_Z z)
  | Zneg p => PrimFloat.opp (PrimFloat.of_uint63 (Uint63.of_Z (Zpos p)))
  end.

(** A decimal literal denotes the double nearest to it; the quotient of two
    small integers is rounded that way. *)
Definition float_lit (q : Q) : float :=
  PrimFloat.div (float_of_Z (Qnum q)) (float_of_Z (Zpos (Qden q))).

(** [Math.max] and [Math.min]: NaN if an argument is NaN, and [-0 < +0]. *)
Definition float_max (a b : float) : float :=
  if PrimFloat.is_nan a || PrimFloat.is_nan b then PrimFloat.nan
  else if PrimFloat.ltb a b then b
  else if PrimFloat.ltb b a then a
  else if PrimFloat.get_sign a then b else a.

Definition float_min (a b : float) : float :=
  if PrimFloat.is_nan a || PrimFloat.is_nan b then PrimFloat.nan
  else if PrimFloat.ltb a b then a
  else if PrimFloat.ltb b a then b
  else if PrimFloat.get_sign a then a else b.

Definition two52 : float := float_of_Z (2 ^ 52).

(** [Math.round]: below 2^52 in magnitude, adding and removing 2^52 rounds
    to the nearest integer (ties to even); a tie that went down is moved up. *)
Definition float_round (x : float) : float :=
  if PrimFloat.is_nan x || PrimFloat.is_infinity x then x
  else if PrimFloat.ltb (PrimFloat.abs x) two52 then
    let r := if PrimFloat.get_sign x
             then PrimFloat.add (PrimFloat.sub x two52) two52
             else PrimFloat.sub (PrimFloat.add x two52) two52 in
    let r := if PrimFloat.eqb (PrimFloat.sub x r) (float_lit 0.5)
             then PrimFloat.add r PrimFloat.one else r in
    if PrimFloat.eqb r PrimFloat.zero && PrimFloat.get_sign x
    then PrimFloat.neg_zero else r
  else x.

#[global] Instance float_number : Number float := {|
  lit := float_lit;
  of_nat := fun n => float_of_Z (Z.of_nat n);
  opp := PrimFloat.opp;
  add := PrimFloat.add;
  sub := PrimFloat.sub;
  mul := PrimFloat.mul;
  div := PrimFloat.div;
  sqrt := PrimFloat.sqrt;
  max := float_max;
  min := float_min;
  round := float_round;
  leb := PrimFloat.leb;
  eqb := PrimFloat.eqb;
  truthy := fun a => negb (PrimFloat.eqb a PrimFloat.zero) && negb (PrimFloat.is_nan a)
|}.

End JsNum.

Import JsNum.

(** What a JavaScript call yields: a value, or an exception with its message. *)
Inductive outcome (A : Type) : Type :=
| Returned (a : A)
| Thrown (msg : string).
Arguments Returned {A} a.
Arguments Thrown {A} msg.

(** The three classifications of a grievance. *)
Inductive status : Type := UNIQUE | NEAR_DUPLICATE | DUPLICATE.

#[global] Instance status_eq_dec : EqDecision status.
Proof. solve_decision. Defined.

(** * src/nlp/adaptiveThreshold.js *)

Module AdaptiveThreshold.

Section Definitions.
Context {num : Type} {N : Number num}.

(** A row of the table [adaptive_thresholds]; the column [threshold_type]
    is UNIQUE and keys the table.  [min_value] and [max_value] are
    nullable. *)
Record threshold_row : Type := {
  current_value : num;
  min_value : option num;
  max_value : option num;
  adjustment_count : nat
}.

(** [env.DB]: the table when the database answers, the error when its
    queries reject. *)
Definition database : Type := outcome (gmap string threshold_row).

(** [SELECT threshold_type, current_value FROM adaptive_thresholds]. *)
Definition select_current (t : gmap string threshold_row) : list (string * num) :=
  (fun kr => (kr.1, current_value kr.2)) <$> map_to_list t.

(** The object literal of the [try] branch. *)
Definition thresholds_init : gmap string num :=
  <["metadata_weight" := lit 0.05]>
  (<["ngram_weight" := lit 0.15]>
  (<["jaccard_weight" := lit 0.25]>
  (<["cosine_weight" := lit 0.55]>
  (<["near_duplicate" := lit 0.60]>
  (<["duplicate" := lit 0.60]> ∅))))).

(** The object literal of the [catch] branch. *)
Definition thresholds_on_error : gmap string num :=
  <["metadata_weight" := lit 0.05]>
  (<["ngram_weight" := lit 0.15]>
  (<["jaccard_weight" := lit 0.25]>
  (<["cosine_weight" := lit 0.55]>
  (<["near_duplicate" := lit 0.50]>
  (<["duplicate" := lit 0.50]> ∅))))).

Definition getAdaptiveThresholds (db : database) : gmap string num :=
  match db with
  | Returned t =>
      foldl (fun thresholds row => <[row.1 := row.2]> thresholds)
            thresholds_init (select_current t)
  | Thrown _ => thresholds_on_error
  end.

Record feedback : Type := {
  originalStatus : string;
  correctedStatus : string
}.

Definition LEARNING_RATE : num := lit 0.05.

(** The [if]/[else if] chain: the threshold to adjust and the adjustment. *)
Definition pick_adjustment (f : feedback) : option (string * num) :=
  let from := originalStatus f in
  let to := correctedStatus f in
  if String.eqb from "UNIQUE" && String.eqb to "DUPLICATE"
  then Some ("duplicate", opp LEARNING_RATE)
  else if String.eqb from "DUPLICATE" && String.eqb to "UNIQUE"
  then Some ("duplicate", LEARNING_RATE)
  else if String.eqb from "UNIQUE" && String.eqb to "NEAR_DUPLICATE"
  then Some ("near_duplicate", opp LEARNING_RATE)
  else if String.eqb from "NEAR_DUPLICATE" && String.eqb to "UNIQUE"
  then Some ("near_duplicate", LEARNING_RATE)
  else if String.eqb from "NEAR_DUPLICATE" && String.eqb to "DUPLICATE"
  then Some ("near_duplicate", LEARNING_RATE)
  else if String.eqb from "DUPLICATE" && String.eqb to "NEAR_DUPLICATE"
  then Some ("duplicate", LEARNING_RATE)
  else None.

(** [UPDATE adaptive_thresholds SET current_value = ?, adjustment_count =
    adjustment_count + 1 WHERE threshold_type = ?]. *)
Definition update_current (k : string) (v : num)
    (t : gmap string threshold_row) : gmap string threshold_row :=
  alter (fun r => {| current_value := v;
                     min_value := min_value r;
                     max_value := max_value r;
                     adjustment_count := S (adjustment_count r) |}) k t.

(** The result is the returned threshold object with the database after the
    call.  The database of a call answers all of its statements or none:
    [db] is the outcome of each of them, so a call whose first read fails
    and whose later statements succeed is not among the calls described.
    The object read first always has the two keys that can be adjusted
    (lemma [getAdaptiveThresholds_keys]), so the last branch is never
    taken. *)
Definition updateThresholdsFromFeedback (f : feedback) (db : database)
    : outcome (gmap string num * database) :=
  let currentThresholds := getAdaptiveThresholds db in
  match pick_adjustment f with
  | None => Returned (currentThresholds, db)
  | Some (thresholdToAdjust, adjustment) =>
      match db, currentThresholds !! thresholdToAdjust with
      | Thrown error, _ => Thrown error
      | Returned t, Some currentValue =>
          let bounds := t !! thresholdToAdjust in
          let minVal := opt_or_else (bounds ≫= min_value) (lit 0.3) in
          let maxVal := opt_or_else (bounds ≫= max_value) (lit 0.95) in
          let newValue := max minVal (min maxVal (add currentValue adjustment)) in
          Returned (<[thresholdToAdjust := newValue]> currentThresholds,
                    Returned (update_current thresholdToAdjust newValue t))
      | Returned t, None => Returned (currentThresholds, db)
      end
  end.

(** A comparison [score >= thresholds.kind]; it is false when the property
    is missing. *)
Definition at_least (score : num) (threshold : option num) : bool :=
  match threshold with
  | Some t => geb score t
  | None => false
  end.

Definition classifyWithAdaptiveThresholds (combinedScore : num)
    (thresholds : gmap string num) : status :=
  if at_least combinedScore (thresholds !! "duplicate") then DUPLICATE
  else if at_least combinedScore (thresholds !! "near_duplicate") then NEAR_DUPLICATE
  else UNIQUE.

Record scores : Type := {
  cosine : num;
  jaccard : num;
  ngram : num;
  metadata : option num
}.

Definition calculateAdaptiveWeightedScore (s : scores)
    (thresholds : gmap string num) : num :=
  let cosineWeight := opt_or_else (thresholds !! "cosine_weight") (lit 0.50) in
  let jaccardWeight := opt_or_else (thresholds !! "jaccard_weight") (lit 0.25) in
  let ngramWeight := opt_or_else (thresholds !! "ngram_weight") (lit 0.15) in
  let metadataWeight := opt_or_else (thresholds !! "metadata_weight") (lit 0.10) in
  let totalWeight :=
    add (add (add cosineWeight jaccardWeight) ngramWeight) metadataWeight in
  let weightedScore :=
    div (add (add (add (mul (cosine s) cosineWeight)
                       (mul (jaccard s) jaccardWeight))
                  (mul (ngram s) ngramWeight))
             (mul (opt_or_else (metadata s) (lit 0)) metadataWeight))
        totalWeight in
  div (round (mul weightedScore (lit 1000))) (lit 1000).

(** The rows inserted by schema_migration_v2.sql. *)
Definition seed_row (current lo hi : Q) : threshold_row :=
  {| current_value := lit current; min_value := Some (lit lo);
     max_value := Some (lit hi); adjustment_count := 0 |}.

Definition seed_table : gmap string threshold_row :=
  <["metadata_weight" := seed_row 0.10 0.00 0.25]>
  (<["ngram_weight" := seed_row 0.15 0.05 0.30]>
  (<["jaccard_weight" := seed_row 0.25 0.10 0.40]>
  (<["cosine_weight" := seed_row 0.50 0.30 0.70]>
  (<["near_duplicate" := seed_row 0.65 0.50 0.80]>
  (<["duplicate" := seed_row 0.85 0.75 0.95]> ∅))))).

(** The table after one feedback event (unchanged when the call throws). *)
Definition table_after (f : feedback) (t : gmap string threshold_row)
    : gmap string threshold_row :=
  match updateThresholdsFromFeedback f (Returned t) with
  | Returned (_, Returned t') => t'
  | _ => t
  end.

(** The value a batch would read for a kind. *)
Definition stored (k : string) (t : gmap string threshold_row) : option num :=
  getAdaptiveThresholds (Returned t) !! k.

End Definitions.

Arguments threshold_row : clear implicits.
Arguments database : clear implicits.
Arguments scores : clear implicits.

End AdaptiveThreshold.

(** * Strings, arrays and sets as the sources use them *)

Module Js.

Definition is_space (c : ascii) : bool := Ascii.eqb c " "%char.

(** The white space of [\s], among the 7-bit characters. *)
Definition is_white (c : ascii) : bool :=
  let n := nat_of_ascii c in
  (n =? 32)%nat || ((9 <=? n)%nat && (n <=? 13)%nat).

Definition is_digit (c : ascii) : bool :=
  let n := nat_of_ascii c in (48 <=? n)%nat && (n <=? 57)%nat.

Definition is_lower (c : ascii) : bool :=
  let n := nat_of_ascii c in (97 <=? n)%nat && (n <=? 122)%nat.

Definition is_upper (c : ascii) : bool :=
  let n := nat_of_ascii c in (65 <=? n)%nat && (n <=? 90)%nat.

Definition lower_char (c : ascii) : ascii :=
  if is_upper c then ascii_of_nat (nat_of_ascii c + 32) else c.

(** [s.toLowerCase()], on 7-bit text. *)
Fixpoint toLowerCase (s : string) : string :=
  match s with
  | EmptyString => EmptyString
  | String c s' => String (lower_char c) (toLowerCase s')
  end.

(** [s.split(sep)] for a separator that a character test recognises: the
    pieces between separators, empty pieces included. *)
Fixpoint split_where (sep : ascii -> bool) (s : string) : list string :=
  match s with
  | EmptyString => [EmptyString]
  | String c s' =>
      if sep c then EmptyString :: split_where sep s'
      else match split_where sep s' with
           | w :: ws => String c w :: ws
           | [] => [String c EmptyString]
           end
  end.

(** [s.split(' ')]. *)
Definition split_space (s : string) : list string := split_where is_space s.

(** [words.join(' ')]. *)
Fixpoint join_space (words : list string) : string :=
  match words with
  | [] => EmptyString
  | [w] => w
  | w :: ws => (w ++ " " ++ join_space ws)%string
  end.

Definition nonempty (w : string) : bool := (0 <? String.length w)%nat.

(** [new Set(items)] read back in insertion order: the first occurrence of
    each element. *)
Fixpoint distinct_from {A} `{EqDecision A} (seen items : list A) : list A :=
  match items with
  | [] => []
  | x :: rest =>
      if bool_decide (x ∈ seen) then distinct_from seen rest
      else x :: distinct_from (x :: seen) rest
  end.

Definition set_of {A} `{EqDecision A} (items : list A) : list A :=
  distinct_from [] items.

(** [set.has(x)]. *)
Definition has {A} `{EqDecision A} (set : list A) (x : A) : bool :=
  bool_decide (x ∈ set).

(** A stable sort by a natural-number key, as [Array.prototype.sort] with
    the comparator [key(a) - key(b)]. *)
Fixpoint insert_by {A} (key : A -> nat) (x : A) (l : list A) : list A :=
  match l with
  | [] => [x]
  | y :: l' => if (key x <? key y)%nat then x :: y :: l' else y :: insert_by key x l'
  end.

Definition sort_by {A} (key : A -> nat) (l : list A) : list A :=
  foldl (fun sorted x => insert_by key x sorted) [] l.

(** An array index: a key that is the decimal numeral of an integer from
    0 to 2^32 - 2. *)
Definition is_array_index (k : Z) : bool := (0 <=? k)%Z && (k <? 4294967295)%Z.

(** The order in which [Object.values] and [Object.entries] list the
    properties of an object whose keys are integers: the keys that are
    array indices ascending, then the others (the negative ones and those
    from 2^32 - 1 on) as they were inserted.  [keys] are the distinct keys
    in insertion order. *)
Definition property_order (keys : list Z) : list Z :=
  sort_by Z.to_nat (List.filter is_array_index keys)
  ++ List.filter (fun k => negb (is_array_index k)) keys.

End Js.

(** Sequencing of calls that may throw. *)
Definition and_then {A B} (o : outcome A) (k : A -> outcome B) : outcome B :=
  match o with
  | Returned a => k a
  | Thrown msg => Thrown msg
  end.

Fixpoint for_each {A B} (f : A -> outcome B) (l : list A) : outcome (list B) :=
  match l with
  | [] => Returned []
  | x :: l' =>
      and_then (f x) (fun y => and_then (for_each f l') (fun ys => Returned (y :: ys)))
  end.

(** * src/nlp/embedding.js *)

Module Embedding.
Import Js.

Section Definitions.
Context {num : Type} {N : Number num}.

(** ** Similarity of vectors and of texts *)

(** The [for] loop of [cosineSimilarity], over the indices of [vec1]. *)
Fixpoint cosine_loop (vec1 vec2 : list num) (dotProduct mag1 mag2 : num)
    : num * num * num :=
  match vec1, vec2 with
  | x :: vec1', y :: vec2' =>
      cosine_loop vec1' vec2' (add dotProduct (mul x y))
                  (add mag1 (mul x x)) (add mag2 (mul y y))
  | _, _ => (dotProduct, mag1, mag2)
  end.

Definition cosineSimilarity (vec1 vec2 : list num) : outcome num :=
  if negb (length vec1 =? length vec2)%nat
  then Thrown "Vectors must have same dimensions"
  else
    let '(dotProduct, mag1, mag2) := cosine_loop vec1 vec2 (lit 0) (lit 0) (lit 0) in
    let mag1 := sqrt mag1 in
    let mag2 := sqrt mag2 in
    if eqb mag1 (lit 0) || eqb mag2 (lit 0) then Returned (lit 0)
    else Returned (div dotProduct (mul mag1 mag2)).

(** [words.slice(i, i + n).join(' ')] for [i] from 0 to [words.length - n]. *)
Fixpoint extractNGramsFromWords (words : list string) (n : nat) : list string :=
  match words with
  | [] => if (n =? 0)%nat then [EmptyString] else []
  | _ :: rest =>
      if (n <=? length words)%nat
      then join_space (take n words) :: extractNGramsFromWords rest n
      else []
  end.

Definition calculateNGramOverlap (text1 text2 : string) (n : nat) : num :=
  let ngrams1 := extractNGramsFromWords (split_space text1) n in
  let ngrams2 := extractNGramsFromWords (split_space text2) n in
  if (length ngrams1 =? 0)%nat || (length ngrams2 =? 0)%nat then lit 0
  else
    let set1 := set_of ngrams1 in
    let set2 := set_of ngrams2 in
    let intersection := set_of (List.filter (has set2) set1) in
    let union := set_of (set1 ++ set2) in
    if (length union =? 0)%nat then lit 0
    else div (of_nat (length intersection)) (of_nat (length union)).

(** ** The locally generated vector *)

Definition add_at (position : nat) (x : num) (vector : list num) : list num :=
  alter (fun v => add v x) position vector.

Fixpoint hash_chars (chars : list ascii) (i idx : nat) (vector : list num) : list num :=
  match chars with
  | [] => vector
  | c :: chars' =>
      let position := ((nat_of_ascii c * (i + 1) + idx) mod 384)%nat in
      hash_chars chars' (S i) idx
                 (add_at position (div (lit 1) (of_nat (idx + 1))) vector)
  end.

Fixpoint hash_words (words : list string) (idx : nat) (vector : list num) : list num :=
  match words with
  | [] => vector
  | word :: words' =>
      hash_words words' (S idx) (hash_chars (list_ascii_of_string word) 0 idx vector)
  end.

Definition normalizeVector (vector : list num) : list num :=
  let magnitude :=
    sqrt (foldl (fun sum val => add sum (mul val val)) (lit 0) vector) in
  if eqb magnitude (lit 0) then vector
  else (fun val => div val magnitude) <$> vector.

Definition generateFallbackEmbedding (text : string) : list num :=
  let words := List.filter nonempty (split_where is_white (toLowerCase text)) in
  normalizeVector (hash_words words 0 (replicate 384 (lit 0))).

(** ** The remote service *)

(** A parsed JSON body. *)
#[warnings="-register-all"]
Inductive json : Type :=
| JNull
| JBool (b : bool)
| JNumber (x : num)
| JString (s : string)
| JArray (items : list json)
| JObject (fields : list (string * json)).

(** What [fetch] resolves to; [body] is the result of [response.json()].
    A rejected [fetch] is a [Thrown] reply. *)
Record response : Type := {
  ok : bool;
  status_code : nat;
  body : outcome json
}.

Definition vector_json (vector : list num) : json := JArray (JNumber <$> vector).

(** [generateEmbedding]: the function always resolves; every failure is
    answered with [generateFallbackEmbedding(text)]. *)
Definition generateEmbedding (text : string) (reply : outcome response) : json :=
  match reply with
  | Thrown _ => vector_json (generateFallbackEmbedding text)
  | Returned resp =>
      if negb (ok resp) then vector_json (generateFallbackEmbedding text)
      else match body resp with
           | Returned (JArray items) => JArray items
           | _ => vector_json (generateFallbackEmbedding text)
           end
  end.

(** [Array.isArray(embeddings) && embeddings.length === texts.length] and
    the first element is an array of 384 entries. *)
Definition batch_shape (texts : list string) (embeddings : json) : bool :=
  match embeddings with
  | JArray items =>
      (length items =? length texts)%nat
      && match items with
         | JArray firstEmb :: _ => (length firstEmb =? 384)%nat
         | _ => false
         end
  | _ => false
  end.

(** The single text case: an array whose first element is a number. *)
Definition single_shape (texts : list string) (embeddings : json) : bool :=
  match embeddings with
  | JArray (JNumber _ :: _) => (length texts =? 1)%nat
  | _ => false
  end.

(** The custom server: the value the function returns from this block, if
    it returns there. *)
Definition custom_attempt (texts : list string) (reply : outcome response) : option json :=
  match reply with
  | Returned resp =>
      if ok resp
      then match body resp with
           | Returned embeddings =>
               if batch_shape texts embeddings then Some embeddings else None
           | Thrown _ => None
           end
      else None
  | Thrown _ => None
  end.

(** One pass of the retry loop: the value returned, if the attempt succeeds. *)
Definition hf_attempt (texts : list string) (reply : outcome response) : option json :=
  match reply with
  | Returned resp =>
      if negb (ok resp) then None
      else match body resp with
           | Returned embeddings =>
               if batch_shape texts embeddings then Some embeddings
               else if single_shape texts embeddings then Some (JArray [embeddings])
               else None
           | Thrown _ => None
           end
  | Thrown _ => None
  end.

Definition MAX_RETRIES : nat := 3.

(** [for (attempt = 1; attempt <= MAX_RETRIES; attempt++)], with [remaining]
    passes left; [hf attempt] is the reply to that attempt. *)
Fixpoint hf_loop (texts : list string) (hf : nat -> outcome response)
    (attempt remaining : nat) : option json :=
  match remaining with
  | O => None
  | S remaining' =>
      match hf_attempt texts (hf attempt) with
      | Some embeddings => Some embeddings
      | None => hf_loop texts hf (S attempt) remaining'
      end
  end.

(** [custom] is the reply of the custom server when [customUrl] is set. *)
Definition generateBatchEmbeddings (texts : list string)
    (custom : option (outcome response)) (hf : nat -> outcome response)
    : outcome json :=
  if (length texts =? 0)%nat then Returned (JArray [])
  else
    match custom ≫= custom_attempt texts with
    | Some embeddings => Returned embeddings
    | None =>
        match hf_loop texts hf 1 MAX_RETRIES with
        | Some embeddings => Returned embeddings
        | None => Thrown "Failed to generate embeddings - check API token"
        end
    end.

End Definitions.

Arguments json : clear implicits.
Arguments response : clear implicits.

End Embedding.

(** * The grievance objects of a batch *)

Module Records.

(** What a match refers to: the row id of a stored grievance, or the
    string ["batch_<index>"] naming an earlier grievance of the batch. *)
Inductive match_ref : Type :=
| Persisted (id : Z)
| Pending (index : nat).

#[global] Instance match_ref_eq_dec : EqDecision match_ref.
Proof. solve_decision. Defined.

Section Definitions.
Context {num : Type}.

(** A grievance as it leaves [hierarchicalDeduplication], with the
    properties that [applyDBSCANClustering] adds.  A property that may be
    missing on the object is an [option]. *)
Record grievance : Type := {
  pdfName : string;
  pageNumber : nat;
  processedText : string;
  embedding : list num;
  finalStatus : status;
  globalScore : option num;
  localScore : option num;
  globalMatchId : option match_ref;
  clusterId : option Z;
  clusterSize : nat;
  clusteredWith : option nat;
  clusterBasedMatch : bool
}.

End Definitions.

Arguments grievance : clear implicits.

End Records.

(** * src/nlp/dbscan.js *)

Module Dbscan.
Import Js Records Embedding.

Section Definitions.
Context {num : Type} {N : Number num}.

(** [matrix[i][j]]: 1.0 on the diagonal; below it the entry [matrix[j][i]]
    that an earlier row computed with [cosineSimilarity(e_j, e_i)]; above it
    [cosineSimilarity(e_i, e_j)]. *)
Definition similarity_entry (i j : nat) (ei ej : list num) : outcome num :=
  if (i =? j)%nat then Returned (lit 1.0)
  else if (j <? i)%nat then cosineSimilarity ej ei
  else cosineSimilarity ei ej.

Definition computeSimilarityMatrix (grievances : list (grievance num))
    : outcome (list (list num)) :=
  let embeddings := imap pair (embedding <$> grievances) in
  for_each (fun row =>
              for_each (fun col => similarity_entry row.1 col.1 row.2 col.2) embeddings)
           embeddings.

(** [distance <= eps] for [distance = 1 - matrix[p][q]]; a missing entry
    compares false. *)
Definition within (matrix : list (list num)) (p q : nat) (eps : num) : bool :=
  match matrix !! p ≫= (fun row => row !! q) with
  | Some similarity => leb (sub (lit 1) similarity) eps
  | None => false
  end.

Definition regionQuery (matrix : list (list num)) (p : nat) (eps : num) (n : nat)
    : list nat :=
  List.filter (fun q => within matrix p q eps) (seq 0 n).

Definition NOISE : Z := 0.

(** [queue.push(neighbor)] for the neighbours not yet in the queue. *)
Definition enqueue_new (queue neighbors : list nat) : list nat :=
  foldl (fun queue neighbor =>
           if bool_decide (neighbor ∈ queue) then queue else queue ++ [neighbor])
        queue neighbors.

(** The [while] loop of [expandCluster]; [None] when [steps] passes do not
    empty the queue. *)
Fixpoint expand_loop (steps : nat) (matrix : list (list num)) (labels : list Z)
    (queue : list nat) (clusterId : Z) (eps : num) (minPts n : nat)
    : option (list Z) :=
  match queue with
  | [] => Some labels
  | q :: queue =>
      match steps with
      | O => None
      | S steps =>
          let labels :=
            if bool_decide (labels !! q = Some 0%Z) then <[q := clusterId]> labels
            else labels in
          if bool_decide (labels !! q <> Some (-1)%Z)
          then expand_loop steps matrix labels queue clusterId eps minPts n
          else
            let labels := <[q := clusterId]> labels in
            let qNeighbors := regionQuery matrix q eps n in
            let queue :=
              if (minPts <=? length qNeighbors)%nat then enqueue_new queue qNeighbors
              else queue in
            expand_loop steps matrix labels queue clusterId eps minPts n
      end
  end.

(** The number of points still unvisited. *)
Definition unvisited (labels : list Z) : nat :=
  length (List.filter (fun l => bool_decide (l = (-1)%Z)) labels).

(** Every pass removes one element of the queue, and a pass that labels a
    point adds at most [n] elements; so this many passes suffice (lemma
    [expandCluster_returns]). *)
Definition expand_steps (labels : list Z) (queue : list nat) (n : nat) : nat :=
  length queue + (S n) * unvisited labels.

Definition expandCluster (matrix : list (list num)) (labels : list Z) (p : nat)
    (neighbors : list nat) (clusterId : Z) (eps : num) (minPts n : nat)
    : option (list Z) :=
  let labels := <[p := clusterId]> labels in
  expand_loop (expand_steps labels neighbors n) matrix labels neighbors
              clusterId eps minPts n.

(** The main loop over [i], carrying [labels] and [clusterId]. *)
Fixpoint cluster_loop (points : list nat) (matrix : list (list num))
    (labels : list Z) (clusterId : Z) (eps : num) (minPts n : nat)
    : option (list Z) :=
  match points with
  | [] => Some labels
  | i :: points =>
      if bool_decide (labels !! i <> Some (-1)%Z)
      then cluster_loop points matrix labels clusterId eps minPts n
      else
        let neighbors := regionQuery matrix i eps n in
        if (length neighbors <? minPts)%nat
        then cluster_loop points matrix (<[i := NOISE]> labels) clusterId eps minPts n
        else
          match expandCluster matrix labels i neighbors clusterId eps minPts n with
          | Some labels =>
              cluster_loop points matrix labels (clusterId + 1)%Z eps minPts n
          | None => None
          end
  end.

(** The keys of the object [clusters], as [Object.values] lists them. *)
Definition object_keys (labels : list Z) : list Z :=
  property_order
    (set_of (List.filter (fun l => negb (bool_decide (l = NOISE))) labels)).

(** [clusters[key]]: the indices with that label, ascending. *)
Definition members_of (labels : list Z) (key : Z) : list nat :=
  List.filter (fun i => bool_decide (labels !! i = Some key)) (seq 0 (length labels)).

Record dbscan_result : Type := {
  clusters : list (list nat);
  noise : list nat;
  labels : list Z
}.

(** [None] stands for a loop of [expandCluster] that does not end; it does
    not occur (lemma [dbscanCluster_returns]). *)
Definition dbscanCluster (grievances : list (grievance num)) (eps : num) (minPts : nat)
    : outcome (option dbscan_result) :=
  let n := length grievances in
  and_then (computeSimilarityMatrix grievances) (fun similarityMatrix =>
  Returned (
    match cluster_loop (seq 0 n) similarityMatrix (replicate n (-1)%Z) 1%Z eps minPts n with
    | Some labels =>
        Some {| clusters :=
                  List.filter (fun c => (minPts <=? length c)%nat)
                              (members_of labels <$> object_keys labels);
                noise := members_of labels NOISE;
                labels := labels |}
    | None => None
    end)).

(** [g.finalStatus = 'NEAR_DUPLICATE'; g.clusteredWith = primaryIdx;
    g.clusterBasedMatch = true] when [g.finalStatus === 'UNIQUE']. *)
Definition link_to (primaryIdx : nat) (g : grievance num) : grievance num :=
  match finalStatus g with
  | UNIQUE =>
      {| pdfName := pdfName g; pageNumber := pageNumber g;
         processedText := processedText g; embedding := embedding g;
         finalStatus := NEAR_DUPLICATE;
         globalScore := globalScore g; localScore := localScore g;
         globalMatchId := globalMatchId g;
         clusterId := clusterId g; clusterSize := clusterSize g;
         clusteredWith := Some primaryIdx; clusterBasedMatch := true |}
  | _ => g
  end.

Definition page_of (grievances : list (grievance num)) (idx : nat) : nat :=
  match grievances !! idx with
  | Some g => pageNumber g
  | None => 0
  end.

(** The body of [for (const cluster of clusters)]. *)
Definition mark_cluster (grievances : list (grievance num)) (cluster : list nat)
    : list (grievance num) :=
  if (2 <=? length cluster)%nat
  then
    match sort_by (page_of grievances) cluster with
    | primaryIdx :: rest =>
        foldl (fun grievances dupIdx => alter (link_to primaryIdx) dupIdx grievances)
              grievances rest
    | [] => grievances
    end
  else grievances.

(** [g.clusterId = labels[idx]] and [g.clusterSize]. *)
Definition with_cluster_info (labels : list Z) (idx : nat) (g : grievance num)
    : grievance num :=
  let label := labels !! idx in
  {| pdfName := pdfName g; pageNumber := pageNumber g;
     processedText := processedText g; embedding := embedding g;
     finalStatus := finalStatus g;
     globalScore := globalScore g; localScore := localScore g;
     globalMatchId := globalMatchId g;
     clusterId := label;
     clusterSize :=
       match label with
       | Some l =>
           if (0 <? l)%Z
           then length (List.filter (fun l' => bool_decide (l' = l)) labels)
           else 0
       | None => 0
       end;
     clusteredWith := clusteredWith g; clusterBasedMatch := clusterBasedMatch g |}.

Definition applyDBSCANClustering (grievances : list (grievance num))
    (thresholds : gmap string num) : outcome (option (list (grievance num))) :=
  if (length grievances <? 2)%nat then Returned (Some grievances)
  else
    let eps := sub (lit 1) (opt_or_else (thresholds !! "near_duplicate") (lit 0.30)) in
    let minPts := 2%nat in
    and_then (dbscanCluster grievances eps minPts) (fun result =>
    Returned (
      match result with
      | Some result =>
          let grievances := imap (with_cluster_info (labels result)) grievances in
          Some (foldl mark_cluster grievances (clusters result))
      | None => None
      end)).

End Definitions.

End Dbscan.

(** * src/batch/batchProcessor.js *)

Module BatchProcessor.
Import Js Records Embedding AdaptiveThreshold.

Section Definitions.
Context {num : Type} {N : Number num}.

(** ** The similarity kernel *)

(** The properties [computeContextualSimilarity] reads from its first
    argument. *)
Record subject : Type := {
  embedding1 : list num;
  processedText1 : string;
  category1 : option string
}.

(** The properties it reads from its second argument: a grievance of the
    batch, or the object that [topKSimilaritySearch] builds. *)
Record candidate : Type := {
  embedding2 : list num;
  processedText2 : option string;
  text2 : option string;
  category2 : option string;
  metadataCategory2 : option string
}.

(** [s || d] on strings that may be missing: the empty string is falsy. *)
Definition string_or (s : option string) (d : option string) : option string :=
  match s with
  | Some w => if nonempty w then Some w else d
  | None => d
  end.

(** [text.split(' ').filter(w => w.length > 0)]. *)
Definition words_of (text : string) : list string :=
  List.filter nonempty (split_space text).

Definition commonWords : list string :=
  ["problem"; "issue"; "complaint"; "please"; "help"; "need"; "request";
   "government"; "department"; "office"; "area"; "road"; "water"; "service";
   "days"; "weeks"; "months"; "time"; "action"; "taken"; "urgent"].

(** The alternatives of [/^(sector|ward|...|station)$/i]. *)
Definition locationWords : list string :=
  ["sector"; "ward"; "block"; "colony"; "nagar"; "road"; "chowk"; "market";
   "park"; "school"; "hospital"; "station"].

(** [/^\d+$/]. *)
Definition all_digits (word : string) : bool :=
  nonempty word && forallb is_digit (list_ascii_of_string word).

Definition is_location (word : string) : bool :=
  has locationWords (toLowerCase word) || all_digits word.

(** [intersection]: the words of the first set that the second has. *)
Definition shared_words (words1 words2 : list string) : list string :=
  set_of (List.filter (has (set_of words2)) (set_of words1)).

Definition rareMatches (intersection : list string) : list string :=
  List.filter (fun word => (3 <? String.length word)%nat && negb (has commonWords word))
              intersection.

Definition locationKeywords (rare : list string) : list string :=
  List.filter is_location rare.

Definition categoryModifier (cat1 cat2 : string) : num :=
  if negb (String.eqb cat1 "OTHER") && negb (String.eqb cat2 "OTHER")
  then if String.eqb cat1 cat2 then lit 0.10 else lit (-0.25)
  else lit 0.

Definition round3 (x : num) : num := div (round (mul x (lit 1000))) (lit 1000).

(** The object [breakdown] of the result. *)
Record score_breakdown : Type := {
  b_cosine : num;
  b_jaccard : num;
  b_ngram : num;
  b_rareBoost : num;
  b_locationBoost : num;
  b_categoryModifier : num;
  b_base : num;
  b_final : num
}.

Record similarity : Type := {
  combinedScore : num;
  breakdown : score_breakdown
}.

(** The call throws when the embeddings differ in length, and when the
    second argument has neither [processedText] nor [text] to split. *)
Definition computeContextualSimilarity (grievance1 : subject) (grievance2 : candidate)
    (thresholds : gmap string num) : outcome similarity :=
  and_then (cosineSimilarity (embedding1 grievance1) (embedding2 grievance2))
    (fun cosineScore =>
  match string_or (processedText2 grievance2) (text2 grievance2) with
  | None => Thrown "Cannot read properties of undefined (reading 'split')"
  | Some text =>
      let words1 := set_of (words_of (processedText1 grievance1)) in
      let words2 := set_of (words_of text) in
      let intersection := shared_words words1 words2 in
      let union := set_of (words1 ++ words2) in
      let jaccardScore :=
        if (length union =? 0)%nat then lit 0
        else div (of_nat (length intersection)) (of_nat (length union)) in
      let ngramScore := calculateNGramOverlap (processedText1 grievance1) text 2 in
      let rare := rareMatches intersection in
      let location := locationKeywords rare in
      let rareBoost := min (lit 0.08) (mul (of_nat (length rare)) (lit 0.02)) in
      let locationBoost := min (lit 0.06) (mul (of_nat (length location)) (lit 0.03)) in
      let cat1 := default "OTHER" (string_or (category1 grievance1) None) in
      let cat2 :=
        default "OTHER"
                (string_or (category2 grievance2)
                           (string_or (metadataCategory2 grievance2) None)) in
      let modifier := categoryModifier cat1 cat2 in
      let baseScore :=
        calculateAdaptiveWeightedScore
          {| cosine := cosineScore; jaccard := jaccardScore; ngram := ngramScore;
             metadata := Some (lit 0) |} thresholds in
      let finalScore :=
        add (add (add baseScore rareBoost) locationBoost) modifier in
      let finalScore := max (lit 0) (min (lit 1) finalScore) in
      Returned
        {| combinedScore := finalScore;
           breakdown :=
             {| b_cosine := round3 cosineScore; b_jaccard := round3 jaccardScore;
                b_ngram := round3 ngramScore; b_rareBoost := round3 rareBoost;
                b_locationBoost := round3 locationBoost;
                b_categoryModifier := round3 modifier;
                b_base := round3 baseScore; b_final := round3 finalScore |} |}
  end).

(** ** Saving the results *)

(** The columns of the inserted row that the classification decides. *)
Record grievance_row : Type := {
  row_id : Z;
  row_page_number : nat;
  duplicate_status : status;
  similarity_score : num;
  matched_grievance_id : option match_ref
}.

(** An entry of [savedResults]. *)
Record saved_result : Type := {
  id : Z;
  saved_pageNumber : nat;
  saved_status : status;
  score : num;
  matchedId : option match_ref
}.

(** [x || null] on a match reference: the number 0 is falsy, a string
    ["batch_<i>"] is not. *)
Definition ref_or_null (r : option match_ref) : option match_ref :=
  match r with
  | Some (Persisted 0) => None
  | _ => r
  end.

(** [g.globalScore || g.localScore || 0]. *)
Definition score_of (g : grievance num) : num :=
  opt_or_else (globalScore g) (opt_or_else (localScore g) (lit 0)).

(** The loop of [saveGrievancesToDB]; [next_id] is the row id the database
    gives to the next insert. *)
Fixpoint saveGrievancesToDB (grievances : list (grievance num)) (next_id : Z)
    : list grievance_row * list saved_result :=
  match grievances with
  | [] => ([], [])
  | g :: rest =>
      let row := {| row_id := next_id; row_page_number := pageNumber g;
                    duplicate_status := finalStatus g;
                    similarity_score := score_of g;
                    matched_grievance_id := ref_or_null (globalMatchId g) |} in
      let saved := {| id := next_id; saved_pageNumber := pageNumber g;
                      saved_status := finalStatus g; score := score_of g;
                      matchedId := globalMatchId g |} in
      let '(rows, results) := saveGrievancesToDB rest (next_id + 1)%Z in
      (row :: rows, saved :: results)
  end.

(** ** Forming the clusters *)

(** A value of the object [clusters]. *)
Record cluster : Type := {
  type : status;
  primaryId : Z;
  members : list Z;
  scores : list num
}.

(** The rows written for one cluster: the row of [duplicate_clusters] and
    its rows of [cluster_members]. *)
Record cluster_row : Type := {
  cluster_type : status;
  primary_grievance_id : Z;
  member_count : nat;
  avg_similarity_score : num;
  cluster_members : list (Z * num)
}.

(** The key under which a result is grouped, if it is grouped: no key for
    a UNIQUE result and for a match that is a ["batch_<i>"] string; else
    [matchedId || r.id]. *)
Definition cluster_key (r : saved_result) : option Z :=
  match saved_status r with
  | UNIQUE => None
  | _ =>
      match matchedId r with
      | Some (Pending _) => None
      | Some (Persisted z) => if bool_decide (z = 0%Z) then Some (id r) else Some z
      | None => Some (id r)
      end
  end.

(** [clusters[key].members.push(r.id); clusters[key].scores.push(r.score)],
    creating [clusters[key]] first when it is missing. *)
Definition add_to_cluster (clusters : gmap Z cluster) (key : Z) (r : saved_result)
    : gmap Z cluster :=
  let c := match clusters !! key with
           | Some c => c
           | None => {| type := saved_status r; primaryId := key;
                        members := []; scores := [] |}
           end in
  <[key := {| type := type c; primaryId := primaryId c;
              members := members c ++ [id r]; scores := scores c ++ [score r] |}]>
    clusters.

(** The first loop: the object [clusters] with its keys in insertion order. *)
Definition group_results (results : list saved_result) : gmap Z cluster * list Z :=
  foldl (fun acc r =>
           match cluster_key r with
           | Some key => (add_to_cluster acc.1 key r,
                          if bool_decide (key ∈ acc.2) then acc.2 else acc.2 ++ [key])
           | None => acc
           end)
        (∅, []) results.

Definition average (xs : list num) : num :=
  div (foldl add (lit 0) xs) (of_nat (length xs)).

(** The second loop, for a database that accepts every insert: one cluster
    row, with its members, for every entry that has members. *)
Definition formDuplicateClusters (results : list saved_result) : list cluster_row :=
  let '(clusters, keys) := group_results results in
  omap (fun key =>
          match clusters !! key with
          | Some c =>
              if (0 <? length (members c))%nat
              then Some {| cluster_type := type c;
                           primary_grievance_id := key;
                           member_count := length (members c);
                           avg_similarity_score := average (scores c);
                           cluster_members := zip (members c) (scores c) |}
              else None
          | None => None
          end)
       (property_order keys).

End Definitions.

Arguments subject : clear implicits.
Arguments candidate : clear implicits.
Arguments similarity : clear implicits.
Arguments score_breakdown : clear implicits.
Arguments grievance_row : clear implicits.
Arguments saved_result : clear implicits.
Arguments cluster : clear implicits.
Arguments cluster_row : clear implicits.

End BatchProcessor.

(** * Regular expressions, as the text module uses them *)

Module Regex.
Import Js.

(** The constructs that occur in the patterns of the sources.  A
    repetition is greedy and ranges over one character class. *)
Inductive regex : Type :=
| Empty
| Char (p : ascii -> bool)
| Seq (r1 r2 : regex)
| Alt (r1 r2 : regex)
| Opt (r : regex)
| Repeat (lo : nat) (hi : option nat) (p : ascii -> bool)
| WordBoundary
| EndOfInput.

(** [\w]. *)
Definition is_word (c : ascii) : bool :=
  is_lower c || is_upper c || is_digit c || Ascii.eqb c "_"%char.

Definition word_before (prev : option ascii) : bool :=
  match prev with Some c => is_word c | None => false end.

Definition word_at (s : list ascii) : bool :=
  match s with c :: _ => is_word c | [] => false end.

Definition may_repeat (hi : option nat) : bool :=
  match hi with Some O => false | _ => true end.

(** The matcher tries the alternatives in the order of a backtracking
    engine and hands every way of matching to the continuation [k], with
    the character before the position, the rest of the input and the
    number of characters consumed. *)
Fixpoint repeat_greedy (p : ascii -> bool) (lo : nat) (hi : option nat)
    (prev : option ascii) (s : list ascii) (consumed : nat)
    (k : option ascii -> list ascii -> nat -> option nat) : option nat :=
  let stop := if (lo =? 0)%nat then k prev s consumed else None in
  match s with
  | c :: s' =>
      if p c && may_repeat hi
      then match repeat_greedy p (Nat.pred lo) (Nat.pred <$> hi) (Some c) s'
                               (S consumed) k with
           | Some n => Some n
           | None => stop
           end
      else stop
  | [] => stop
  end.

Fixpoint run (r : regex) (prev : option ascii) (s : list ascii) (consumed : nat)
    (k : option ascii -> list ascii -> nat -> option nat) : option nat :=
  match r with
  | Empty => k prev s consumed
  | Char p =>
      match s with
      | c :: s' => if p c then k (Some c) s' (S consumed) else None
      | [] => None
      end
  | Seq r1 r2 =>
      run r1 prev s consumed (fun prev' s' n => run r2 prev' s' n k)
  | Alt r1 r2 =>
      match run r1 prev s consumed k with
      | Some n => Some n
      | None => run r2 prev s consumed k
      end
  | Opt r1 =>
      match run r1 prev s consumed k with
      | Some n => Some n
      | None => k prev s consumed
      end
  | Repeat lo hi p => repeat_greedy p lo hi prev s consumed k
  | WordBoundary =>
      if xorb (word_before prev) (word_at s) then k prev s consumed else None
  | EndOfInput =>
      match s with
      | [] => k prev s consumed
      | _ :: _ => None
      end
  end.

(** The length of the match that starts at this position, if there is one. *)
Definition match_here (r : regex) (prev : option ascii) (s : list ascii) : option nat :=
  run r prev s 0 (fun _ _ n => Some n).

(** [s.replace(/r/g, by)]: matches are sought from left to right, each
    search starting where the last match ended; [skip] characters of the
    last match remain to be passed over. *)
Fixpoint replace_all (r : regex) (by_ : list ascii) (prev : option ascii)
    (s : list ascii) (skip : nat) {struct s} : list ascii :=
  match skip with
  | S skip' =>
      match s with
      | c :: s' => replace_all r by_ (Some c) s' skip'
      | [] => []
      end
  | O =>
      match match_here r prev s with
      | Some (S n) =>
          by_ ++ match s with
                 | c :: s' => replace_all r by_ (Some c) s' n
                 | [] => []
                 end
      | Some O =>
          by_ ++ match s with
                 | c :: s' => c :: replace_all r by_ (Some c) s' 0
                 | [] => []
                 end
      | None =>
          match s with
          | c :: s' => c :: replace_all r by_ (Some c) s' 0
          | [] => []
          end
      end
  end.

(** [s.replace(/r/, by)]: the first match only. *)
Fixpoint replace_first (r : regex) (by_ : list ascii) (prev : option ascii)
    (s : list ascii) : list ascii :=
  match match_here r prev s with
  | Some n => by_ ++ drop n s
  | None =>
      match s with
      | c :: s' => c :: replace_first r by_ (Some c) s'
      | [] => []
      end
  end.

(** [/r/.test(s)]. *)
Fixpoint test (r : regex) (prev : option ascii) (s : list ascii) : bool :=
  match match_here r prev s with
  | Some _ => true
  | None =>
      match s with
      | c :: s' => test r (Some c) s'
      | [] => false
      end
  end.

(** A literal string. *)
Fixpoint literal (chars : list ascii) (rest : regex) : regex :=
  match chars with
  | [] => rest
  | c :: chars' => Seq (Char (Ascii.eqb c)) (literal chars' rest)
  end.

(** A literal string under the flag [i]. *)
Fixpoint literal_i (chars : list ascii) (rest : regex) : regex :=
  match chars with
  | [] => rest
  | c :: chars' =>
      Seq (Char (fun x => Ascii.eqb (lower_char x) (lower_char c))) (literal_i chars' rest)
  end.

Definition one_of (chars : string) (c : ascii) : bool :=
  existsb (Ascii.eqb c) (list_ascii_of_string chars).

End Regex.

(** * The text preprocessing module *)

Module TextPreprocessing.
Import Js Regex.

(** Texts are strings of 7-bit characters.  On such a text the canonical
    decomposition (NFD) changes nothing, and it has no combining mark in
    the range U+0300 to U+036F to remove. *)
Definition normalizeUnicode (text : string) : string := text.

Definition is_alnum (c : ascii) : bool := is_lower c || is_upper c || is_digit c.

Definition sweep (pattern : regex) (text : string) : string :=
  string_of_list_ascii (replace_all pattern [" "%char] None (list_ascii_of_string text) 0).

(** The pattern of [removeUrls], under the flags g and i: [https?], [://],
    an optional [www.], 1 to 256 characters of [-a-zA-Z0-9@:%._+~#=], a
    dot, 1 to 6 characters of [a-zA-Z0-9()], a word boundary, and any
    number of characters of [-a-zA-Z0-9()@:%_+.~#?&/=]. *)
Definition urlPattern : regex :=
  literal_i (list_ascii_of_string "http")
    (Seq (Opt (literal_i (list_ascii_of_string "s") Empty))
    (literal_i (list_ascii_of_string "://")
    (Seq (Opt (literal_i (list_ascii_of_string "www.") Empty))
    (Seq (Repeat 1 (Some 256) (fun c => is_alnum c || one_of "-@:%._+~#=" c))
    (Seq (Char (Ascii.eqb "."%char))
    (Seq (Repeat 1 (Some 6) (fun c => is_alnum c || one_of "()" c))
    (Seq WordBoundary
         (Repeat 0 None (fun c => is_alnum c || one_of "-()@:%_+.~#?&/=" c))))))))).

Definition removeUrls (text : string) : string := sweep urlPattern text.

(** The pattern of [removeEmails], under the flag g: a word boundary, one
    or more of [A-Za-z0-9._%+-], an at sign, one or more of [A-Za-z0-9.-],
    a dot, two or more of [A-Z|a-z], and a word boundary. *)
Definition emailPattern : regex :=
  Seq WordBoundary
  (Seq (Repeat 1 None (fun c => is_alnum c || one_of "._%+-" c))
  (Seq (Char (Ascii.eqb "@"%char))
  (Seq (Repeat 1 None (fun c => is_alnum c || one_of ".-" c))
  (Seq (Char (Ascii.eqb "."%char))
  (Seq (Repeat 2 None (fun c => is_lower c || is_upper c || one_of "|" c))
       WordBoundary))))).

Definition removeEmails (text : string) : string := sweep emailPattern text.

(** The pattern of [removePhoneNumbers], under the flag g.  Either an
    optional prefix (a plus sign, 1 to 3 digits, an optional hyphen or
    space) and 10 digits; or 3 digits in parentheses, any white space, 3
    digits, an optional hyphen and 4 digits. *)
Definition phonePattern : regex :=
  Alt (Seq (Opt (Seq (Char (Ascii.eqb "+"%char))
                (Seq (Repeat 1 (Some 3) is_digit) (Repeat 0 (Some 1) (one_of "- ")))))
           (Repeat 10 (Some 10) is_digit))
      (Seq (Char (Ascii.eqb "("%char))
      (Seq (Repeat 3 (Some 3) is_digit)
      (Seq (Char (Ascii.eqb ")"%char))
      (Seq (Repeat 0 None is_white)
      (Seq (Repeat 3 (Some 3) is_digit)
      (Seq (Repeat 0 (Some 1) (one_of "-"))
           (Repeat 4 (Some 4) is_digit))))))).

Definition removePhoneNumbers (text : string) : string := sweep phonePattern text.

(** The pattern of [removeSpecialChars], under the flag g: one character
    that is no lower-case letter, no digit and no white space. *)
Definition specialPattern : regex :=
  Char (fun c => negb (is_lower c || is_digit c || is_white c)).

Definition removeSpecialChars (text : string) : string := sweep specialPattern text.

Fixpoint trim_start (s : list ascii) : list ascii :=
  match s with
  | c :: s' => if is_white c then trim_start s' else s
  | [] => []
  end.

(** [text.trim()]. *)
Definition trim (text : string) : string :=
  string_of_list_ascii
    (rev (trim_start (rev (trim_start (list_ascii_of_string text))))).

(** Every run of white space becomes one space, and the ends are trimmed. *)
Definition normalizeWhitespace (text : string) : string :=
  trim (sweep (Repeat 1 None is_white) text).

Definition STOPWORDS : list string :=
  ["i"; "me"; "my"; "myself"; "we"; "our"; "ours"; "ourselves"; "you";
   "your"; "yours"; "yourself"; "yourselves"; "he"; "him"; "his"; "himself";
   "she"; "her"; "hers"; "herself"; "it"; "its"; "itself"; "they"; "them";
   "their"; "theirs"; "themselves"; "what"; "which"; "who"; "whom"; "this";
   "that"; "these"; "those"; "am"; "is"; "are"; "was"; "were"; "be"; "been";
   "being"; "have"; "has"; "had"; "having"; "do"; "does"; "did"; "doing";
   "a"; "an"; "the"; "and"; "but"; "if"; "or"; "because"; "as"; "until";
   "while"; "of"; "at"; "by"; "for"; "with"; "about"; "against"; "between";
   "into"; "through"; "during"; "before"; "after"; "above"; "below"; "to";
   "from"; "up"; "down"; "in"; "out"; "on"; "off"; "over"; "under"; "again";
   "further"; "then"; "once"; "here"; "there"; "when"; "where"; "why"; "how";
   "all"; "both"; "each"; "few"; "more"; "most"; "other"; "some"; "such";
   "no"; "nor"; "not"; "only"; "own"; "same"; "so"; "than"; "too"; "very";
   "s"; "t"; "can"; "will"; "just"; "don"; "should"; "now"].

Definition keep_word (word : string) : bool :=
  negb (has STOPWORDS word) && (1 <? String.length word)%nat.

Definition removeStopwords (text : string) : string :=
  join_space (List.filter keep_word (split_space text)).

Definition irregulars : list (string * string) :=
  [("complained", "complain"); ("complaints", "complain");
   ("issues", "issue"); ("problems", "problem");
   ("services", "service"); ("products", "product");
   ("requests", "request"); ("responses", "response");
   ("delayed", "delay"); ("delays", "delay");
   ("refunds", "refund"); ("refunded", "refund");
   ("resolved", "resolve"); ("resolving", "resolve");
   ("received", "receive"); ("receiving", "receive");
   ("damaged", "damage"); ("damaging", "damage");
   ("charged", "charge"); ("charges", "charge");
   ("cancelled", "cancel"); ("cancelling", "cancel")].

(** [irregulars[word]] when it is truthy, as text.  [irregulars] is an
    object literal, so the lookup also finds what it inherits from
    [Object.prototype]; of those names, [constructor] is the one a
    lower-case word can be, and its value, the function [Object], is joined
    into the text as [function Object() { [native code] }]. *)
Definition irregular_of (word : string) : option string :=
  match list_find (fun entry => entry.1 = word) irregulars with
  | Some (_, entry) => Some entry.2
  | None =>
      if String.eqb word "constructor"
      then Some "function Object() { [native code] }"
      else None
  end.

Record rule : Type := {
  pattern : regex;
  replacement : string;
  minLen : nat
}.

(** [/<suffix>$/] and [/<suffix>s?$/]. *)
Definition suffix (text : string) : regex :=
  literal (list_ascii_of_string text) EndOfInput.

Definition suffix_s (text : string) : regex :=
  literal (list_ascii_of_string text)
          (Seq (Repeat 0 (Some 1) (Ascii.eqb "s"%char)) EndOfInput).

Definition rules : list rule :=
  [ {| pattern := suffix_s "ication"; replacement := "icate"; minLen := 7 |};
    {| pattern := suffix "ational"; replacement := "ate"; minLen := 7 |};
    {| pattern := suffix "tional"; replacement := "tion"; minLen := 6 |};
    {| pattern := suffix "encies"; replacement := "ency"; minLen := 6 |};
    {| pattern := suffix "ancies"; replacement := "ancy"; minLen := 6 |};
    {| pattern := suffix "ement"; replacement := ""; minLen := 6 |};
    {| pattern := suffix "ments"; replacement := ""; minLen := 6 |};
    {| pattern := suffix "ness"; replacement := ""; minLen := 5 |};
    {| pattern := suffix "ities"; replacement := "ity"; minLen := 6 |};
    {| pattern := suffix_s "ing"; replacement := ""; minLen := 5 |};
    {| pattern := suffix "edly"; replacement := ""; minLen := 5 |};
    {| pattern := suffix "ied"; replacement := "y"; minLen := 4 |};
    {| pattern := suffix "ies"; replacement := "y"; minLen := 4 |};
    {| pattern := suffix "ed"; replacement := ""; minLen := 4 |};
    {| pattern := suffix "es"; replacement := ""; minLen := 4 |};
    {| pattern := suffix "s"; replacement := ""; minLen := 3 |};
    {| pattern := suffix "tion"; replacement := "te"; minLen := 5 |};
    {| pattern := suffix "ment"; replacement := ""; minLen := 5 |};
    {| pattern := suffix "ful"; replacement := ""; minLen := 5 |};
    {| pattern := suffix "ous"; replacement := ""; minLen := 5 |};
    {| pattern := suffix "ive"; replacement := ""; minLen := 5 |};
    {| pattern := suffix "ize"; replacement := ""; minLen := 5 |};
    {| pattern := suffix "ise"; replacement := ""; minLen := 5 |};
    {| pattern := suffix "ly"; replacement := ""; minLen := 4 |};
    {| pattern := suffix "er"; replacement := ""; minLen := 4 |};
    {| pattern := suffix "or"; replacement := ""; minLen := 4 |} ].

(** The [for] loop over the rules: the first rule that applies rewrites the
    word, and the loop ends. *)
Fixpoint apply_rules (rules : list rule) (word : string) : string :=
  match rules with
  | [] => word
  | rule :: rest =>
      if (minLen rule <=? String.length word)%nat
         && test (pattern rule) None (list_ascii_of_string word)
      then string_of_list_ascii
             (replace_first (pattern rule) (list_ascii_of_string (replacement rule))
                            None (list_ascii_of_string word))
      else apply_rules rest word
  end.

Definition lemmatizeWord (word : string) : string :=
  if (String.length word <=? 2)%nat then word
  else match irregular_of word with
       | Some lemma => lemma
       | None =>
           let lemma := apply_rules rules word in
           if nonempty lemma then lemma else word
       end.

Definition simpleLemmatization (text : string) : string :=
  join_space (lemmatizeWord <$> split_space text).

Definition preprocessText (text : string) : string :=
  if negb (nonempty text) then EmptyString
  else
    let processed := normalizeUnicode text in
    let processed := toLowerCase processed in
    let processed := removeUrls processed in
    let processed := removeEmails processed in
    let processed := removePhoneNumbers processed in
    let processed := removeSpecialChars processed in
    let processed := normalizeWhitespace processed in
    let processed := removeStopwords processed in
    let processed := simpleLemmatization processed in
    trim processed.

End TextPreprocessing.

(** * src/index.js *)

Module Index.
Import Embedding TextPreprocessing.

(** [processGrievance], as far as the embedding it compares and saves: the
    text is preprocessed and [generateEmbedding] is called on the result.
    [reply] is what the request of that call resolves to. *)
Definition processGrievance_embedding {num : Type} {N : Number num}
    (grievanceText : string) (reply : outcome (response num)) : json num :=
  let processedText := preprocessText grievanceText in
  generateEmbedding processedText reply.

End Index.

(** * Arrays sorted by a numeric comparator *)

Module JsArray.

(** [x < 0], as a comparator's answer is read. *)
Definition negative {num : Type} {N : Number num} (x : num) : bool :=
  leb x (lit 0) && negb (eqb x (lit 0)).

(** [array.sort(compare)]: the sort is stable, so for a comparator that
    orders the elements consistently the result is the one that inserting
    the elements one after the other gives, each before the first element
    it has to precede. *)
Fixpoint insert_with {A num : Type} {N : Number num} (compare : A -> A -> num)
    (x : A) (l : list A) : list A :=
  match l with
  | [] => [x]
  | y :: l' =>
      if negative (compare x y) then x :: y :: l' else y :: insert_with compare x l'
  end.

Definition sort_with {A num : Type} {N : Number num} (compare : A -> A -> num)
    (l : list A) : list A :=
  foldl (fun sorted x => insert_with compare x sorted) [] l.

End JsArray.

(** * src/nlp/embedding.js: searching for the most similar grievance *)

Module EmbeddingSearch.
Import Js JsArray Embedding.

Section Definitions.
Context {num : Type} {N : Number num}.

Definition classify_at (score : num) : status :=
  if geb score (lit 0.75) then DUPLICATE
  else if geb score (lit 0.50) then NEAR_DUPLICATE
  else UNIQUE.

(** A metric that is [null] is [None]. *)
Definition classifyDuplicate (cosineSim : num) (jaccardSim ngramOverlap : option num)
    : status :=
  match jaccardSim, ngramOverlap with
  | None, None => classify_at cosineSim
  | _, _ =>
      let combinedScore := mul cosineSim (lit 0.60) in
      let combinedScore :=
        match jaccardSim with
        | Some j => add combinedScore (mul j (lit 0.20))
        | None => combinedScore
        end in
      let combinedScore :=
        match ngramOverlap with
        | Some n => add combinedScore (mul n (lit 0.20))
        | None => combinedScore
        end in
      classify_at combinedScore
  end.

(** An element of [existingGrievances], with its embedding parsed. *)
Record existing : Type := {
  existing_id : Z;
  existing_text : string;
  existing_embedding : list num
}.

(** The object [calculateContextualSimilarity] returns. *)
Record contextual : Type := {
  id : Z;
  cosineSim : num;
  jaccardSim : num;
  bigramSim : num;
  trigramSim : num;
  ngramSim : num;
  combinedScore : num;
  result_status : status
}.

Definition round3 (x : num) : num := div (round (mul x (lit 1000))) (lit 1000).

Definition calculateContextualSimilarity (newEmbedding : list num) (newText : string)
    (existingGrievance : existing) : outcome contextual :=
  and_then (cosineSimilarity newEmbedding (existing_embedding existingGrievance))
    (fun cosineSim =>
  let words1 := set_of (List.filter nonempty (split_space newText)) in
  let words2 :=
    set_of (List.filter nonempty (split_space (existing_text existingGrievance))) in
  let intersection := set_of (List.filter (has words2) words1) in
  let union := set_of (words1 ++ words2) in
  let jaccardSim :=
    if (length union =? 0)%nat then lit 0
    else div (of_nat (length intersection)) (of_nat (length union)) in
  let bigramSim := calculateNGramOverlap newText (existing_text existingGrievance) 2 in
  let trigramSim := calculateNGramOverlap newText (existing_text existingGrievance) 3 in
  let ngramSim := add (mul bigramSim (lit 0.6)) (mul trigramSim (lit 0.4)) in
  let combinedScore :=
    add (add (mul cosineSim (lit 0.5)) (mul jaccardSim (lit 0.25)))
        (mul ngramSim (lit 0.25)) in
  let status := classifyDuplicate cosineSim (Some jaccardSim) (Some ngramSim) in
  Returned {| id := existing_id existingGrievance;
              cosineSim := round3 cosineSim;
              jaccardSim := round3 jaccardSim;
              bigramSim := round3 bigramSim;
              trigramSim := round3 trigramSim;
              ngramSim := round3 ngramSim;
              combinedScore := round3 combinedScore;
              result_status := status |}).

(** The object [findMostSimilarEnhanced] returns; the properties that the
    first [return] leaves out are [None]. *)
Record best_match : Type := {
  matchedId : option Z;
  score : num;
  best_cosineSim : option num;
  best_jaccardSim : option num;
  best_ngramSim : option num;
  status_of_match : status;
  topMatches : list contextual
}.

(** [(a, b) => b.combinedScore - a.combinedScore]. *)
Definition by_score_descending (a b : contextual) : num :=
  sub (combinedScore b) (combinedScore a).

Definition findMostSimilarEnhanced (newEmbedding : list num) (newText : string)
    (existingGrievances : list existing) : outcome best_match :=
  if (length existingGrievances =? 0)%nat
  then Returned {| matchedId := None; score := lit 0;
                   best_cosineSim := None; best_jaccardSim := None;
                   best_ngramSim := None;
                   status_of_match := UNIQUE; topMatches := [] |}
  else
    and_then (for_each (calculateContextualSimilarity newEmbedding newText)
                       existingGrievances)
      (fun similarities =>
    match sort_with by_score_descending similarities with
    | (topMatch :: _) as sorted =>
        Returned {| matchedId := Some (id topMatch);
                    score := combinedScore topMatch;
                    best_cosineSim := Some (cosineSim topMatch);
                    best_jaccardSim := Some (jaccardSim topMatch);
                    best_ngramSim := Some (ngramSim topMatch);
                    status_of_match := result_status topMatch;
                    topMatches := take 5 sorted |}
    | [] => Thrown "Cannot read properties of undefined (reading 'id')"
    end).

(** The inner loop of [findDuplicateClusters], over the indices [j] after
    [i]: the set [visited] and the cluster that is being filled. *)
Fixpoint gather_similar (embeddings : list (list num)) (threshold : num)
    (ei : list num) (js : list nat) (visited cluster : list nat)
    : outcome (list nat * list nat) :=
  match js with
  | [] => Returned (visited, cluster)
  | j :: js' =>
      if bool_decide (j ∈ visited)
      then gather_similar embeddings threshold ei js' visited cluster
      else
        match embeddings !! j with
        | Some ej =>
            and_then (cosineSimilarity ei ej) (fun similarity =>
              if geb similarity threshold
              then gather_similar embeddings threshold ei js'
                                  (visited ++ [j]) (cluster ++ [j])
              else gather_similar embeddings threshold ei js' visited cluster)
        | None => Thrown "Cannot read properties of undefined (reading 'embedding')"
        end
  end.

(** The outer loop, over the indices [i]. *)
Fixpoint cluster_from (embeddings : list (list num)) (threshold : num)
    (heads : list nat) (visited : list nat) (clusters : list (list nat))
    : outcome (list (list nat)) :=
  match heads with
  | [] => Returned clusters
  | i :: heads' =>
      if bool_decide (i ∈ visited)
      then cluster_from embeddings threshold heads' visited clusters
      else
        match embeddings !! i with
        | Some ei =>
            and_then
              (gather_similar embeddings threshold ei
                 (seq (S i) (length embeddings - S i)) (visited ++ [i]) [i])
              (fun '(visited, cluster) =>
                 cluster_from embeddings threshold heads' visited
                   (if (1 <? length cluster)%nat then clusters ++ [cluster]
                    else clusters))
        | None => Thrown "Cannot read properties of undefined (reading 'embedding')"
        end
  end.

(** [embeddings] are the vectors [embeddings[i].embedding]. *)
Definition findDuplicateClusters (embeddings : list (list num)) (threshold : num)
    : outcome (list (list nat)) :=
  cluster_from embeddings threshold (seq 0 (length embeddings)) [] [].

End Definitions.

Arguments existing : clear implicits.
Arguments contextual : clear implicits.
Arguments best_match : clear implicits.

End EmbeddingSearch.

(** * The text preprocessing module: statistics and validation *)

Module TextAnalysis.
Import Js Embedding TextPreprocessing.

Section Definitions.
Context {num : Type} {N : Number num}.

(** The text that is validated is the raw text of the request, a JavaScript
    string: the list of its UTF-16 code units. *)
Definition js_string : Type := list Z.

(** The code units of a text of 7-bit characters. *)
Definition code_units (text : string) : js_string :=
  (fun c => Z.of_nat (nat_of_ascii c)) <$> list_ascii_of_string text.

(** The characters of [\s], which are also those that [trim] removes: the
    white space and the line terminators of the language (tab to carriage
    return, space, no-break space, U+1680, U+2000 to U+200A, U+2028,
    U+2029, U+202F, U+205F, U+3000 and U+FEFF). *)
Definition is_js_white (u : Z) : bool :=
  ((9 <=? u) && (u <=? 13) || (u =? 32) || (u =? 160) || (u =? 5760)
   || (8192 <=? u) && (u <=? 8202) || (u =? 8232) || (u =? 8233) || (u =? 8239)
   || (u =? 8287) || (u =? 12288) || (u =? 65279))%Z.

(** The pieces of a text between the code units that [sep] recognises,
    empty pieces included. *)
Fixpoint split_units (sep : Z -> bool) (text : js_string) : list js_string :=
  match text with
  | [] => [[]]
  | u :: rest =>
      if sep u then [] :: split_units sep rest
      else match split_units sep rest with
           | w :: ws => (u :: w) :: ws
           | [] => [[u]]
           end
  end.

(** [text.split(/\s+/).filter(w => w.length > 0)]: splitting at every
    white-space character gives the same words once the empty pieces are
    dropped. *)
Definition words_between_spaces (text : js_string) : list js_string :=
  List.filter (fun w => (0 <? length w)%nat) (split_units is_js_white text).

Record text_stats : Type := {
  stats_length : nat;
  wordCount : nat;
  avgWordLength : num
}.

Definition getTextStats (text : js_string) : text_stats :=
  let words := words_between_spaces text in
  {| stats_length := length text;
     wordCount := length words;
     avgWordLength :=
       or_else (div (foldl (fun sum w => add sum (of_nat (length w))) (lit 0) words)
                    (of_nat (length words)))
               (lit 0) |}.

Record validation : Type := {
  isValid : bool;
  errors : list string;
  stats : text_stats
}.

(** [errors.push(message)] under a condition. *)
Definition push_if (condition : bool) (message : string) (errors : list string)
    : list string :=
  if condition then errors ++ [message] else errors.

Fixpoint trim_units_start (text : js_string) : js_string :=
  match text with
  | u :: rest => if is_js_white u then trim_units_start rest else text
  | [] => []
  end.

(** [text.trim()]. *)
Definition trim_units (text : js_string) : js_string :=
  rev (trim_units_start (rev (trim_units_start text))).

(** [validateGrievanceText], for a text that is a string. *)
Definition validateGrievanceText (text : js_string) : validation :=
  let errors := [] in
  let errors :=
    push_if ((length text =? 0)%nat || (length (trim_units text) =? 0)%nat)
            "Grievance text cannot be empty" errors in
  let stats := getTextStats text in
  let errors :=
    push_if (wordCount stats <? 5)%nat "Grievance must contain at least 5 words" errors in
  let errors :=
    push_if (5000 <? wordCount stats)%nat "Grievance is too long (max 5000 words)" errors in
  let errors :=
    push_if (stats_length stats <? 20)%nat
            "Grievance must be at least 20 characters long" errors in
  {| isValid := (length errors =? 0)%nat; errors := errors; stats := stats |}.

(** [extractNGrams]: the loop is the one of [extractNGramsFromWords], run on
    the words of the text. *)
Definition extractNGrams (text : string) (n : nat) : list string :=
  extractNGramsFromWords (List.filter nonempty (split_space text)) n.

Definition jaccardSimilarity (text1 text2 : string) : num :=
  let words1 := set_of (List.filter nonempty (split_space text1)) in
  let words2 := set_of (List.filter nonempty (split_space text2)) in
  let intersection := set_of (List.filter (has words2) words1) in
  let union := set_of (words1 ++ words2) in
  if (length union =? 0)%nat then lit 0
  else div (of_nat (length intersection)) (of_nat (length union)).

End Definitions.

Arguments text_stats : clear implicits.
Arguments validation : clear implicits.

End TextAnalysis.

(** * src/nlp/categoryDetector.js *)

Module CategoryDetector.
Import Js.

(** [CATEGORY_KEYWORDS], in the order of the object literal. *)
Definition CATEGORY_KEYWORDS : list (string * list string) :=
  [ ("WATER",
     ["water"; "supply"; "tap"; "pipeline"; "drinking"; "contaminated";
      "leakage"; "shortage"; "tanker"; "bore"; "well"; "purification";
      "waterlogging"; "overflow"; "pump"; "reservoir"]);
    ("GARBAGE",
     ["garbage"; "waste"; "trash"; "rubbish"; "litter"; "dump"; "dustbin";
      "collection"; "sweeper"; "sanitation"; "cleanliness"; "filth";
      "solid waste"; "disposal"; "recycling"; "compost"]);
    ("ROAD",
     ["road"; "pothole"; "street"; "highway"; "bridge"; "footpath";
      "pavement"; "asphalt"; "tar"; "construction"; "traffic"; "signal";
      "zebra crossing"; "divider"; "speed breaker"; "accident"]);
    ("ELECTRICITY",
     ["electricity"; "power"; "electric"; "voltage"; "transformer";
      "meter"; "billing"; "outage"; "blackout"; "wire"; "pole";
      "streetlight"; "light"; "current"; "load shedding"; "connection"]);
    ("SEWAGE",
     ["sewage"; "drain"; "drainage"; "sewer"; "gutter"; "manhole";
      "clogged"; "blocked"; "overflow"; "stink"; "smell"; "nala";
      "wastewater"; "septic"; "toilet"; "sanitation"]);
    ("NOISE",
     ["noise"; "sound"; "loud"; "pollution"; "horn"; "speaker";
      "construction noise"; "factory"; "industrial"; "nuisance";
      "disturbance"; "music"; "loudspeaker"; "dj"]);
    ("PARK",
     ["park"; "garden"; "playground"; "green"; "tree"; "plantation";
      "grass"; "bench"; "fountain"; "jogging"; "walking"; "recreation";
      "children"; "swing"; "maintenance"]) ].

(** [text.startsWith(keyword)] and [text.includes(keyword)]. *)
Fixpoint startsWith (text keyword : string) : bool :=
  match keyword, text with
  | EmptyString, _ => true
  | String k keyword', String c text' => Ascii.eqb c k && startsWith text' keyword'
  | String _ _, EmptyString => false
  end.

Fixpoint includes (text keyword : string) : bool :=
  startsWith text keyword
  || match text with
     | String _ text' => includes text' keyword
     | EmptyString => false
     end.

Record detection {num : Type} : Type := {
  category : string;
  confidence : num;
  matchedKeywords : list string
}.
Arguments detection : clear implicits.

(** The second loop: the first category with the largest count, if a
    count is above zero. *)
Definition pick_best (results : list (string * list string))
    : string * nat * list string :=
  foldl (fun best result =>
           let '(bestCategory, maxCount, matchedKeywords) := best in
           if (maxCount <? length result.2)%nat
           then (result.1, length result.2, result.2)
           else best)
        ("OTHER", 0, []) results.

Definition detectCategory {num : Type} {N : Number num} (text : string)
    : detection num :=
  if negb (nonempty text)
  then {| category := "OTHER"; confidence := lit 0; matchedKeywords := [] |}
  else
    let lowerText := toLowerCase text in
    let results :=
      (fun entry => (entry.1, List.filter (includes lowerText) entry.2))
        <$> CATEGORY_KEYWORDS in
    let '(bestCategory, maxCount, matchedKeywords) := pick_best results in
    let confidence := min (div (of_nat maxCount) (lit 3)) (lit 1) in
    {| category := bestCategory;
       confidence := div (round (mul confidence (lit 100))) (lit 100);
       matchedKeywords := matchedKeywords |}.

End CategoryDetector.

(** * src/batch/batchProcessor.js: the two layers of deduplication *)

Module BatchDedup.
Import Js JsArray Records Embedding AdaptiveThreshold BatchProcessor.

Section Definitions.
Context {num : Type} {N : Number num}.

(** A grievance of the batch as [processBatch] builds it: the properties of
    [grievance], and those that only the deduplication reads. *)
Record submission : Type := {
  pdfId : option nat;
  category : option string;
  area : option string;
  properties : grievance num
}.

(** An element of [existingEmbeddings]. *)
Record stored_grievance : Type := {
  stored_id : Z;
  stored_text : string;
  stored_embedding : list num;
  stored_category : option string;
  stored_area : option string
}.

(** An element of [comparisonPool]. *)
Record pool_item : Type := {
  pool_id : match_ref;
  pool_text : string;
  pool_embedding : list num;
  pool_category : option string;
  pool_area : option string
}.

(** An element of the array [topKSimilaritySearch] returns: [{id, ...similarity}]. *)
Record scored_match : Type := {
  match_id : match_ref;
  match_similarity : similarity num
}.

(** [a > b]. *)
Definition greater (a b : num) : bool := leb b a && negb (eqb a b).

Definition as_subject (g : submission) : subject num :=
  {| embedding1 := embedding (properties g);
     processedText1 := processedText (properties g);
     category1 := category g |}.

(** A grievance of the batch as the second argument of the kernel: it has
    no property [text] and no property [metadata]. *)
Definition as_candidate (g : submission) : candidate num :=
  {| embedding2 := embedding (properties g);
     processedText2 := Some (processedText (properties g));
     text2 := None;
     category2 := category g;
     metadataCategory2 := None |}.

(** The object literal [topKSimilaritySearch] passes to the kernel:
    [{processedText: existing.text, embedding: existing.embedding,
    metadata: existing.metadata}], for a pool item, which has no [metadata]. *)
Definition pool_candidate (existing : pool_item) : candidate num :=
  {| embedding2 := pool_embedding existing;
     processedText2 := Some (pool_text existing);
     text2 := None;
     category2 := None;
     metadataCategory2 := None |}.

(** [(a, b) => b.combinedScore - a.combinedScore]. *)
Definition by_combined_score (a b : scored_match) : num :=
  sub (combinedScore (match_similarity b)) (combinedScore (match_similarity a)).

Definition topKSimilaritySearch (grievance : submission) (pool : list pool_item)
    (k : nat) (thresholds : gmap string num) : outcome (list scored_match) :=
  and_then
    (for_each (fun existing =>
                 and_then (computeContextualSimilarity (as_subject grievance)
                             (pool_candidate existing) thresholds)
                   (fun similarity =>
                      Returned {| match_id := pool_id existing;
                                  match_similarity := similarity |}))
              pool)
    (fun matches => Returned (take k (sort_with by_combined_score matches))).

(** [g.pdfId || 'unknown']: [None] is the key ['unknown']. *)
Definition pdf_key (g : submission) : option nat :=
  match pdfId g with
  | Some (S n) => Some (S n)
  | _ => None
  end.

(** [groupByPDF], as [Object.entries] lists it: the groups of the numeric
    keys in ascending order, then the group ['unknown'].  The members keep
    their index in the batch. *)
Definition members_with_key (key : option nat) (grievances : list submission)
    : list (nat * submission) :=
  List.filter (fun ig => bool_decide (pdf_key ig.2 = key)) (imap pair grievances).

Definition groupByPDF (grievances : list submission)
    : list (option nat * list (nat * submission)) :=
  let keys := set_of (pdf_key <$> grievances) in
  let numeric := sort_by (fun n => n) (omap (fun key => key) keys) in
  let ordered := (Some <$> numeric) ++ List.filter (fun k => bool_decide (k = None)) keys in
  (fun key => (key, members_with_key key grievances)) <$> ordered.

Inductive local_status : Type :=
  LOCAL_UNIQUE | LOCAL_NEAR_DUPLICATE | LOCAL_DUPLICATE.

Record local_result : Type := {
  localStatus : local_status;
  bestLocalScore : num;
  localDuplicateOf : option nat
}.

(** The loop over [j < i]: the best match so far and its score. *)
Fixpoint best_local (current : submission) (others : list (nat * submission))
    (thresholds : gmap string num) (bestLocalMatch : option nat) (bestLocalScore : num)
    : outcome (option nat * num) :=
  match others with
  | [] => Returned (bestLocalMatch, bestLocalScore)
  | (j, other) :: others' =>
      and_then (computeContextualSimilarity (as_subject current) (as_candidate other)
                  thresholds)
        (fun similarity =>
           if greater (combinedScore similarity) bestLocalScore
           then best_local current others' thresholds (Some j) (combinedScore similarity)
           else best_local current others' thresholds bestLocalMatch bestLocalScore)
  end.

Definition classify_local (best : option nat * num) (thresholds : gmap string num)
    : local_result :=
  let '(bestLocalMatch, bestLocalScore) := best in
  match bestLocalMatch with
  | Some j =>
      if at_least bestLocalScore (thresholds !! "duplicate")
      then {| localStatus := LOCAL_DUPLICATE; bestLocalScore := bestLocalScore;
              localDuplicateOf := Some j |}
      else if at_least bestLocalScore (thresholds !! "near_duplicate")
      then {| localStatus := LOCAL_NEAR_DUPLICATE; bestLocalScore := bestLocalScore;
              localDuplicateOf := Some j |}
      else {| localStatus := LOCAL_UNIQUE; bestLocalScore := bestLocalScore;
              localDuplicateOf := None |}
  | None => {| localStatus := LOCAL_UNIQUE; bestLocalScore := bestLocalScore;
               localDuplicateOf := None |}
  end.

(** Layer 1 on one PDF: every member against the members before it. *)
Fixpoint local_pass (earlier rest : list (nat * submission))
    (thresholds : gmap string num) : outcome (list (nat * local_result)) :=
  match rest with
  | [] => Returned []
  | (i, current) :: rest' =>
      and_then (best_local current earlier thresholds None (lit 0)) (fun best =>
      and_then (local_pass (earlier ++ [(i, current)]) rest' thresholds) (fun results =>
      Returned ((i, classify_local best thresholds) :: results)))
  end.

(** The local result of the grievance with index [i]. *)
Fixpoint local_of (locals : list (nat * local_result)) (i : nat) : option local_result :=
  match locals with
  | [] => None
  | (j, l) :: locals' => if (j =? i)%nat then Some l else local_of locals' i
  end.

(** [!s]: a string that is missing or empty. *)
Definition falsy (s : option string) : bool :=
  match s with
  | Some w => negb (nonempty w)
  | None => true
  end.

(** [a === b] for two strings that are present. *)
Definition same_string (a b : option string) : bool :=
  match a, b with
  | Some x, Some y => String.eqb x y
  | _, _ => false
  end.

Definition same_lower (a b : option string) : bool :=
  match a, b with
  | Some x, Some y => String.eqb (toLowerCase x) (toLowerCase y)
  | _, _ => false
  end.

(** [s || null]. *)
Definition or_null (s : option string) : option string :=
  if falsy s then None else s.

Definition existing_item (e : stored_grievance) : pool_item :=
  {| pool_id := Persisted (stored_id e);
     pool_text := stored_text e;
     pool_embedding := stored_embedding e;
     pool_category := or_null (stored_category e);
     pool_area := or_null (stored_area e) |}.

(** The entry pushed to [processedInBatch], as the pool lists it. *)
Definition batch_item (i : nat) (g : submission) : pool_item :=
  {| pool_id := Pending i;
     pool_text := processedText (properties g);
     pool_embedding := embedding (properties g);
     pool_category := category g;
     pool_area := area g |}.

(** The two filters: each is applied only when it leaves something. *)
Definition search_pool (grievance : submission) (comparisonPool : list pool_item)
    : list pool_item :=
  let filteredPool := comparisonPool in
  let filteredPool :=
    if negb (falsy (category grievance))
       && negb (same_string (category grievance) (Some "OTHER"))
    then
      let categoryFiltered :=
        List.filter (fun item => falsy (pool_category item)
                                 || same_string (pool_category item) (category grievance))
                    comparisonPool in
      if (0 <? length categoryFiltered)%nat then categoryFiltered else filteredPool
    else filteredPool in
  let filteredPool :=
    if negb (falsy (area grievance))
    then
      let areaFiltered :=
        List.filter (fun item => falsy (pool_area item)
                                 || same_lower (pool_area item) (area grievance))
                    filteredPool in
      if (0 <? length areaFiltered)%nat then areaFiltered else filteredPool
    else filteredPool in
  if (0 <? length filteredPool)%nat then filteredPool else comparisonPool.

(** The grievance after layer 2.  A property that a branch does not
    assign keeps the value it had on the object. *)
Definition with_result (g : submission) (final : status) (globalScore' : num)
    (l : option local_result) (matched : option match_ref) : grievance num :=
  let p := properties g in
  {| pdfName := pdfName p; pageNumber := pageNumber p;
     processedText := processedText p; embedding := embedding p;
     finalStatus := final;
     globalScore := Some globalScore';
     localScore := match l with Some l => Some (bestLocalScore l) | None => localScore p end;
     globalMatchId := match matched with Some m => Some m | None => globalMatchId p end;
     clusterId := clusterId p; clusterSize := clusterSize p;
     clusteredWith := clusteredWith p; clusterBasedMatch := clusterBasedMatch p |}.

(** The classification of one grievance in layer 2. *)
Definition classify_global (g : submission) (l : option local_result)
    (topMatches : list scored_match) (thresholds : gmap string num) : grievance num :=
  match topMatches with
  | top :: _ =>
      let topScore := combinedScore (match_similarity top) in
      if at_least topScore (thresholds !! "duplicate")
      then with_result g DUPLICATE topScore l (Some (match_id top))
      else if at_least topScore (thresholds !! "near_duplicate")
      then with_result g NEAR_DUPLICATE topScore l (Some (match_id top))
      else with_result g UNIQUE (or_else topScore (lit 0)) l None
  | [] => with_result g UNIQUE (lit 0) l None
  end.

(** [grievance.localStatus === 'LOCAL_DUPLICATE']. *)
Definition is_local_duplicate (l : option local_result) : option local_result :=
  match l with
  | Some r => match localStatus r with LOCAL_DUPLICATE => Some r | _ => None end
  | None => None
  end.

(** Layer 2: the grievances in order, with the pool [processedInBatch] of
    those already handled. *)
Fixpoint global_pass (rest : list (nat * submission))
    (locals : list (nat * local_result)) (existing : list pool_item)
    (processedInBatch : list pool_item) (thresholds : gmap string num)
    : outcome (list (grievance num)) :=
  match rest with
  | [] => Returned []
  | (i, g) :: rest' =>
      let l := local_of locals i in
      match is_local_duplicate l with
      | Some r =>
          and_then (global_pass rest' locals existing
                      (processedInBatch ++ [batch_item i g]) thresholds)
            (fun results =>
               Returned (with_result g DUPLICATE (bestLocalScore r) l None :: results))
      | None =>
          let comparisonPool := existing ++ processedInBatch in
          and_then (topKSimilaritySearch g (search_pool g comparisonPool) 10 thresholds)
            (fun topMatches =>
          and_then (global_pass rest' locals existing
                      (processedInBatch ++ [batch_item i g]) thresholds)
            (fun results =>
               Returned (classify_global g l topMatches thresholds :: results)))
      end
  end.

Definition hierarchicalDeduplication (grievances : list submission)
    (existingEmbeddings : list stored_grievance) (thresholds : gmap string num)
    : outcome (list (grievance num)) :=
  and_then (for_each (fun group => local_pass [] group.2 thresholds)
                     (groupByPDF grievances))
    (fun locals =>
       global_pass (imap pair grievances) (concat locals)
                   (existing_item <$> existingEmbeddings) [] thresholds).

(** [calculateBatchStats]. *)
Record batch_stats : Type := {
  unique : nat;
  duplicate : nat;
  nearDuplicate : nat
}.

Definition count_status (s : status) (results : list (saved_result num)) : nat :=
  length (List.filter (fun r => bool_decide (saved_status r = s)) results).

Definition calculateBatchStats (results : list (saved_result num)) : batch_stats :=
  {| unique := count_status UNIQUE results;
     duplicate := count_status DUPLICATE results;
     nearDuplicate := count_status NEAR_DUPLICATE results |}.

End Definitions.

Arguments submission : clear implicits.
Arguments stored_grievance : clear implicits.
Arguments pool_item : clear implicits.
Arguments scored_match : clear implicits.
Arguments local_result : clear implicits.

End BatchDedup.

(** * Properties of the adaptive thresholds *)

Module AdaptiveThresholdFacts.
Import AdaptiveThreshold.

(** ** Facts that hold in every arithmetic *)

Section Facts.
Context {num : Type} {N : Number num}.

Lemma foldl_insert_notin (l : list (string * num)) (m : gmap string num) (k : string) :
  k ∉ l.*1 ->
  foldl (fun thresholds row => <[row.1 := row.2]> thresholds) m l !! k = m !! k.
Proof.
  revert m. induction l as [|[k' v'] l IH]; intros m Hk; [done|].
  cbn in *. apply not_elem_of_cons in Hk as [Hne Hk].
  rewrite IH by done. by rewrite lookup_insert_ne.
Qed.

Lemma foldl_insert_in (l : list (string * num)) (m : gmap string num) (k : string) (v : num) :
  NoDup l.*1 -> (k, v) ∈ l ->
  foldl (fun thresholds row => <[row.1 := row.2]> thresholds) m l !! k = Some v.
Proof.
  revert m. induction l as [|[k' v'] l IH]; intros m Hnd Hin.
  - by apply elem_of_nil in Hin.
  - cbn in *. apply NoDup_cons in Hnd as [Hk' Hnd].
    apply elem_of_cons in Hin as [Heq|Hin].
    + injection Heq as -> ->. rewrite foldl_insert_notin by done.
      apply lookup_insert_eq.
    + by apply IH.
Qed.

Lemma select_current_keys (t : gmap string (threshold_row num)) :
  (select_current t).*1 = (map_to_list t).*1.
Proof.
  unfold select_current. rewrite <- list_fmap_compose.
  apply list_fmap_ext. by intros ? [??].
Qed.

(** The read path, row by row: a row that is present overrides its kind,
    any other kind keeps the value of the literal. *)
Lemma getAdaptiveThresholds_lookup (t : gmap string (threshold_row num)) (k : string) :
  getAdaptiveThresholds (Returned t) !! k =
  match t !! k with
  | Some r => Some (current_value r)
  | None => thresholds_init !! k
  end.
Proof.
  cbn. destruct (t !! k) as [r|] eqn:Hk.
  - apply foldl_insert_in.
    + rewrite select_current_keys. apply NoDup_fst_map_to_list.
    + unfold select_current. apply list_elem_of_fmap.
      exists (k, r). split; [done|]. by apply elem_of_map_to_list.
  - apply foldl_insert_notin. rewrite select_current_keys.
    intros Hin. apply list_elem_of_fmap in Hin as [[k' r] [-> Hin]].
    apply elem_of_map_to_list in Hin. cbn in Hk. congruence.
Qed.

Lemma stored_row (t : gmap string (threshold_row num)) (k : string) (r : threshold_row num) :
  t !! k = Some r -> stored k t = Some (current_value r).
Proof. intros Hk. unfold stored. by rewrite getAdaptiveThresholds_lookup, Hk. Qed.

(** Both adjustable kinds are always present in the object that was read. *)
Lemma getAdaptiveThresholds_keys (db : database num) (f : feedback) (k : string) (adj : num) :
  pick_adjustment f = Some (k, adj) -> is_Some (getAdaptiveThresholds db !! k).
Proof.
  intros Hp.
  assert (k = "duplicate" \/ k = "near_duplicate") as Hk.
  { unfold pick_adjustment in Hp.
    repeat (destruct (_ && _) in Hp; [injection Hp as <- _; auto|]). done. }
  destruct db as [t|e].
  - rewrite getAdaptiveThresholds_lookup. destruct (t !! k); [done|].
    destruct Hk as [-> | ->]; by eexists.
  - destruct Hk as [-> | ->]; by eexists.
Qed.

(** The value the update writes: the adjusted value clamped to the bounds
    of its row, with 0.3 and 0.95 standing in for a bound that is null or
    zero. *)
Definition clamped (r : threshold_row num) (adj : num) : num :=
  max (opt_or_else (min_value r) (lit 0.3))
      (min (opt_or_else (max_value r) (lit 0.95)) (add (current_value r) adj)).

Lemma table_after_adjusts (f : feedback) (t : gmap string (threshold_row num))
    (k : string) (adj : num) (r : threshold_row num) :
  pick_adjustment f = Some (k, adj) -> t !! k = Some r ->
  table_after f t = update_current k (clamped r adj) t.
Proof.
  intros Hp Hk. unfold table_after, updateThresholdsFromFeedback.
  rewrite Hp, getAdaptiveThresholds_lookup, Hk. cbn. done.
Qed.

Lemma table_after_no_row (f : feedback) (t : gmap string (threshold_row num))
    (k : string) (adj : num) :
  pick_adjustment f = Some (k, adj) -> t !! k = None -> table_after f t = t.
Proof.
  intros Hp Hk. unfold table_after, updateThresholdsFromFeedback. rewrite Hp.
  destruct (getAdaptiveThresholds_keys (Returned t) f k adj Hp) as [v ->].
  rewrite Hk. cbn. unfold update_current. apply map_eq. intros i.
  destruct (decide (k = i)) as [<-|Hne].
  - by rewrite lookup_alter_eq, Hk.
  - by rewrite lookup_alter_ne.
Qed.

Lemma table_after_no_transition (f : feedback) (t : gmap string (threshold_row num)) :
  pick_adjustment f = None -> table_after f t = t.
Proof.
  intros Hp. unfold table_after, updateThresholdsFromFeedback. by rewrite Hp.
Qed.

Lemma seed_table_rows :
  seed_table (num := num) !! "duplicate" = Some (seed_row 0.85 0.75 0.95)
  /\ seed_table (num := num) !! "near_duplicate" = Some (seed_row 0.65 0.50 0.80).
Proof. split; reflexivity. Qed.

Lemma update_current_lookup (k : string) (v : num) (t : gmap string (threshold_row num))
    (r : threshold_row num) :
  t !! k = Some r ->
  update_current k v t !! k =
  Some {| current_value := v; min_value := min_value r; max_value := max_value r;
          adjustment_count := S (adjustment_count r) |}.
Proof. intros Hk. unfold update_current. by rewrite lookup_alter_eq, Hk. Qed.

Lemma update_current_other (k k' : string) (v : num) (t : gmap string (threshold_row num)) :
  k <> k' -> update_current k v t !! k' = t !! k'.
Proof. intros Hne. unfold update_current. by rewrite lookup_alter_ne. Qed.

End Facts.

(** C10. With [near_duplicate] equal to [duplicate] the classifier answers
    DUPLICATE when the score reaches the threshold and UNIQUE otherwise;
    it never answers NEAR_DUPLICATE.  This holds in every arithmetic, the
    machine's included. *)
Theorem equal_thresholds_never_near_duplicate {num : Type} {N : Number num}
    (score d : num) (thresholds : gmap string num) :
  thresholds !! "duplicate" = Some d ->
  thresholds !! "near_duplicate" = Some d ->
  classifyWithAdaptiveThresholds score thresholds
    = (if geb score d then DUPLICATE else UNIQUE)
  /\ classifyWithAdaptiveThresholds score thresholds <> NEAR_DUPLICATE.
Proof.
  intros Hd Hn. unfold classifyWithAdaptiveThresholds. rewrite Hd, Hn. cbn.
  destruct (geb score d); split; congruence.
Qed.

Lemma equal_thresholds_witness :
  thresholds_init (num := float) !! "duplicate" = Some (lit 0.60)
  /\ thresholds_init (num := float) !! "near_duplicate" = Some (lit 0.60)
  /\ classifyWithAdaptiveThresholds (lit 0.59 : float) thresholds_init <> NEAR_DUPLICATE.
Proof.
  split; [reflexivity|]. split; [reflexivity|].
  apply (equal_thresholds_never_near_duplicate (lit 0.59 : float) (lit 0.60) thresholds_init);
    reflexivity.
Defined.

(** Both literals of [getAdaptiveThresholds] have the two thresholds equal. *)
Lemma built_in_thresholds_are_equal {num : Type} {N : Number num} :
  thresholds_init (num := num) !! "near_duplicate" = thresholds_init !! "duplicate"
  /\ thresholds_on_error (num := num) !! "near_duplicate" = thresholds_on_error !! "duplicate".
Proof. split; reflexivity. Qed.

(** The read path on a database that answers: an empty table gives the
    literal of the [try] branch, and a row overrides exactly its own kind. *)
Theorem read_path_defaults_and_overrides {num : Type} {N : Number num}
    (t : gmap string (threshold_row num)) (k : string) :
  getAdaptiveThresholds (num := num) (Returned ∅) = thresholds_init
  /\ getAdaptiveThresholds (Returned t) !! k =
     match t !! k with
     | Some r => Some (current_value r)
     | None => thresholds_init !! k
     end.
Proof. split; [reflexivity | apply getAdaptiveThresholds_lookup]. Qed.

(** ** Facts of exact arithmetic *)

Section RealFacts.
Local Open Scope R_scope.

Ltac real_arith :=
  cbv [lit opp add sub max min real_number Q2R Qnum Qden LEARNING_RATE] in *;
  unfold Rmax, Rmin in *; repeat destruct (Rle_dec _ _); lra.

Lemma real_opt_or_else (x d : R) : x <> 0 -> opt_or_else (Some x) d = x.
Proof.
  intros Hx. cbn. unfold or_else. cbn. by rewrite bool_decide_eq_true_2.
Qed.

(** A literal other than zero is truthy. *)
Lemma real_lit_or_else (q : Q) (d : R) :
  (Qnum q <> 0)%Z -> opt_or_else (Some (lit q : R)) d = lit q.
Proof.
  intros Hq. apply real_opt_or_else. cbn.
  unfold Q2R. intros H0. apply Rmult_integral in H0 as [H0|H0].
  - by apply eq_IZR_R0 in H0.
  - revert H0. apply Rinv_neq_0_compat. by apply not_0_IZR.
Qed.

(** [stored || d] in exact arithmetic: the stored number, or [d] when it is
    missing, null or 0. *)
Definition or_default (stored : option R) (d : R) : R :=
  match stored with
  | Some v => if Req_dec_T v 0 then d else v
  | None => d
  end.

Lemma real_or_default (stored : option R) (d : R) :
  opt_or_else stored d = or_default stored d.
Proof.
  unfold or_default. destruct stored as [v|]; [|done].
  cbn. unfold or_else. cbn. destruct (Req_dec_T v 0) as [->|Hv].
  - by rewrite bool_decide_eq_false_2 by tauto.
  - by rewrite bool_decide_eq_true_2.
Qed.

(** C2. When the read fails the function answers with the literal of its
    [catch] branch, whose two thresholds are 0.50 and not the 0.60 of the
    [try] branch. *)
Theorem read_failure_answers_one_half (error : string) :
  getAdaptiveThresholds (num := R) (Thrown error) !! "duplicate" = Some 0.5
  /\ getAdaptiveThresholds (num := R) (Thrown error) !! "near_duplicate" = Some 0.5
  /\ getAdaptiveThresholds (num := R) (Thrown error) <> thresholds_init.
Proof.
  assert (Q2R 0.50 = 0.5) as Hhalf by (unfold Q2R; cbn; lra).
  cbn. repeat split.
  - rewrite <- Hhalf. reflexivity.
  - rewrite <- Hhalf. reflexivity.
  - intros Heq. apply (f_equal (fun m => m !! "duplicate")) in Heq.
    assert (Q2R 0.50 = Q2R 0.60) as Hq by (injection Heq; done).
    unfold Q2R in Hq; cbn in Hq; lra.
Qed.

Definition unique_to_duplicate : feedback :=
  {| originalStatus := "UNIQUE"; correctedStatus := "DUPLICATE" |}.

Definition near_duplicate_to_unique : feedback :=
  {| originalStatus := "NEAR_DUPLICATE"; correctedStatus := "UNIQUE" |}.

(** One feedback event on a row whose bounds are present and not zero. *)
Lemma table_after_row (f : feedback) (k : string) (adj : R)
    (t : gmap string (threshold_row R)) (cur lo hi : R) (c : nat) :
  pick_adjustment f = Some (k, adj) ->
  t !! k = Some {| current_value := cur; min_value := Some lo;
                   max_value := Some hi; adjustment_count := c |} ->
  lo <> 0 -> hi <> 0 ->
  table_after f t !! k =
  Some {| current_value := Rmax lo (Rmin hi (cur + adj)); min_value := Some lo;
          max_value := Some hi; adjustment_count := S c |}.
Proof.
  intros Hp Hk Hlo Hhi.
  rewrite (table_after_adjusts f t k adj _ Hp Hk).
  rewrite (update_current_lookup _ _ _ _ Hk). unfold clamped. cbn [min_value max_value current_value].
  by rewrite !real_opt_or_else.
Qed.

Lemma table_after_frame (f : feedback) (k k' : string) (adj : R)
    (t : gmap string (threshold_row R)) :
  pick_adjustment f = Some (k, adj) -> k <> k' ->
  table_after f t !! k' = t !! k'.
Proof.
  intros Hp Hne. destruct (t !! k) as [r|] eqn:Hk.
  - rewrite (table_after_adjusts f t k adj r Hp Hk). by apply update_current_other.
  - by rewrite (table_after_no_row f t k adj Hp Hk).
Qed.

(** What a batch reads after one feedback event. *)
Lemma stored_after (f : feedback) (t : gmap string (threshold_row R)) (k' : string) :
  stored k' (table_after f t) =
  match pick_adjustment f with
  | Some (k, adj) =>
      if decide (k = k')
      then match t !! k with
           | Some r => Some (clamped r adj)
           | None => thresholds_init !! k'
           end
      else stored k' t
  | None => stored k' t
  end.
Proof.
  destruct (pick_adjustment (num := R) f) as [[k adj]|] eqn:Hp.
  - destruct (t !! k) as [r|] eqn:Hk.
    + rewrite (table_after_adjusts f t k adj r Hp Hk). unfold stored.
      rewrite !getAdaptiveThresholds_lookup. case_decide as Hkk.
      * subst k'. by rewrite (update_current_lookup _ _ _ _ Hk).
      * by rewrite update_current_other.
    + rewrite (table_after_no_row f t k adj Hp Hk). case_decide as Hkk; [|done].
      subst k'. unfold stored. by rewrite getAdaptiveThresholds_lookup, Hk.
  - by rewrite table_after_no_transition.
Qed.

Lemma pick_adjustment_kind (f : feedback) (k : string) (adj : R) :
  pick_adjustment f = Some (k, adj) ->
  (k = "duplicate" \/ k = "near_duplicate")
  /\ (adj = LEARNING_RATE \/ adj = opp LEARNING_RATE).
Proof.
  unfold pick_adjustment. intros Hp.
  repeat (destruct (_ && _) in Hp; [injection Hp as <- <-; auto|]). done.
Qed.

(** *** The ordering of the two thresholds *)

(** [near_duplicate <= duplicate], on the values a batch would read. *)
Definition ordered (t : gmap string (threshold_row R)) : Prop :=
  match stored "near_duplicate" t, stored "duplicate" t with
  | Some n, Some d => n <= d
  | _, _ => False
  end.

(** The value of a kind lies within the bounds the update clamps it to:
    [min_value] and [max_value] of its row, with 0.3 standing in for a
    [min_value] that is null or 0, and 0.95 for a [max_value] that is null
    or 0 ([bounds?.min_value || 0.3], [bounds?.max_value || 0.95]). *)
Definition in_bounds (k : string) (t : gmap string (threshold_row R)) : Prop :=
  forall r, t !! k = Some r ->
    opt_or_else (min_value r) (lit 0.3) <= current_value r
      <= opt_or_else (max_value r) (lit 0.95).

(** The feedback raises [duplicate], lowers [near_duplicate], or is no
    transition of the table. *)
Definition raises_duplicate_or_lowers_near (f : feedback) : Prop :=
  pick_adjustment (num := R) f = None
  \/ pick_adjustment (num := R) f = Some ("duplicate", LEARNING_RATE)
  \/ pick_adjustment (num := R) f = Some ("near_duplicate", opp LEARNING_RATE).

Lemma clamped_in_bounds (r : threshold_row R) (adj : R) :
  opt_or_else (min_value r) (lit 0.3) <= opt_or_else (max_value r) (lit 0.95) ->
  opt_or_else (min_value r) (lit 0.3) <= clamped r adj
    <= opt_or_else (max_value r) (lit 0.95).
Proof.
  unfold clamped. generalize (opt_or_else (min_value r) (lit 0.3)).
  generalize (opt_or_else (max_value r) (lit 0.95)). intros hi lo Hle.
  cbn [max min add real_number]. unfold Rmax, Rmin.
  repeat destruct (Rle_dec _ _); lra.
Qed.

Lemma in_bounds_after (f : feedback) (t : gmap string (threshold_row R)) (k' : string) :
  in_bounds k' t -> in_bounds k' (table_after f t).
Proof.
  intros Hb. destruct (pick_adjustment (num := R) f) as [[k adj]|] eqn:Hp.
  - destruct (t !! k) as [r|] eqn:Hk.
    + rewrite (table_after_adjusts f t k adj r Hp Hk). intros r'.
      destruct (decide (k = k')) as [<-|Hne].
      * rewrite (update_current_lookup _ _ _ _ Hk). intros [= <-]. cbn.
        apply clamped_in_bounds. specialize (Hb r Hk). lra.
      * rewrite update_current_other by done. apply Hb.
    + by rewrite (table_after_no_row f t k adj Hp Hk).
  - by rewrite table_after_no_transition.
Qed.

(** C3, as amended.  From a state in which [near_duplicate <= duplicate] and
    both values lie within the bounds the update clamps them to (those of
    [in_bounds]: the bounds of the row, or 0.3 and 0.95 for a bound that is
    null or 0), a feedback update keeps each value within those bounds, and
    it keeps the ordering when it raises [duplicate], lowers
    [near_duplicate] or adjusts nothing. *)
Theorem ordering_kept_by_outward_updates (f : feedback)
    (t : gmap string (threshold_row R)) :
  ordered t -> in_bounds "duplicate" t -> in_bounds "near_duplicate" t ->
  in_bounds "duplicate" (table_after f t)
  /\ in_bounds "near_duplicate" (table_after f t)
  /\ (raises_duplicate_or_lowers_near f -> ordered (table_after f t)).
Proof.
  intros Ho Hd Hn. split; [by apply in_bounds_after|]. split; [by apply in_bounds_after|].
  intros Hf. unfold ordered in *. rewrite !stored_after.
  destruct Hf as [-> | [-> | ->]]; [done | |].
  - rewrite decide_False by done. rewrite decide_True by done.
    destruct (stored "near_duplicate" t) as [n|]; [|done].
    destruct (t !! "duplicate") as [r|] eqn:Hk;
      [|by unfold stored in Ho; rewrite getAdaptiveThresholds_lookup, Hk in Ho].
    rewrite (stored_row _ _ _ Hk) in Ho. specialize (Hd r Hk).
    revert Hd. unfold clamped.
    generalize (opt_or_else (min_value r) (lit 0.3)).
    generalize (opt_or_else (max_value r) (lit 0.95)). intros hi lo Hb.
    real_arith.
  - rewrite decide_True by done. rewrite decide_False by done.
    destruct (stored "duplicate" t) as [d|]; [|by destruct (stored "near_duplicate" t)].
    destruct (t !! "near_duplicate") as [r|] eqn:Hk;
      [|by unfold stored in Ho; rewrite getAdaptiveThresholds_lookup, Hk in Ho].
    rewrite (stored_row _ _ _ Hk) in Ho. specialize (Hn r Hk).
    revert Hn. unfold clamped.
    generalize (opt_or_else (min_value r) (lit 0.3)).
    generalize (opt_or_else (max_value r) (lit 0.95)). intros hi lo Hb.
    real_arith.
Qed.

Lemma ordering_kept_witness :
  ordered (table_after {| originalStatus := "DUPLICATE"; correctedStatus := "UNIQUE" |}
                       seed_table).
Proof.
  pose proof real_lit_or_else as Hb.
  destruct (ordering_kept_by_outward_updates
              {| originalStatus := "DUPLICATE"; correctedStatus := "UNIQUE" |}
              seed_table) as (_ & _ & Hkeep).
  - unfold ordered, stored. rewrite !getAdaptiveThresholds_lookup.
    rewrite (proj1 seed_table_rows), (proj2 seed_table_rows). cbn.
    unfold Q2R. cbn. lra.
  - intros r. rewrite (proj1 seed_table_rows). intros [= <-].
    cbn [seed_row min_value max_value current_value].
    rewrite !Hb by done. cbn. unfold Q2R. cbn. lra.
  - intros r. rewrite (proj2 seed_table_rows). intros [= <-].
    cbn [seed_row min_value max_value current_value].
    rewrite !Hb by done. cbn. unfold Q2R. cbn. lra.
  - apply Hkeep. right. left. reflexivity.
Defined.

(** A row with the given value and bounds. *)
Definition row_is (t : gmap string (threshold_row R)) (k : string) (v lo hi : R) : Prop :=
  exists r, t !! k = Some r /\ current_value r = v
            /\ min_value r = Some lo /\ max_value r = Some hi.

Lemma row_is_step (f : feedback) (k : string) (adj : R)
    (t : gmap string (threshold_row R)) (v lo hi v' : R) :
  pick_adjustment f = Some (k, adj) -> row_is t k v lo hi ->
  lo <> 0 -> hi <> 0 -> lo <= v' <= hi -> v + adj = v' ->
  row_is (table_after f t) k v' lo hi.
Proof.
  intros Hp ([cur mn mx c] & Hk & Hv & Hlo & Hhi) Hl Hh Hr Hadd.
  cbn in Hv, Hlo, Hhi. subst mn mx cur.
  exists {| current_value := Rmax lo (Rmin hi (v + adj)); min_value := Some lo;
            max_value := Some hi; adjustment_count := S c |}.
  split; [by apply table_after_row|]. cbn. split; [|done].
  unfold Rmax, Rmin. repeat destruct (Rle_dec _ _); lra.
Qed.

Lemma row_is_frame (f : feedback) (k k' : string) (adj : R)
    (t : gmap string (threshold_row R)) (v lo hi : R) :
  pick_adjustment f = Some (k, adj) -> k <> k' -> row_is t k' v lo hi ->
  row_is (table_after f t) k' v lo hi.
Proof.
  intros Hp Hne (r & Hk & Hr). exists r.
  by rewrite (table_after_frame f k k' adj t Hp Hne).
Qed.

Lemma row_is_stored (t : gmap string (threshold_row R)) (k : string) (v lo hi : R) :
  row_is t k v lo hi -> stored k t = Some v.
Proof. intros (r & Hk & <- & _). by apply stored_row. Qed.

(** C3, counterexample.  The seeded table satisfies the ordering; after two
    UNIQUE -> DUPLICATE and three NEAR_DUPLICATE -> UNIQUE corrections the
    table holds [duplicate = 0.75] and [near_duplicate = 0.80]. *)
Lemma ordering_lost_from_seed :
  ordered seed_table
  /\ ~ ordered (foldl (fun t f => table_after f t) seed_table
                  [unique_to_duplicate; unique_to_duplicate;
                   near_duplicate_to_unique; near_duplicate_to_unique;
                   near_duplicate_to_unique]).
Proof.
  assert (row_is seed_table "duplicate" 0.85 0.75 0.95) as Hd0.
  { eexists. split; [apply seed_table_rows|]. cbn. unfold Q2R. cbn.
    repeat split; first [lra | f_equal; lra]. }
  assert (row_is seed_table "near_duplicate" 0.65 0.5 0.8) as Hn0.
  { eexists. split; [apply seed_table_rows|]. cbn. unfold Q2R. cbn.
    repeat split; first [lra | f_equal; lra]. }
  assert (pick_adjustment (num := R) unique_to_duplicate = Some ("duplicate", - (5 * / 100)))
    as Hud by reflexivity.
  assert (pick_adjustment (num := R) near_duplicate_to_unique = Some ("near_duplicate", 5 * / 100))
    as Hnu by reflexivity.
  split.
  - unfold ordered. rewrite (row_is_stored _ _ _ _ _ Hd0), (row_is_stored _ _ _ _ _ Hn0). lra.
  - cbn [foldl].
    set (t1 := table_after unique_to_duplicate seed_table).
    set (t2 := table_after unique_to_duplicate t1).
    set (t3 := table_after near_duplicate_to_unique t2).
    set (t4 := table_after near_duplicate_to_unique t3).
    set (t5 := table_after near_duplicate_to_unique t4).
    assert (row_is t1 "duplicate" 0.8 0.75 0.95) as Hd1
      by (apply (row_is_step _ _ _ _ _ _ _ _ Hud Hd0); lra).
    assert (row_is t2 "duplicate" 0.75 0.75 0.95) as Hd2
      by (apply (row_is_step _ _ _ _ _ _ _ _ Hud Hd1); lra).
    assert (row_is t2 "near_duplicate" 0.65 0.5 0.8) as Hn2.
    { apply (row_is_frame _ _ _ _ _ _ _ _ Hud); [done|].
      by apply (row_is_frame _ _ _ _ _ _ _ _ Hud). }
    assert (row_is t3 "near_duplicate" 0.7 0.5 0.8) as Hn3
      by (apply (row_is_step _ _ _ _ _ _ _ _ Hnu Hn2); lra).
    assert (row_is t4 "near_duplicate" 0.75 0.5 0.8) as Hn4
      by (apply (row_is_step _ _ _ _ _ _ _ _ Hnu Hn3); lra).
    assert (row_is t5 "near_duplicate" 0.8 0.5 0.8) as Hn5
      by (apply (row_is_step _ _ _ _ _ _ _ _ Hnu Hn4); lra).
    assert (row_is t5 "duplicate" 0.75 0.75 0.95) as Hd5.
    { do 3 (apply (row_is_frame _ _ _ _ _ _ _ _ Hnu); [done|]). exact Hd2. }
    unfold ordered. rewrite (row_is_stored _ _ _ _ _ Hd5), (row_is_stored _ _ _ _ _ Hn5). lra.
Qed.

Definition unique_to_near_duplicate : feedback :=
  {| originalStatus := "UNIQUE"; correctedStatus := "NEAR_DUPLICATE" |}.

Definition low_table : gmap string (threshold_row R) :=
  <["near_duplicate" := {| current_value := 0.1; min_value := Some 0;
                            max_value := Some 0.8; adjustment_count := 0 |}]>
  {["duplicate" := {| current_value := 0.2; min_value := Some 0.1;
                      max_value := Some 0.95; adjustment_count := 0 |}]}.

(** A row whose [min_value] is 0 is clamped at 0.3: lowering
    [near_duplicate] from 0.1, within a row with the bounds 0 and 0.8,
    stores 0.3, above a [duplicate] of 0.2.  The bounds that an update
    keeps are those of [in_bounds]. *)
Lemma lowering_can_raise_below_the_default_minimum :
  ordered low_table
  /\ stored "near_duplicate" low_table = Some 0.1
  /\ stored "duplicate" low_table = Some 0.2
  /\ stored "near_duplicate" (table_after unique_to_near_duplicate low_table) = Some 0.3
  /\ stored "duplicate" (table_after unique_to_near_duplicate low_table) = Some 0.2
  /\ ~ ordered (table_after unique_to_near_duplicate low_table).
Proof.
  assert (low_table !! "near_duplicate"
          = Some {| current_value := 0.1; min_value := Some 0;
                    max_value := Some 0.8; adjustment_count := 0 |}) as Hn
    by reflexivity.
  assert (low_table !! "duplicate"
          = Some {| current_value := 0.2; min_value := Some 0.1;
                    max_value := Some 0.95; adjustment_count := 0 |}) as Hd
    by reflexivity.
  assert (pick_adjustment (num := R) unique_to_near_duplicate
          = Some ("near_duplicate", opp LEARNING_RATE)) as Hpick by reflexivity.
  assert (stored "near_duplicate" low_table = Some 0.1) as Hsn by exact (stored_row _ _ _ Hn).
  assert (stored "duplicate" low_table = Some 0.2) as Hsd by exact (stored_row _ _ _ Hd).
  assert (stored "near_duplicate" (table_after unique_to_near_duplicate low_table)
          = Some 0.3) as Hsn'.
  { rewrite stored_after.
    rewrite Hpick.
    rewrite decide_True by done. rewrite Hn. f_equal. unfold clamped.
    cbn [min_value max_value current_value].
    rewrite (real_opt_or_else 0.8) by lra.
    assert (opt_or_else (Some 0) (lit 0.3) = 0.3) as ->.
    { cbn. unfold or_else. cbn. rewrite bool_decide_eq_false_2 by lra.
      unfold Q2R. cbn. lra. }
    real_arith. }
  assert (stored "duplicate" (table_after unique_to_near_duplicate low_table)
          = Some 0.2) as Hsd'.
  { rewrite stored_after.
    rewrite Hpick.
    by rewrite decide_False by done. }
  split; [unfold ordered; rewrite Hsn, Hsd; lra|].
  split; [done|]. split; [done|]. split; [done|]. split; [done|].
  unfold ordered. rewrite Hsn', Hsd'. lra.
Qed.

(** *** Repeated UNIQUE -> DUPLICATE feedback *)

(** The [duplicate] threshold a batch reads after [n] such events. *)
Definition duplicate_after (n : nat) (t : gmap string (threshold_row R)) : option R :=
  stored "duplicate" (Nat.iter n (table_after unique_to_duplicate) t).

(** C7, as amended.  When the [duplicate] row starts within its bounds, and
    the bounds are present and not zero, the values read after 0, 1, 2, ...
    events are [max lo (cur - 0.05 n)]: they never increase, go down by
    0.05 per event as long as that stays above [lo], then stay at [lo], and
    are never below [lo]. *)
Theorem feedback_convergence (t : gmap string (threshold_row R))
    (cur lo hi : R) (c : nat) :
  t !! "duplicate" = Some {| current_value := cur; min_value := Some lo;
                             max_value := Some hi; adjustment_count := c |} ->
  lo <> 0 -> hi <> 0 -> lo <= cur <= hi ->
  exists v : nat -> R,
    (forall n, duplicate_after n t = Some (v n))
    /\ v 0%nat = cur
    /\ (forall n, v (S n) <= v n)
    /\ (forall n, lo <= v n)
    /\ (forall n, lo <= v n - 0.05 -> v (S n) = v n - 0.05)
    /\ (forall n, v n - 0.05 <= lo -> v (S n) = lo)
    /\ (exists n0, forall n, (n0 <= n)%nat -> v n = lo).
Proof.
  intros Hk Hlo Hhi Hb.
  exists (fun n => Rmax lo (cur - 0.05 * INR n)).
  assert (forall n, 0 <= INR n) as Hpos by apply pos_INR.
  repeat split.
  - intros n. unfold duplicate_after.
    assert (exists c', Nat.iter n (table_after unique_to_duplicate) t !! "duplicate"
              = Some {| current_value := Rmax lo (cur - 0.05 * INR n);
                        min_value := Some lo; max_value := Some hi;
                        adjustment_count := c' |}) as [c' Hrow].
    { induction n as [|n [c' IH]].
      - exists c. cbn. rewrite Hk. do 2 f_equal.
        unfold Rmax. destruct (Rle_dec _ _); lra.
      - eexists. rewrite Nat.iter_succ.
        rewrite (table_after_row unique_to_duplicate "duplicate" _ _ _ _ _ _ eq_refl IH Hlo Hhi).
        do 2 f_equal. rewrite S_INR. specialize (Hpos n). real_arith. }
    by rewrite (stored_row _ _ _ Hrow).
  - cbn. unfold Rmax. destruct (Rle_dec _ _); lra.
  - intros n. rewrite S_INR. specialize (Hpos n). real_arith.
  - intros n. apply Rmax_l.
  - intros n. rewrite S_INR. specialize (Hpos n). real_arith.
  - intros n. rewrite S_INR. specialize (Hpos n). real_arith.
  - destruct (archimed (20 * (cur - lo))) as [Hup _].
    assert (0 < up (20 * (cur - lo)))%Z as Hz by (apply lt_IZR; lra).
    exists (Z.to_nat (up (20 * (cur - lo)))). intros n Hn.
    apply le_INR in Hn. rewrite INR_IZR_INZ, Z2Nat.id in Hn by lia.
    real_arith.
Qed.

Lemma feedback_convergence_witness :
  exists v : nat -> R,
    (forall n, duplicate_after n {["duplicate" := seed_row 0.85 0.75 0.95]} = Some (v n))
    /\ v 0%nat = Q2R 0.85
    /\ (forall n, v (S n) <= v n)
    /\ (forall n, Q2R 0.75 <= v n)
    /\ (forall n, Q2R 0.75 <= v n - 0.05 -> v (S n) = v n - 0.05)
    /\ (forall n, v n - 0.05 <= Q2R 0.75 -> v (S n) = Q2R 0.75)
    /\ (exists n0, forall n, (n0 <= n)%nat -> v n = Q2R 0.75).
Proof.
  apply (feedback_convergence {["duplicate" := seed_row 0.85 0.75 0.95]}
           (Q2R 0.85) (Q2R 0.75) (Q2R 0.95) 0).
  - reflexivity.
  - unfold Q2R. cbn. lra.
  - unfold Q2R. cbn. lra.
  - unfold Q2R. cbn. lra.
Defined.

(** C7, counterexample.  The first UNIQUE -> DUPLICATE event raises the
    threshold in two states.  A [duplicate] row that holds the runtime
    default 0.60 with the seeded bounds [0.75, 0.95] goes to 0.75.  A row
    that holds 0.20 within the bounds [0, 0.95] goes to 0.3: a minimum of 0
    is falsy, so the update clamps to 0.3 in its place. *)
Lemma duplicate_threshold_can_rise :
  let below : gmap string (threshold_row R) :=
    {["duplicate" := seed_row 0.60 0.75 0.95]} in
  let zero_minimum : gmap string (threshold_row R) :=
    {["duplicate" := seed_row 0.20 0.00 0.95]} in
  (duplicate_after 0 below = Some 0.6 /\ duplicate_after 1 below = Some 0.75)
  /\ (duplicate_after 0 zero_minimum = Some 0.2
      /\ duplicate_after 1 zero_minimum = Some 0.3).
Proof.
  intros below zero_minimum. unfold duplicate_after.
  change (Nat.iter 0 (table_after unique_to_duplicate) ?t) with t.
  change (Nat.iter 1 (table_after unique_to_duplicate) ?t)
    with (table_after unique_to_duplicate t).
  rewrite !stored_after.
  change (pick_adjustment (num := R) unique_to_duplicate)
    with (Some ("duplicate", opp (LEARNING_RATE (num := R)))).
  cbv iota beta. rewrite !decide_True by done. unfold stored.
  rewrite !getAdaptiveThresholds_lookup. unfold below, zero_minimum.
  rewrite !lookup_singleton_eq. unfold clamped.
  cbn [seed_row current_value min_value max_value opt_or_else].
  assert (or_else (lit 0.00 : R) (lit 0.3) = 0.3) as ->.
  { unfold or_else. cbn [truthy lit real_number].
    rewrite bool_decide_eq_false_2 by (unfold Q2R; cbn; lra).
    unfold Q2R. cbn. lra. }
  change (or_else (lit ?q) ?d) with (opt_or_else (Some (lit q : R)) d).
  rewrite !real_lit_or_else by done.
  repeat split; f_equal; real_arith.
Qed.

End RealFacts.

End AdaptiveThresholdFacts.

(** * Properties of the embedding module *)

Module EmbeddingFacts.
Import Js Embedding.

(** ** Cosine similarity in exact arithmetic *)

Section RealCosine.
Local Open Scope R_scope.

(** The three sums the loop accumulates. *)
Fixpoint dot (v1 v2 : list R) : R :=
  match v1, v2 with
  | x :: v1', y :: v2' => x * y + dot v1' v2'
  | _, _ => 0
  end.

Definition nonzero (v : list R) : Prop := exists x, x ∈ v /\ x <> 0.

Lemma cosine_loop_sums (v1 v2 : list R) (d a b : R) :
  length v1 = length v2 ->
  cosine_loop v1 v2 d a b = (d + dot v1 v2, a + dot v1 v1, b + dot v2 v2).
Proof.
  revert v2 d a b. induction v1 as [|x v1 IH]; intros [|y v2] d a b Hlen;
    try discriminate; cbn.
  - f_equal; [f_equal|]; lra.
  - rewrite IH by (cbn in Hlen; lia). cbn. f_equal; [f_equal|]; lra.
Qed.

Lemma dot_self_nonneg (v : list R) : 0 <= dot v v.
Proof. induction v as [|x v IH]; cbn; [lra|]. nra. Qed.

Lemma dot_self_pos (v : list R) : nonzero v -> 0 < dot v v.
Proof.
  intros (x & Hin & Hx). induction v as [|y v IH]; [by apply elem_of_nil in Hin|].
  cbn. pose proof (dot_self_nonneg v) as Hv.
  apply elem_of_cons in Hin as [<-|Hin].
  - assert (0 < x * x) by nra. lra.
  - specialize (IH Hin). nra.
Qed.

(** The Cauchy-Schwarz inequality for the sums of the loop. *)
Lemma dot_cauchy_schwarz (v1 v2 : list R) :
  length v1 = length v2 -> dot v1 v2 * dot v1 v2 <= dot v1 v1 * dot v2 v2.
Proof.
  revert v2. induction v1 as [|x v1 IH]; intros [|y v2] Hlen; try discriminate; cbn.
  - lra.
  - assert (length v1 = length v2) as Hlen' by (cbn in Hlen; lia).
    specialize (IH v2 Hlen').
    pose proof (dot_self_nonneg v1) as Ha. pose proof (dot_self_nonneg v2) as Hb.
    set (D := dot v1 v2) in *. set (A := dot v1 v1) in *. set (B := dot v2 v2) in *.
    clearbody D A B.
    pose proof (Rle_0_sqr x) as Hx. pose proof (Rle_0_sqr y) as Hy.
    pose proof (Rle_0_sqr (x * y)) as Hxy. unfold Rsqr in Hx, Hy, Hxy.
    assert (2 * D * (x * y) <= A * (y * y) + B * (x * x)) as Hmix.
    { apply Rsqr_incr_0_var.
      - pose proof (Rle_0_sqr (A * (y * y) - B * (x * x))) as Hsq.
        assert (0 <= (A * B - D * D) * ((x * y) * (x * y))) as Hgap
          by (apply Rmult_le_pos; lra).
        unfold Rsqr in *. nra.
      - apply Rplus_le_le_0_compat; apply Rmult_le_pos; lra. }
    nra.
Qed.

Lemma cosine_real (v1 v2 : list R) :
  length v1 = length v2 -> nonzero v1 -> nonzero v2 ->
  cosineSimilarity v1 v2
  = Returned (dot v1 v2 / (R_sqrt.sqrt (dot v1 v1) * R_sqrt.sqrt (dot v2 v2))).
Proof.
  intros Hlen H1 H2. unfold cosineSimilarity.
  rewrite (proj2 (Nat.eqb_eq _ _) Hlen). cbn [negb].
  rewrite cosine_loop_sums by done. cbn [lit sqrt eqb mul div real_number].
  replace (Q2R 0) with 0 by (unfold Q2R; cbn; lra). rewrite !Rplus_0_l.
  apply dot_self_pos, sqrt_lt_R0 in H1, H2.
  rewrite !bool_decide_eq_false_2 by lra. done.
Qed.

Lemma dot_self_zero (v : list R) : ~ nonzero v -> dot v v = 0.
Proof.
  induction v as [|x v IH]; intros Hz; [done|]. cbn [dot].
  assert (x = 0) as ->.
  { destruct (Req_dec x 0) as [Hx|Hx]; [done|]. exfalso. apply Hz.
    exists x. split; [apply list_elem_of_here | done]. }
  rewrite IH; [lra|]. intros (y & Hy & Hne). apply Hz.
  exists y. split; [by apply list_elem_of_further | done].
Qed.

Lemma cosine_real_zero (v1 v2 : list R) :
  length v1 = length v2 -> ~ nonzero v1 \/ ~ nonzero v2 ->
  cosineSimilarity v1 v2 = Returned 0.
Proof.
  intros Hlen Hz. unfold cosineSimilarity.
  rewrite (proj2 (Nat.eqb_eq _ _) Hlen). cbn [negb].
  rewrite cosine_loop_sums by done. cbn [lit sqrt eqb mul div real_number].
  replace (Q2R 0) with 0 by (unfold Q2R; cbn; lra). rewrite !Rplus_0_l.
  destruct Hz as [Hz|Hz]; rewrite (dot_self_zero _ Hz), sqrt_0.
  - by rewrite bool_decide_eq_true_2.
  - rewrite (bool_decide_eq_true_2 (0 = 0)) by done. by rewrite orb_true_r.
Qed.

End RealCosine.

Section Batch.
Context {num : Type} {N : Number num}.

(** A body the retry loop accepts: an array with one element per text
    whose first element is an array of 384 entries, or, for a single text,
    an array whose first element is a number.  Nothing is asked of the
    entries of the first element, nor of the elements after it. *)
Definition accepted_body (texts : list string) (embeddings : json num) : Prop :=
  (exists firstEmb others,
     embeddings = JArray (JArray firstEmb :: others)
     /\ S (length others) = length texts /\ length firstEmb = 384)
  \/ (exists x others,
        embeddings = JArray (JNumber x :: others) /\ length texts = 1).

(** What the loop returns for an accepted body: the body, or the array of
    the body for the single text case. *)
Definition returned_for (embeddings : json num) : json num :=
  match embeddings with
  | JArray (JNumber _ :: _) => JArray [embeddings]
  | _ => embeddings
  end.

(** The replies that make an attempt of the batch path fail: the request
    is rejected, the status is not ok, the body cannot be parsed, or the
    body is not an accepted one. *)
Definition attempt_fails (texts : list string) (reply : outcome (response num)) : Prop :=
  match reply with
  | Thrown _ => True
  | Returned resp =>
      ok resp = false
      \/ match body resp with
         | Thrown _ => True
         | Returned embeddings => ~ accepted_body texts embeddings
         end
  end.

Lemma batch_shape_spec (texts : list string) (embeddings : json num) :
  batch_shape texts embeddings = true
  <-> exists firstEmb others,
        embeddings = JArray (JArray firstEmb :: others)
        /\ S (length others) = length texts /\ length firstEmb = 384.
Proof.
  unfold batch_shape. split.
  - destruct embeddings as [| | | |items|]; try done.
    intros [Hlen Hfirst]%andb_true_iff. destruct items as [|[| | | |firstEmb|] others];
      try done.
    exists firstEmb, others. apply Nat.eqb_eq in Hlen, Hfirst. done.
  - intros (firstEmb & others & -> & Hlen & Hfirst).
    apply andb_true_iff. split; apply Nat.eqb_eq; [exact Hlen | exact Hfirst].
Qed.

Lemma single_shape_spec (texts : list string) (embeddings : json num) :
  single_shape texts embeddings = true
  <-> exists x others, embeddings = JArray (JNumber x :: others) /\ length texts = 1.
Proof.
  unfold single_shape. split.
  - destruct embeddings as [| | | |[|[| |x| | |] others]|]; try done.
    intros Hone%Nat.eqb_eq. by exists x, others.
  - intros (x & others & -> & Hone). by apply Nat.eqb_eq.
Qed.

Lemma hf_attempt_spec (texts : list string) (reply : outcome (response num)) :
  (attempt_fails texts reply <-> hf_attempt texts reply = None)
  /\ forall embeddings,
       hf_attempt texts reply = Some embeddings ->
       exists resp accepted,
         reply = Returned resp /\ ok resp = true /\ body resp = Returned accepted
         /\ accepted_body texts accepted /\ embeddings = returned_for accepted.
Proof.
  unfold attempt_fails, hf_attempt, accepted_body.
  destruct reply as [[o st b]|]; cbn [ok body]; [|by split].
  destruct o; cbn [negb]; [|split; [split; auto | done]].
  destruct b as [accepted|]; [|split; [split; auto | done]].
  pose proof (batch_shape_spec texts accepted) as Hbatch.
  pose proof (single_shape_spec texts accepted) as Hsingle.
  destruct (batch_shape texts accepted) eqn:Hb.
  - split.
    + split; [|done]. intros [?|Hno]; [done|]. exfalso. apply Hno. left. by apply Hbatch.
    + intros embeddings [= <-]. eexists _, accepted.
      split; [done|]. split; [done|]. split; [done|].
      split; [left; by apply Hbatch|].
      destruct (proj1 Hbatch eq_refl) as (firstEmb & others & -> & _). done.
  - destruct (single_shape texts accepted) eqn:Hs.
    + split.
      * split; [|done]. intros [?|Hno]; [done|]. exfalso. apply Hno. right.
        by apply Hsingle.
      * intros embeddings [= <-]. eexists _, accepted.
        split; [done|]. split; [done|]. split; [done|].
        split; [right; by apply Hsingle|].
        destruct (proj1 Hsingle eq_refl) as (x & others & -> & _). done.
    + split; [|done]. split; [done|]. intros _. right.
      intros [Hyes|Hyes]; [apply Hbatch in Hyes | apply Hsingle in Hyes]; done.
Qed.

(** The custom server answers with a body that the function returns: a
    server is configured, its reply is ok, and its body is an array with
    one element per text whose first element is an array of 384 entries. *)
Definition custom_accepts (texts : list string) (custom : option (outcome (response num)))
    (embeddings : json num) : Prop :=
  exists resp firstEmb others,
    custom = Some (Returned resp) /\ ok resp = true
    /\ body resp = Returned embeddings
    /\ embeddings = JArray (JArray firstEmb :: others)
    /\ S (length others) = length texts /\ length firstEmb = 384.

Lemma custom_attempt_spec (texts : list string) (custom : option (outcome (response num)))
    (embeddings : json num) :
  custom ≫= custom_attempt texts = Some embeddings <-> custom_accepts texts custom embeddings.
Proof.
  unfold custom_accepts. split.
  - destruct custom as [[[o st b]|]|]; cbn; try done.
    destruct o; [|done]. destruct b as [e|]; [|done].
    destruct (batch_shape texts e) eqn:Hshape; [|done]. intros [= <-].
    apply batch_shape_spec in Hshape as (firstEmb & others & -> & Hlen & Hfirst).
    by eexists _, firstEmb, others.
  - intros (resp & firstEmb & others & -> & Hok & Hbody & -> & Hlen & Hfirst).
    cbn. rewrite Hok, Hbody.
    by rewrite (proj2 (batch_shape_spec texts _)) by (by exists firstEmb, others).
Qed.

(** The batch path, for a call with texts.  When the custom server
    answers with an accepted body, the call returns that body.  When it
    does not (none is configured, the request fails, the status is not ok,
    or the body is not accepted), the call throws exactly when each of the
    three attempts at the fallback service fails; otherwise it returns what
    the first attempt that does not fail answered, as it is (or wrapped in
    an array, for the single text case).  It never makes up a vector; and
    as the test of a body looks at its length and at its first element
    only, a body whose later elements are no vectors is returned like any
    other. *)
Theorem batch_path_throws_when_all_attempts_fail
    (texts : list string) (custom : option (outcome (response num)))
    (hf : nat -> outcome (response num)) :
  texts <> [] ->
  (forall embeddings, custom_accepts texts custom embeddings ->
     generateBatchEmbeddings texts custom hf = Returned embeddings)
  /\ ((forall embeddings, ~ custom_accepts texts custom embeddings) ->
      ((forall attempt, (1 <= attempt <= 3)%nat -> attempt_fails texts (hf attempt))
       <-> generateBatchEmbeddings texts custom hf
           = Thrown "Failed to generate embeddings - check API token")
      /\ (forall embeddings,
            generateBatchEmbeddings texts custom hf = Returned embeddings ->
            exists attempt resp accepted,
              (1 <= attempt <= 3)%nat
              /\ (forall earlier, (1 <= earlier < attempt)%nat ->
                    attempt_fails texts (hf earlier))
              /\ hf attempt = Returned resp /\ ok resp = true
              /\ body resp = Returned accepted
              /\ accepted_body texts accepted
              /\ embeddings = returned_for accepted)
      /\ (forall firstEmb others,
            length firstEmb = 384 -> S (length others) = length texts ->
            hf 1%nat = Returned {| ok := true; status_code := 200;
                                   body := Returned (JArray (JArray firstEmb :: others)) |} ->
            generateBatchEmbeddings texts custom hf
            = Returned (JArray (JArray firstEmb :: others)))).
Proof.
  intros Ht. split.
  { intros embeddings Hc%custom_attempt_spec. unfold generateBatchEmbeddings.
    destruct texts as [|t texts]; [done|]. cbn [length Nat.eqb]. by rewrite Hc. }
  intros Hnone.
  assert (custom ≫= custom_attempt texts = None) as Hc.
  { destruct (custom ≫= custom_attempt texts) as [e|] eqn:He; [|done].
    by apply custom_attempt_spec, Hnone in He. }
  clear Hnone. unfold generateBatchEmbeddings.
  destruct texts as [|t texts]; [done|]. cbn [length Nat.eqb]. rewrite Hc.
  cbn [hf_loop MAX_RETRIES].
  pose proof (hf_attempt_spec (t :: texts) (hf 1%nat)) as [H1 Hret1].
  pose proof (hf_attempt_spec (t :: texts) (hf 2%nat)) as [H2 Hret2].
  pose proof (hf_attempt_spec (t :: texts) (hf 3%nat)) as [H3 Hret3].
  split; [|split].
  - split.
    + intros Hf. rewrite (proj1 H1), (proj1 H2), (proj1 H3) by (apply Hf; lia). done.
    + intros Hthrown attempt Hattempt.
      destruct (hf_attempt (t :: texts) (hf 1%nat)) eqn:E1; [done|].
      destruct (hf_attempt (t :: texts) (hf 2%nat)) eqn:E2; [done|].
      destruct (hf_attempt (t :: texts) (hf 3%nat)) eqn:E3; [done|].
      assert (attempt = 1 \/ attempt = 2 \/ attempt = 3)%nat as [-> | [-> | ->]] by lia;
        [by apply H1 | by apply H2 | by apply H3].
  - intros embeddings Hrun.
    destruct (hf_attempt (t :: texts) (hf 1%nat)) as [e1|] eqn:E1.
    { injection Hrun as <-. destruct (Hret1 e1 eq_refl) as (resp & accepted & ?).
      exists 1%nat, resp, accepted. split; [lia|]. split; [intros; lia | tauto]. }
    destruct (hf_attempt (t :: texts) (hf 2%nat)) as [e2|] eqn:E2.
    { injection Hrun as <-. destruct (Hret2 e2 eq_refl) as (resp & accepted & ?).
      exists 2%nat, resp, accepted. split; [lia|]. split; [|tauto].
      intros earlier Hearlier. assert (earlier = 1%nat) as -> by lia. by apply H1. }
    destruct (hf_attempt (t :: texts) (hf 3%nat)) as [e3|] eqn:E3; [|done].
    injection Hrun as <-. destruct (Hret3 e3 eq_refl) as (resp & accepted & ?).
    exists 3%nat, resp, accepted. split; [lia|]. split; [|tauto].
    intros earlier Hearlier.
    assert (earlier = 1 \/ earlier = 2)%nat as [-> | ->] by lia;
      [by apply H1 | by apply H2].
  - intros firstEmb others Hfirst Hlen Hreply. rewrite Hreply.
    unfold hf_attempt. cbn [ok body negb].
    assert (batch_shape (t :: texts) (JArray (JArray firstEmb :: others)) = true) as ->;
      [|done].
    apply batch_shape_spec. by exists firstEmb, others.
Qed.

End Batch.

Lemma batch_path_witness :
  generateBatchEmbeddings (num := float) ["water supply"] None
    (fun _ => Returned {| ok := false; status_code := 503; body := Thrown "Bad JSON" |})
  = Thrown "Failed to generate embeddings - check API token"
  /\ generateBatchEmbeddings (num := float) ["water supply"; "road broken"] None
       (fun _ => Returned {| ok := true; status_code := 200;
                             body := Returned (JArray [JArray (replicate 384 (JNumber (lit 0)));
                                                       JString "oops"]) |})
     = Returned (JArray [JArray (replicate 384 (JNumber (lit 0))); JString "oops"]).
Proof.
  assert (forall texts embeddings,
            ~ custom_accepts (num := float) texts None embeddings) as Hnone.
  { intros texts embeddings (resp & firstEmb & others & Hcustom & _). discriminate. }
  split.
  - apply (batch_path_throws_when_all_attempts_fail (num := float) ["water supply"] None); [done | apply Hnone |].
    intros attempt _. cbn. by left.
  - apply (batch_path_throws_when_all_attempts_fail (num := float) ["water supply"; "road broken"] None);
      [done | apply Hnone | apply length_replicate | done | done].
Defined.

Lemma length_hash_chars {num : Type} {N : Number num} (chars : list ascii)
    (i idx : nat) (vector : list num) :
  length (hash_chars chars i idx vector) = length vector.
Proof.
  revert i vector. induction chars as [|c chars IH]; intros i vector; [done|].
  cbn [hash_chars]. rewrite IH. unfold add_at. apply length_alter.
Qed.

Lemma length_hash_words {num : Type} {N : Number num} (words : list string)
    (idx : nat) (vector : list num) :
  length (hash_words words idx vector) = length vector.
Proof.
  revert idx vector. induction words as [|w words IH]; intros idx vector; [done|].
  cbn [hash_words]. rewrite IH. apply length_hash_chars.
Qed.

Lemma length_generateFallbackEmbedding {num : Type} {N : Number num} (text : string) :
  length (generateFallbackEmbedding (num := num) text) = 384%nat.
Proof.
  unfold generateFallbackEmbedding, normalizeVector.
  destruct (eqb _ _); rewrite ?length_fmap, length_hash_words; apply length_replicate.
Qed.

End EmbeddingFacts.

(** * Properties of the single-text submission *)

Module IndexFacts.
Import Embedding EmbeddingFacts TextPreprocessing Index.

(** C1.  On the single-text path every failure of the request is answered
    with the locally generated vector of 384 entries for the preprocessed
    text: a rejected [fetch], a reply that is not [ok], a body that does not
    parse, a body that is not an array.  Nothing is thrown. *)
Theorem single_text_path_substitutes_synthetic_vector {num : Type} {N : Number num}
    (text error : string) (code : nat) (failure : outcome (json num))
    (fields : list (string * json num)) :
  let synthetic := generateFallbackEmbedding (num := num) (preprocessText text) in
  length synthetic = 384%nat
  /\ processGrievance_embedding text (Thrown error) = vector_json synthetic
  /\ processGrievance_embedding text
       (Returned {| ok := false; status_code := code; body := failure |})
     = vector_json synthetic
  /\ processGrievance_embedding text
       (Returned {| ok := true; status_code := code; body := Thrown error |})
     = vector_json synthetic
  /\ processGrievance_embedding text
       (Returned {| ok := true; status_code := code; body := Returned (JObject fields) |})
     = vector_json synthetic.
Proof.
  intros synthetic. split; [apply length_generateFallbackEmbedding|].
  repeat split; reflexivity.
Qed.

End IndexFacts.

(** * Properties of the clusterer *)

Module DbscanFacts.
Import Js Records Embedding EmbeddingFacts Dbscan.

(** ** The loops of the clusterer end *)

Section Termination.
Context {num : Type} {N : Number num}.

Lemma unvisited_insert_visited (labels : list Z) (q : nat) (l c : Z) :
  labels !! q = Some l -> l <> (-1)%Z -> c <> (-1)%Z ->
  unvisited (<[q := c]> labels) = unvisited labels.
Proof.
  unfold unvisited. revert q. induction labels as [|x labels IH]; intros [|q] Hq Hl Hc;
    try discriminate; cbn in *.
  - injection Hq as ->. by rewrite !bool_decide_eq_false_2.
  - specialize (IH q Hq Hl Hc). destruct (bool_decide (x = (-1)%Z)); simpl length;
      [exact (f_equal S IH) | exact IH].
Qed.

Lemma unvisited_insert_unvisited (labels : list Z) (q : nat) (c : Z) :
  labels !! q = Some (-1)%Z -> c <> (-1)%Z ->
  S (unvisited (<[q := c]> labels)) = unvisited labels.
Proof.
  unfold unvisited. revert q. induction labels as [|x labels IH]; intros [|q] Hq Hc;
    try discriminate; cbn in *.
  - injection Hq as ->. by rewrite bool_decide_eq_false_2.
  - specialize (IH q Hq Hc). destruct (bool_decide (x = (-1)%Z)); simpl length;
      [exact (f_equal S IH) | exact IH].
Qed.

Lemma length_enqueue_new (queue neighbors : list nat) :
  length (enqueue_new queue neighbors) <= length queue + length neighbors.
Proof.
  unfold enqueue_new. revert queue.
  induction neighbors as [|x neighbors IH]; intros queue; cbn; [lia|].
  etransitivity; [apply IH|]. case_bool_decide; [lia|]. rewrite length_app. cbn. lia.
Qed.

Lemma length_regionQuery (matrix : list (list num)) (p : nat) (eps : num) (n : nat) :
  length (regionQuery matrix p eps n) <= n.
Proof.
  unfold regionQuery. etransitivity; [apply List.filter_length_le|].
  by rewrite length_seq.
Qed.

Lemma expand_loop_returns (steps : nat) (matrix : list (list num)) (labels : list Z)
    (queue : list nat) (clusterId : Z) (eps : num) (minPts n : nat) :
  clusterId <> (-1)%Z ->
  expand_steps labels queue n <= steps ->
  is_Some (expand_loop steps matrix labels queue clusterId eps minPts n).
Proof.
  intros Hc. unfold expand_steps. revert labels queue.
  induction steps as [|steps IH]; intros labels [|q queue] Hsteps; cbn in *;
    try done; [lia|].
  set (labels1 := if bool_decide (labels !! q = Some 0%Z)
                  then <[q := clusterId]> labels else labels).
  assert (unvisited labels1 = unvisited labels) as Hsame.
  { unfold labels1. case_bool_decide as H0; [|done].
    by apply (unvisited_insert_visited _ _ 0%Z). }
  case_bool_decide as Hq.
  - apply IH. lia.
  - pose proof (unvisited_insert_unvisited labels1 q clusterId Hq Hc) as Hdrop.
    apply IH.
    pose proof (length_regionQuery matrix q eps n).
    pose proof (length_enqueue_new queue (regionQuery matrix q eps n)).
    destruct (minPts <=? _)%nat; nia.
Qed.

Lemma expandCluster_returns (matrix : list (list num)) (labels : list Z) (p : nat)
    (neighbors : list nat) (clusterId : Z) (eps : num) (minPts n : nat) :
  clusterId <> (-1)%Z ->
  is_Some (expandCluster matrix labels p neighbors clusterId eps minPts n).
Proof. intros Hc. unfold expandCluster. by apply expand_loop_returns. Qed.

Lemma cluster_loop_returns (points : list nat) (matrix : list (list num))
    (labels : list Z) (clusterId : Z) (eps : num) (minPts n : nat) :
  (0 < clusterId)%Z ->
  is_Some (cluster_loop points matrix labels clusterId eps minPts n).
Proof.
  revert labels clusterId. induction points as [|i points IH]; intros labels clusterId Hc;
    cbn [cluster_loop]; [done|].
  case_bool_decide; [by apply IH|].
  destruct (length (regionQuery matrix i eps n) <? minPts)%nat; [by apply IH|].
  destruct (expandCluster_returns matrix labels i (regionQuery matrix i eps n)
              clusterId eps minPts n) as [labels' ->]; [lia|].
  apply IH. lia.
Qed.

(** [dbscanCluster] throws (an embedding of another length) or returns a
    result: its loops always end. *)
Lemma dbscanCluster_returns (grievances : list (grievance num)) (eps : num) (minPts : nat) :
  (exists msg, dbscanCluster grievances eps minPts = Thrown msg)
  \/ (exists result, dbscanCluster grievances eps minPts = Returned (Some result)).
Proof.
  unfold dbscanCluster. destruct (computeSimilarityMatrix grievances) as [matrix|msg]; cbn.
  - right.
    destruct (cluster_loop_returns (seq 0 (length grievances)) matrix
                (replicate (length grievances) (-1)%Z) 1%Z eps minPts (length grievances))
      as [labels' ->]; [lia|]. by eexists.
  - left. by eexists.
Qed.

End Termination.

(** ** The similarity matrix and the range of the cosine *)

Lemma for_each_lookup {A B : Type} (f : A -> outcome B) (l : list A) (ys : list B)
    (i : nat) (x : A) :
  for_each f l = Returned ys -> l !! i = Some x ->
  exists y, ys !! i = Some y /\ f x = Returned y.
Proof.
  revert ys i. induction l as [|a l IH]; intros ys i Hys Hi; [done|].
  cbn in Hys. destruct (f a) as [b|] eqn:Hfa; [|done]. cbn in Hys.
  destruct (for_each f l) as [bs|] eqn:Hl; [|done]. cbn in Hys.
  injection Hys as <-. destruct i as [|i]; cbn in *.
  - injection Hi as <-. by exists b.
  - by apply IH.
Qed.

(** The diagonal of the matrix is the constant the source writes there, in
    every arithmetic. *)
Lemma similarity_matrix_diagonal {num : Type} {N : Number num}
    (grievances : list (grievance num)) (matrix : list (list num)) (i : nat) :
  computeSimilarityMatrix grievances = Returned matrix ->
  i < length grievances ->
  matrix !! i ≫= (fun row => row !! i) = Some (lit 1.0).
Proof.
  intros Hm Hi. unfold computeSimilarityMatrix in Hm.
  destruct (lookup_lt_is_Some_2 grievances i Hi) as [g Hg].
  assert (imap pair (embedding <$> grievances) !! i = Some (i, embedding g)) as Hrow.
  { by rewrite list_lookup_imap, list_lookup_fmap, Hg. }
  destruct (for_each_lookup _ _ _ _ _ Hm Hrow) as (row & -> & Hr). cbn.
  destruct (for_each_lookup _ _ _ _ _ Hr Hrow) as (y & -> & Hy).
  cbn in Hy. unfold similarity_entry in Hy. rewrite Nat.eqb_refl in Hy. congruence.
Qed.

(** In exact arithmetic the cosine of two non-zero vectors of equal
    dimension lies in [-1, 1], and the cosine of a non-zero vector with
    itself is 1: the formula of [cosineSimilarity] is the right one.  In
    every arithmetic, the machine's included, the diagonal of the
    precomputed matrix is exactly the constant 1.0. *)
Theorem cosine_range_in_exact_arithmetic :
  (forall v1 v2 : list R,
     length v1 = length v2 -> nonzero v1 -> nonzero v2 ->
     exists c : R, cosineSimilarity v1 v2 = Returned c /\ (-1 <= c <= 1)%R)
  /\ (forall v : list R, nonzero v -> cosineSimilarity v v = Returned 1%R)
  /\ (forall (num : Type) (N : Number num) (grievances : list (grievance num))
             (matrix : list (list num)) (i : nat),
        computeSimilarityMatrix grievances = Returned matrix ->
        i < length grievances ->
        matrix !! i ≫= (fun row => row !! i) = Some (lit 1.0)).
Proof.
  split; [|split].
  - intros v1 v2 Hlen H1 H2. eexists. split; [by apply cosine_real|].
    pose proof (dot_cauchy_schwarz v1 v2 Hlen) as Hcs.
    pose proof (dot_self_pos v1 H1) as Ha. pose proof (dot_self_pos v2 H2) as Hb.
    pose proof (sqrt_lt_R0 _ Ha) as Hsa. pose proof (sqrt_lt_R0 _ Hb) as Hsb.
    pose proof (sqrt_sqrt _ (Rlt_le _ _ Ha)) as Hqa.
    pose proof (sqrt_sqrt _ (Rlt_le _ _ Hb)) as Hqb.
    set (D := dot v1 v2) in *. set (sa := R_sqrt.sqrt (dot v1 v1)) in *.
    set (sb := R_sqrt.sqrt (dot v2 v2)) in *. clearbody D sa sb.
    assert (0 < sa * sb)%R as Hp by (apply Rmult_lt_0_compat; lra).
    assert (D * D <= (sa * sb) * (sa * sb))%R as Hsq by nra.
    assert (D <= sa * sb)%R as Hup
      by (apply Rsqr_incr_0_var; [unfold Rsqr; lra | lra]).
    assert (- D <= sa * sb)%R as Hlow
      by (apply Rsqr_incr_0_var; [unfold Rsqr; nra | lra]).
    pose proof (Rinv_0_lt_compat _ Hp) as Hinv.
    pose proof (Rinv_r (sa * sb)%R (Rgt_not_eq _ _ Hp)) as Hone.
    unfold Rdiv. split; nra.
  - intros v Hv. rewrite cosine_real by done. f_equal.
    pose proof (dot_self_pos v Hv) as Ha.
    rewrite (sqrt_sqrt _ (Rlt_le _ _ Ha)). unfold Rdiv. apply Rinv_r. lra.
  - intros num N. apply similarity_matrix_diagonal.
Qed.

Lemma cosine_range_witness :
  cosineSimilarity [3%R; 4%R] [3%R; 4%R] = Returned 1%R.
Proof.
  apply (proj1 (proj2 cosine_range_in_exact_arithmetic) [3%R; 4%R]).
  exists 3%R. split; [apply list_elem_of_here | lra].
Defined.

(** C9.  On the machine [cosineSimilarity] leaves the range [-1, 1] that
    its own comment promises: the cosine of the vector (2, 3) with itself
    is the double after 1, so it is not 1.0 and it is above 1.  The sum of
    the squares is 13, and the product of the two rounded square roots of
    13 is below 13. *)
Lemma machine_cosine_of_a_vector_with_itself :
  exists c : float,
    cosineSimilarity (num := float) [lit 2; lit 3] [lit 2; lit 3] = Returned c
    /\ c = PrimFloat.next_up (lit 1)
    /\ eqb c (lit 1) = false
    /\ leb c (lit 1) = false.
Proof.
  eexists. split; [vm_compute; reflexivity|]. repeat split; vm_compute; reflexivity.
Qed.

End DbscanFacts.

(** * Properties of the batch processor *)

Module BatchProcessorFacts.
Import Js Records Embedding AdaptiveThreshold EmbeddingFacts AdaptiveThresholdFacts BatchProcessor.

(** ** Sets read back as arrays *)

Section SetFacts.
Context {A : Type} `{EqDecision A}.

Lemma elem_of_distinct_from (seen items : list A) (x : A) :
  x ∈ distinct_from seen items <-> x ∈ items /\ x ∉ seen.
Proof.
  revert seen. induction items as [|y items IH]; intros seen; cbn.
  - split; [by intros ?%elem_of_nil | by intros [?%elem_of_nil _]].
  - case_bool_decide as Hy.
    + rewrite IH, elem_of_cons. split; [tauto|]. intros [[->|?] ?]; tauto.
    + rewrite !elem_of_cons, IH, elem_of_cons. split.
      * intros [->|[? ?]]; tauto.
      * intros [[->|?] ?]; [tauto|]. destruct (decide (x = y)); tauto.
Qed.

Lemma NoDup_distinct_from (seen items : list A) : NoDup (distinct_from seen items).
Proof.
  revert seen. induction items as [|y items IH]; intros seen; cbn; [constructor|].
  case_bool_decide; [apply IH|]. constructor; [|apply IH].
  rewrite elem_of_distinct_from, elem_of_cons. tauto.
Qed.

Lemma elem_of_set_of (items : list A) (x : A) : x ∈ set_of items <-> x ∈ items.
Proof.
  unfold set_of. rewrite elem_of_distinct_from. split; [tauto|].
  intros ?. split; [done|]. apply not_elem_of_nil.
Qed.

Lemma NoDup_set_of (items : list A) : NoDup (set_of items).
Proof. apply NoDup_distinct_from. Qed.

Lemma elem_of_list_filter (f : A -> bool) (l : list A) (x : A) :
  x ∈ List.filter f l <-> x ∈ l /\ f x = true.
Proof. rewrite !list_elem_of_In. apply filter_In. Qed.

Lemma NoDup_list_filter (f : A -> bool) (l : list A) :
  NoDup l -> NoDup (List.filter f l).
Proof. rewrite !NoDup_ListNoDup. apply List.NoDup_filter. Qed.

Lemma has_true (set : list A) (x : A) : has set x = true <-> x ∈ set.
Proof. unfold has. apply bool_decide_eq_true. Qed.

End SetFacts.

(** ** The composite score *)

Lemma cosineSimilarity_returns {num : Type} {N : Number num} (vec1 vec2 : list num) :
  length vec1 = length vec2 -> exists c, cosineSimilarity vec1 vec2 = Returned c.
Proof.
  intros Hlen. unfold cosineSimilarity. rewrite (proj2 (Nat.eqb_eq _ _) Hlen). cbn [negb].
  destruct (cosine_loop _ _ _ _ _) as [[d m1] m2].
  destruct (_ || _); by eexists.
Qed.

Lemma shared_words_spec (words1 words2 : list string) (w : string) :
  w ∈ shared_words (set_of words1) (set_of words2) <-> w ∈ words1 /\ w ∈ words2.
Proof.
  unfold shared_words.
  by rewrite elem_of_set_of, elem_of_list_filter, has_true, !elem_of_set_of.
Qed.

Lemma rareMatches_spec (intersection : list string) (w : string) :
  w ∈ rareMatches intersection
  <-> w ∈ intersection /\ 3 < String.length w /\ w ∉ commonWords.
Proof.
  unfold rareMatches.
  rewrite elem_of_list_filter, andb_true_iff, Nat.ltb_lt, negb_true_iff.
  unfold has. by rewrite bool_decide_eq_false.
Qed.

Lemma NoDup_rareMatches (words1 words2 : list string) :
  NoDup (rareMatches (shared_words words1 words2)).
Proof. apply NoDup_list_filter, NoDup_set_of. Qed.

Lemma locationKeywords_spec (rare : list string) (w : string) :
  w ∈ locationKeywords rare
  <-> w ∈ rare /\ (toLowerCase w ∈ locationWords \/ all_digits w = true).
Proof.
  unfold locationKeywords, is_location.
  by rewrite elem_of_list_filter, orb_true_iff, has_true.
Qed.

(** The category of an argument as the kernel reads it. *)
Definition category_of (own meta : option string) : string :=
  default "OTHER" (string_or own (string_or meta None)).

Lemma words_of_spec (text w : string) :
  w ∈ words_of text <-> w ∈ split_space text /\ w <> EmptyString.
Proof.
  unfold words_of. rewrite elem_of_list_filter.
  assert (nonempty w = true <-> w <> EmptyString) as ->; [|done].
  destruct w; cbn; split; done.
Qed.

Section RealKernel.
Local Open Scope R_scope.

(** C6.  When the two embeddings have one length and the second argument
    carries a text, the kernel returns
    [clamp(base + rareBoost + locationBoost + categoryModifier, 0, 1)].
    Here [base] is the weighted score, rounded to three decimals, of the
    cosine of the two embeddings (0 when one of them is zero), of the
    Jaccard index of the two sets of words and of the overlap of the
    bigrams, with the weights of [thresholds] or, for a weight that is
    missing or 0, 0.50, 0.25, 0.15 and 0.10; the words of a text are the
    non-empty pieces between its spaces; [rareBoost = min(0.08, 0.02 * |R|)]
    for the set [R] of the shared words of more than three characters that
    are not common words; [locationBoost = min(0.06, 0.03 * |L|)] for the
    set [L] of the location words and numbers in [R]; the modifier is
    +0.10, -0.25 or 0 by the two categories.  The result lies in [0, 1]. *)
Theorem composite_similarity_is_clamped_sum (grievance1 : subject R)
    (grievance2 : candidate R) (thresholds : gmap string R) (text : string) :
  length (embedding1 grievance1) = length (embedding2 grievance2) ->
  string_or (processedText2 grievance2) (text2 grievance2) = Some text ->
  let words1 := words_of (processedText1 grievance1) in
  let words2 := words_of text in
  let shared := shared_words (set_of words1) (set_of words2) in
  let all := set_of (set_of words1 ++ set_of words2) in
  let rare := rareMatches shared in
  let location := locationKeywords rare in
  exists (r : similarity R) (cosineScore : R),
    computeContextualSimilarity grievance1 grievance2 thresholds = Returned r
    /\ cosineSimilarity (embedding1 grievance1) (embedding2 grievance2)
       = Returned cosineScore
    /\ (nonzero (embedding1 grievance1) -> nonzero (embedding2 grievance2) ->
        cosineScore
        = dot (embedding1 grievance1) (embedding2 grievance2)
          / (R_sqrt.sqrt (dot (embedding1 grievance1) (embedding1 grievance1))
             * R_sqrt.sqrt (dot (embedding2 grievance2) (embedding2 grievance2))))
    /\ (~ nonzero (embedding1 grievance1) \/ ~ nonzero (embedding2 grievance2) ->
        cosineScore = 0)
    /\ (forall w, w ∈ words1 <->
          w ∈ split_space (processedText1 grievance1) /\ w <> EmptyString)
    /\ (forall w, w ∈ words2 <-> w ∈ split_space text /\ w <> EmptyString)
    /\ (NoDup shared /\ forall w, w ∈ shared <-> w ∈ words1 /\ w ∈ words2)
    /\ (NoDup all /\ forall w, w ∈ all <-> w ∈ words1 \/ w ∈ words2)
    /\ (NoDup rare /\ forall w, w ∈ rare <->
          w ∈ shared /\ (3 < String.length w)%nat /\ w ∉ commonWords)
    /\ (NoDup location /\ forall w, w ∈ location <->
          w ∈ rare /\ (toLowerCase w ∈ locationWords \/ all_digits w = true))
    /\ (let cat1 := category_of (category1 grievance1) None in
        let cat2 := category_of (category2 grievance2) (metadataCategory2 grievance2) in
        let jaccardScore :=
          if (length all =? 0)%nat then 0 else INR (length shared) / INR (length all) in
        let ngramScore := calculateNGramOverlap (processedText1 grievance1) text 2 in
        let cosineWeight := or_default (thresholds !! "cosine_weight") 0.50 in
        let jaccardWeight := or_default (thresholds !! "jaccard_weight") 0.25 in
        let ngramWeight := or_default (thresholds !! "ngram_weight") 0.15 in
        let metadataWeight := or_default (thresholds !! "metadata_weight") 0.10 in
        let weightedScore :=
          (cosineScore * cosineWeight + jaccardScore * jaccardWeight
           + ngramScore * ngramWeight + 0 * metadataWeight)
          / (cosineWeight + jaccardWeight + ngramWeight + metadataWeight) in
        let base := IZR (Int_part (weightedScore * 1000 + / 2)) / 1000 in
        let rareBoost := Rmin 0.08 (0.02 * INR (length rare)) in
        let locationBoost := Rmin 0.06 (0.03 * INR (length location)) in
        base = calculateAdaptiveWeightedScore
                 {| cosine := cosineScore; jaccard := jaccardScore;
                    ngram := ngramScore; metadata := Some 0 |} thresholds
        /\ combinedScore r
           = Rmax 0 (Rmin 1 (base + rareBoost + locationBoost + categoryModifier cat1 cat2))
        /\ (cat1 <> "OTHER" -> cat2 <> "OTHER" -> cat1 = cat2 ->
            categoryModifier cat1 cat2 = 0.10)
        /\ (cat1 <> "OTHER" -> cat2 <> "OTHER" -> cat1 <> cat2 ->
            categoryModifier cat1 cat2 = - 0.25)
        /\ (cat1 = "OTHER" \/ cat2 = "OTHER" -> categoryModifier cat1 cat2 = 0))
    /\ 0 <= combinedScore r <= 1.
Proof.
  intros Hlen Htext words1 words2 shared all rare location.
  destruct (cosineSimilarity_returns _ _ Hlen) as [c Hc].
  unfold computeContextualSimilarity. rewrite Hc, Htext. cbn [and_then].
  fold words1 words2. fold shared.
  eexists _, c.
  split; [reflexivity|]. split; [reflexivity|].
  split.
  { intros Hn1 Hn2. rewrite (cosine_real _ _ Hlen Hn1 Hn2) in Hc. by injection Hc. }
  split.
  { intros Hz. rewrite (cosine_real_zero _ _ Hlen Hz) in Hc. by injection Hc. }
  split; [intros w; apply words_of_spec|].
  split; [intros w; apply words_of_spec|].
  split; [split; [apply NoDup_set_of | apply shared_words_spec]|].
  split.
  { split; [apply NoDup_set_of|]. intros w. unfold all.
    by rewrite elem_of_set_of, elem_of_app, 2!elem_of_set_of. }
  split; [split; [apply NoDup_rareMatches | apply rareMatches_spec]|].
  split; [split; [apply NoDup_list_filter, NoDup_rareMatches | apply locationKeywords_spec]|].
  assert (Q2R 0 = 0) as H0 by (unfold Q2R; cbn; lra).
  assert (Q2R 1 = 1) as H1 by (unfold Q2R; cbn; lra).
  assert (Q2R 1000 = 1000) as H1000 by (unfold Q2R; cbn; lra).
  assert (forall cosineScore jaccardScore ngramScore,
            IZR (Int_part
                   ((cosineScore * or_default (thresholds !! "cosine_weight") 0.50
                     + jaccardScore * or_default (thresholds !! "jaccard_weight") 0.25
                     + ngramScore * or_default (thresholds !! "ngram_weight") 0.15
                     + 0 * or_default (thresholds !! "metadata_weight") 0.10)
                    / (or_default (thresholds !! "cosine_weight") 0.50
                       + or_default (thresholds !! "jaccard_weight") 0.25
                       + or_default (thresholds !! "ngram_weight") 0.15
                       + or_default (thresholds !! "metadata_weight") 0.10) * 1000 + / 2)) / 1000
            = calculateAdaptiveWeightedScore
                {| cosine := cosineScore; jaccard := jaccardScore;
                   ngram := ngramScore; metadata := Some 0 |} thresholds) as Hbase.
  { intros x y z. unfold calculateAdaptiveWeightedScore. rewrite !real_or_default.
    cbn [cosine jaccard ngram metadata add mul div round lit real_number].
    unfold Rround. rewrite H1000.
    replace (Q2R 0.50) with 0.50 by (unfold Q2R; cbn; lra).
    replace (Q2R 0.25) with 0.25 by (unfold Q2R; cbn; lra).
    replace (Q2R 0.15) with 0.15 by (unfold Q2R; cbn; lra).
    replace (Q2R 0.10) with 0.10 by (unfold Q2R; cbn; lra).
    assert (or_default (Some 0) (Q2R 0) = 0) as ->; [|done].
    cbn. by destruct (Req_dec_T 0 0). }
  split.
  - cbn zeta. split; [apply Hbase|]. rewrite Hbase. split; [|split; [|split]].
    + cbn [combinedScore max min add mul div lit of_nat real_number].
      rewrite H0, H1. do 2 f_equal. unfold category_of.
      replace (Q2R 0.08) with 0.08 by (unfold Q2R; cbn; lra).
      replace (Q2R 0.06) with 0.06 by (unfold Q2R; cbn; lra).
      replace (Q2R 0.02) with 0.02 by (unfold Q2R; cbn; lra).
      replace (Q2R 0.03) with 0.03 by (unfold Q2R; cbn; lra).
      rewrite (Rmult_comm (INR _) 0.02), (Rmult_comm (INR _) 0.03). reflexivity.
    + intros Hn1 Hn2 Heq. unfold categoryModifier.
      rewrite (proj2 (String.eqb_neq _ _) Hn1), (proj2 (String.eqb_neq _ _) Hn2).
      rewrite (proj2 (String.eqb_eq _ _) Heq). cbn. unfold Q2R. cbn. lra.
    + intros Hn1 Hn2 Hne. unfold categoryModifier.
      rewrite (proj2 (String.eqb_neq _ _) Hn1), (proj2 (String.eqb_neq _ _) Hn2).
      rewrite (proj2 (String.eqb_neq _ _) Hne). cbn. unfold Q2R. cbn. lra.
    + intros Hother. unfold categoryModifier.
      destruct Hother as [-> | ->]; cbn; rewrite ?andb_false_r; cbn; unfold Q2R; cbn; lra.
  - cbn [combinedScore max min lit real_number]. rewrite H0, H1.
    unfold Rmax, Rmin. repeat destruct (Rle_dec _ _); lra.
Qed.

End RealKernel.

Lemma composite_similarity_witness :
  exists r : similarity R,
    computeContextualSimilarity
      {| embedding1 := [1%R; 0%R]; processedText1 := "streetlight sector 15 broken";
         category1 := Some "ELECTRICITY" |}
      {| embedding2 := [0%R; 1%R]; processedText2 := Some "streetlight sector 15 dark";
         text2 := None; category2 := Some "ELECTRICITY"; metadataCategory2 := None |}
      thresholds_init = Returned r
    /\ combinedScore r = 0.395%R.
Proof.
  pose proof (composite_similarity_is_clamped_sum
                {| embedding1 := [1%R; 0%R]; processedText1 := "streetlight sector 15 broken";
                   category1 := Some "ELECTRICITY" |}
                {| embedding2 := [0%R; 1%R]; processedText2 := Some "streetlight sector 15 dark";
                   text2 := None; category2 := Some "ELECTRICITY";
                   metadataCategory2 := None |}
                thresholds_init "streetlight sector 15 dark" eq_refl eq_refl) as H.
  cbv zeta in H.
  destruct H as (r & c & Hr & _ & Hcos & _ & _ & _ & _ & _ & _ & _
                 & (_ & Hscore & Hsame & _) & _).
  exists r. split; [exact Hr|].
  rewrite Hscore, Hsame by done.
  rewrite Hcos by (eexists; split; [|apply R1_neq_R0]; set_solver).
  cbn [embedding1 embedding2 dot processedText1].
  unfold calculateNGramOverlap. cbv zeta.
  repeat match goal with
         | |- context [@length string ?l] =>
             let n := eval vm_compute in (@length string l) in
             change (@length string l) with n
         end.
  cbn [Nat.eqb orb div of_nat real_number INR].
  assert (forall k q d, thresholds_init (num := R) !! k = Some (Q2R q) -> Q2R q <> 0%R ->
                        or_default (thresholds_init !! k) d = Q2R q) as Hweight.
  { intros k q d Hk Hq. rewrite Hk. cbn. by destruct (Req_dec_T _ _). }
  rewrite (Hweight "cosine_weight" 0.55%Q), (Hweight "jaccard_weight" 0.25%Q),
    (Hweight "ngram_weight" 0.15%Q), (Hweight "metadata_weight" 0.05%Q)
    by (reflexivity || (unfold Q2R; cbn; lra)).
  set (m := (R_sqrt.sqrt _ * R_sqrt.sqrt _)%R).
  replace ((1 * 0 + (0 * 1 + 0)) / m)%R with 0%R by (unfold Rdiv; ring).
  match goal with
  | |- context [Int_part ?x] =>
      assert (Int_part x = 225%Z) as ->
        by (symmetry; apply Int_part_spec; unfold Q2R; cbn; lra)
  end.
  unfold Rmax, Rmin. repeat destruct (Rle_dec _ _); lra.
Defined.

(** ** The clusters that are formed *)

Section Clusters.
Context {num : Type} {N : Number num}.

(** What the first loop maintains for every entry of [clusters]. *)
Definition well_grouped (results : list (saved_result num)) (key : Z) (c : cluster num)
    : Prop :=
  members c <> []
  /\ length (members c) = length (scores c)
  /\ forall m, m ∈ members c ->
       exists r, r ∈ results /\ id r = m /\ cluster_key r = Some key.

Lemma group_results_well_grouped (results : list (saved_result num)) (key : Z)
    (c : cluster num) :
  (group_results results).1 !! key = Some c ->
  key ∈ (group_results results).2 /\ well_grouped results key c.
Proof.
  unfold group_results. revert key c.
  induction results as [|r results IH] using rev_ind; intros key c.
  - cbn. by rewrite lookup_empty.
  - rewrite foldl_app. cbn [foldl].
    set (acc := foldl _ _ results) in *.
    assert (forall k c', acc.1 !! k = Some c' ->
              k ∈ acc.2 /\ well_grouped (results ++ [r]) k c') as IH'.
    { intros k c' Hk. destruct (IH k c' Hk) as (Hin & Hne & Hlen & Hm).
      split; [done|]. split; [done|]. split; [done|].
      intros m Hmem. destruct (Hm m Hmem) as (r' & ? & ? & ?).
      exists r'. rewrite elem_of_app. tauto. }
    destruct (cluster_key r) as [k|] eqn:Hkey; [|apply IH'].
    cbn [fst snd]. unfold add_to_cluster.
    destruct (decide (k = key)) as [->|Hne].
    + rewrite lookup_insert_eq. intros [= <-]. split.
      { case_bool_decide; [done|]. apply elem_of_app. right. apply list_elem_of_here. }
      unfold well_grouped. cbn [members scores].
      assert (r ∈ results ++ [r]) as Hr
        by (apply elem_of_app; right; apply list_elem_of_here).
      destruct (acc.1 !! key) as [c0|] eqn:Hc0.
      * destruct (IH' key c0 Hc0) as (_ & _ & Hlen & Hm).
        split; [by destruct (members c0)|].
        split; [rewrite !length_app; cbn; lia|].
        intros m [Hmem|Hmem%list_elem_of_singleton]%elem_of_app; [by apply Hm|].
        subst m. by exists r.
      * cbn. split; [done|]. split; [done|].
        intros m Hmem%list_elem_of_singleton. subst m. by exists r.
    + rewrite lookup_insert_ne by done. intros Hk.
      destruct (IH' key c Hk) as [Hin Hwg]. split; [|done].
      case_bool_decide; [done|]. apply elem_of_app. by left.
Qed.

Lemma formDuplicateClusters_rows (results : list (saved_result num))
    (row : cluster_row num) :
  row ∈ formDuplicateClusters results ->
  exists c, well_grouped results (primary_grievance_id row) c
            /\ member_count row = length (members c)
            /\ cluster_members row = zip (members c) (scores c).
Proof.
  unfold formDuplicateClusters.
  pose proof (group_results_well_grouped results) as Hwg.
  destruct (group_results results) as [clusters keys]. cbn [fst snd] in Hwg.
  intros (key & _ & Hrow)%list_elem_of_omap.
  destruct (clusters !! key) as [c|] eqn:Hc; [|done].
  destruct (0 <? length (members c)); [|done]. injection Hrow as <-. cbn.
  exists c. by destruct (Hwg key c Hc).
Qed.

(** C5, as amended.  Every cluster that is formed has at least one member,
    and when its primary is one of its own members, that member is a
    DUPLICATE or NEAR_DUPLICATE result without a usable matched id (none, 0
    or its own id): a result that names another stored grievance is never
    a member of the cluster it heads. *)
Theorem clusters_have_members (results : list (saved_result num))
    (row : cluster_row num) :
  row ∈ formDuplicateClusters results ->
  1 <= length (cluster_members row)
  /\ member_count row = length (cluster_members row)
  /\ (primary_grievance_id row ∈ (cluster_members row).*1 ->
      exists r, r ∈ results /\ id r = primary_grievance_id row
                /\ saved_status r <> UNIQUE
                /\ (matchedId r = None
                    \/ matchedId r = Some (Persisted 0)
                    \/ matchedId r = Some (Persisted (id r)))).
Proof.
  intros (c & (Hne & Hlen & Hm) & Hcount & ->)%formDuplicateClusters_rows.
  rewrite length_zip, <- Hlen, Nat.min_id, Hcount.
  split; [destruct (members c); [done | cbn; lia]|]. split; [done|].
  rewrite fst_zip by lia. intros (r & Hr & Hid & Hkey)%Hm.
  exists r. split; [done|]. split; [done|].
  unfold cluster_key in Hkey. rewrite <- Hid in Hkey.
  destruct (saved_status r); [done| |]; split; try done;
    destruct (matchedId r) as [[z|i]|]; try done; auto;
    case_bool_decide; simplify_eq; auto.
Qed.

End Clusters.

(** ** Sorting by a key *)

Lemma length_insert_by {A : Type} (key : A -> nat) (x : A) (l : list A) :
  length (insert_by key x l) = S (length l).
Proof.
  induction l as [|y l IH]; cbn [insert_by length]; [done|].
  destruct (key x <? key y)%nat; cbn [length]; by rewrite ?IH.
Qed.

Lemma length_sort_by {A : Type} (key : A -> nat) (l : list A) :
  length (sort_by key l) = length l.
Proof.
  unfold sort_by.
  assert (forall acc, length (foldl (fun sorted x => insert_by key x sorted) acc l)
                      = length acc + length l) as H.
  { induction l as [|x l IH]; intros acc; cbn; [lia|].
    rewrite IH, length_insert_by. lia. }
  apply (H []).
Qed.

Lemma sort_by_ext {A : Type} (key key' : A -> nat) (l : list A) :
  (forall x, key x = key' x) -> sort_by key l = sort_by key' l.
Proof.
  intros Hk. unfold sort_by. generalize (@nil A).
  induction l as [|x l IH]; intros acc; cbn; [done|].
  rewrite IH. f_equal.
  induction acc as [|y acc IHacc]; cbn; [done|]. by rewrite !Hk, IHacc.
Qed.

(** ** What the clusterer changes, and what is saved of it *)

Section ClusterLinks.
Context {num : Type} {N : Number num}.

(** [g'] is [g] after the clustering pass: the match id and the page are
    untouched, and the status is the same or went from UNIQUE to
    NEAR_DUPLICATE. *)
Definition relabelled (g g' : grievance num) : Prop :=
  globalMatchId g' = globalMatchId g
  /\ pageNumber g' = pageNumber g
  /\ (finalStatus g' = finalStatus g
      \/ (finalStatus g = UNIQUE /\ finalStatus g' = NEAR_DUPLICATE)).

Definition all_relabelled (before after : list (grievance num)) : Prop :=
  forall i g, before !! i = Some g -> exists g', after !! i = Some g' /\ relabelled g g'.

Lemma relabelled_trans (g1 g2 g3 : grievance num) :
  relabelled g1 g2 -> relabelled g2 g3 -> relabelled g1 g3.
Proof.
  intros (Hm1 & Hp1 & Hs1) (Hm2 & Hp2 & Hs2).
  split; [congruence|]. split; [congruence|].
  destruct Hs1 as [Hs1|[Hs1 Hs1']], Hs2 as [Hs2|[Hs2 Hs2']]; try (left; congruence);
    right; split; congruence.
Qed.

Lemma all_relabelled_trans (l1 l2 l3 : list (grievance num)) :
  all_relabelled l1 l2 -> all_relabelled l2 l3 -> all_relabelled l1 l3.
Proof.
  intros H12 H23 i g Hi. destruct (H12 i g Hi) as (g2 & Hi2 & Hr12).
  destruct (H23 i g2 Hi2) as (g3 & Hi3 & Hr23). exists g3.
  split; [done|]. by apply (relabelled_trans g g2 g3).
Qed.

Lemma link_to_relabelled (primaryIdx : nat) (g : grievance num) :
  relabelled g (Dbscan.link_to primaryIdx g).
Proof.
  unfold relabelled, Dbscan.link_to. destruct (finalStatus g) eqn:Hs; cbn; rewrite ?Hs; auto.
Qed.

Lemma alter_relabelled (f : grievance num -> grievance num) (i : nat)
    (l : list (grievance num)) :
  (forall g, relabelled g (f g)) -> all_relabelled l (alter f i l).
Proof.
  intros Hf j g Hj. destruct (decide (i = j)) as [->|Hne].
  - rewrite list_lookup_alter_eq, Hj. cbn. by eexists.
  - rewrite list_lookup_alter_ne by done. exists g. split; [done|].
    unfold relabelled. auto.
Qed.

Lemma mark_cluster_relabelled (l : list (grievance num)) (cluster : list nat) :
  all_relabelled l (Dbscan.mark_cluster l cluster).
Proof.
  assert (all_relabelled l l) as Hrefl.
  { intros i g Hi. exists g. split; [done|]. unfold relabelled. auto. }
  unfold Dbscan.mark_cluster. destruct (2 <=? length cluster); [|done].
  destruct (sort_by _ cluster) as [|primaryIdx rest]; [done|].
  clear Hrefl. revert l. induction rest as [|dupIdx rest IH]; intros l0; cbn.
  - intros i g Hi. exists g. split; [done|]. unfold relabelled. auto.
  - apply (all_relabelled_trans _ (alter (Dbscan.link_to primaryIdx) dupIdx l0)).
    + apply alter_relabelled, link_to_relabelled.
    + apply IH.
Qed.

Lemma applyDBSCANClustering_relabels (grievances : list (grievance num))
    (thresholds : gmap string num) (after : list (grievance num)) :
  Dbscan.applyDBSCANClustering grievances thresholds = Returned (Some after) ->
  all_relabelled grievances after.
Proof.
  unfold Dbscan.applyDBSCANClustering. destruct (length grievances <? 2).
  - intros [= <-] i g Hi. exists g. split; [done|]. unfold relabelled. auto.
  - destruct (Dbscan.dbscanCluster _ _ _) as [[result|]|]; cbn; try done.
    intros [= <-].
    apply (all_relabelled_trans _ (imap (Dbscan.with_cluster_info (Dbscan.labels result)) grievances)).
    + intros i g Hi. rewrite list_lookup_imap, Hi. cbn. eexists. split; [done|].
      unfold relabelled. cbn. auto.
    + generalize (imap (Dbscan.with_cluster_info (Dbscan.labels result)) grievances).
      induction (Dbscan.clusters result) as [|cluster clusters IH]; intros l; cbn.
      * intros i g Hi. exists g. split; [done|]. unfold relabelled. auto.
      * apply (all_relabelled_trans _ (Dbscan.mark_cluster l cluster));
          [apply mark_cluster_relabelled | apply IH].
Qed.

(** The clustering pass keeps the length of the batch and the pages. *)
Lemma foldl_link_relabelled (primaryIdx : nat) (rest : list nat) (l : list (grievance num)) :
  all_relabelled l (foldl (fun gs dupIdx => alter (Dbscan.link_to primaryIdx) dupIdx gs) l rest)
  /\ length (foldl (fun gs dupIdx => alter (Dbscan.link_to primaryIdx) dupIdx gs) l rest)
     = length l.
Proof.
  revert l. induction rest as [|dupIdx rest IH]; intros l; cbn.
  - split; [|done]. intros i g Hi. exists g. split; [done|]. unfold relabelled. auto.
  - destruct (IH (alter (Dbscan.link_to primaryIdx) dupIdx l)) as [Hr Hl]. split.
    + apply (all_relabelled_trans _ (alter (Dbscan.link_to primaryIdx) dupIdx l)); [|done].
      apply alter_relabelled, link_to_relabelled.
    + by rewrite Hl, length_alter.
Qed.

Lemma length_mark_cluster (l : list (grievance num)) (cluster : list nat) :
  length (Dbscan.mark_cluster l cluster) = length l.
Proof.
  unfold Dbscan.mark_cluster. destruct (2 <=? length cluster); [|done].
  destruct (sort_by _ cluster) as [|primaryIdx rest]; [done|].
  apply foldl_link_relabelled.
Qed.

Lemma page_of_relabelled (l l' : list (grievance num)) (idx : nat) :
  all_relabelled l l' -> length l' = length l ->
  Dbscan.page_of l' idx = Dbscan.page_of l idx.
Proof.
  intros Hr Hlen. unfold Dbscan.page_of. destruct (l !! idx) as [g|] eqn:Hg.
  - destruct (Hr idx g Hg) as (g' & -> & _ & Hp & _). done.
  - apply lookup_ge_None in Hg. rewrite <- Hlen in Hg.
    apply lookup_ge_None in Hg. by rewrite Hg.
Qed.

Lemma relabelled_settled (g g' : grievance num) :
  relabelled g g' -> finalStatus g <> UNIQUE -> finalStatus g' <> UNIQUE.
Proof. intros (_ & _ & [->|[? _]]); done. Qed.

(** A member after the primary is no longer UNIQUE once its cluster has
    been marked. *)
Lemma foldl_link_upgrades (primaryIdx : nat) (rest : list nat) (l : list (grievance num))
    (dupIdx : nat) (g : grievance num) :
  dupIdx ∈ rest -> l !! dupIdx = Some g ->
  exists g', foldl (fun gs d => alter (Dbscan.link_to primaryIdx) d gs) l rest !! dupIdx
             = Some g'
             /\ finalStatus g' <> UNIQUE /\ relabelled g g'.
Proof.
  revert l g. induction rest as [|d rest IH]; intros l g Hin Hg.
  - by apply elem_of_nil in Hin.
  - cbn [foldl]. destruct (decide (dupIdx = d)) as [->|Hne].
    + assert (alter (Dbscan.link_to primaryIdx) d l !! d = Some (Dbscan.link_to primaryIdx g))
        as Hd by (by rewrite list_lookup_alter_eq, Hg).
      destruct (proj1 (foldl_link_relabelled primaryIdx rest _) d _ Hd) as (g' & Hg' & Hr).
      exists g'. split; [done|]. split.
      * apply (relabelled_settled _ _ Hr). unfold Dbscan.link_to.
        destruct (finalStatus g) eqn:Hs; cbn; by rewrite ?Hs.
      * apply (relabelled_trans _ (Dbscan.link_to primaryIdx g)); [apply link_to_relabelled | done].
    + apply elem_of_cons in Hin as [?|Hin]; [done|].
      assert (alter (Dbscan.link_to primaryIdx) d l !! dupIdx = Some g) as Hd
        by (by rewrite list_lookup_alter_ne).
      apply (IH _ g Hin Hd).
Qed.

Lemma mark_cluster_upgrades (l : list (grievance num)) (cluster : list nat)
    (primaryIdx : nat) (rest : list nat) (dupIdx : nat) (g : grievance num) :
  sort_by (Dbscan.page_of l) cluster = primaryIdx :: rest ->
  dupIdx ∈ rest -> l !! dupIdx = Some g ->
  exists g', Dbscan.mark_cluster l cluster !! dupIdx = Some g'
             /\ finalStatus g' <> UNIQUE /\ relabelled g g'.
Proof.
  intros Hsort Hin Hg. unfold Dbscan.mark_cluster.
  assert (2 <= length cluster) as Hlen.
  { rewrite <- (length_sort_by (Dbscan.page_of l)), Hsort. destruct rest; cbn; [|lia].
    by apply elem_of_nil in Hin. }
  rewrite (proj2 (Nat.leb_le _ _) Hlen), Hsort. by apply foldl_link_upgrades.
Qed.

Lemma foldl_mark_relabelled (clusters : list (list nat)) (l : list (grievance num)) :
  all_relabelled l (foldl Dbscan.mark_cluster l clusters)
  /\ length (foldl Dbscan.mark_cluster l clusters) = length l.
Proof.
  revert l. induction clusters as [|cluster clusters IH]; intros l; cbn.
  - split; [|done]. intros i g Hi. exists g. split; [done|]. unfold relabelled. auto.
  - destruct (IH (Dbscan.mark_cluster l cluster)) as [Hr Hl]. split.
    + apply (all_relabelled_trans _ (Dbscan.mark_cluster l cluster));
        [apply mark_cluster_relabelled | done].
    + by rewrite Hl, length_mark_cluster.
Qed.

Lemma foldl_mark_upgrades (clusters : list (list nat)) (l : list (grievance num))
    (cluster : list nat) (primaryIdx : nat) (rest : list nat) (dupIdx : nat)
    (g : grievance num) :
  cluster ∈ clusters ->
  sort_by (Dbscan.page_of l) cluster = primaryIdx :: rest ->
  dupIdx ∈ rest -> l !! dupIdx = Some g ->
  exists g', foldl Dbscan.mark_cluster l clusters !! dupIdx = Some g'
             /\ finalStatus g' <> UNIQUE /\ relabelled g g'.
Proof.
  revert l g. induction clusters as [|c clusters IH]; intros l g Hc Hsort Hin Hg.
  - by apply elem_of_nil in Hc.
  - cbn [foldl]. apply elem_of_cons in Hc as [<-|Hc].
    + destruct (mark_cluster_upgrades l cluster primaryIdx rest dupIdx g Hsort Hin Hg)
        as (g1 & Hg1 & Hs1 & Hr1).
      destruct (proj1 (foldl_mark_relabelled clusters _) dupIdx g1 Hg1) as (g' & Hg' & Hr).
      exists g'. split; [done|]. split; [by apply (relabelled_settled g1)|].
      by apply (relabelled_trans g g1).
    + destruct (mark_cluster_relabelled l c dupIdx g Hg) as (g1 & Hg1 & Hr1).
      destruct (IH (Dbscan.mark_cluster l c) g1 Hc) as (g' & Hg' & Hs' & Hr'); try done.
      * rewrite <- Hsort. apply sort_by_ext. intros idx.
        apply page_of_relabelled; [apply mark_cluster_relabelled | apply length_mark_cluster].
      * exists g'. split; [done|]. split; [done|]. by apply (relabelled_trans g g1).
Qed.

(** What the clustering pass does in memory: a DUPLICATE stays a DUPLICATE,
    and in every cluster, sorted by page, each member after the first that
    was UNIQUE becomes a NEAR_DUPLICATE. *)
Theorem cluster_upgrade_in_memory (grievances : list (grievance num))
    (thresholds : gmap string num) (after : list (grievance num)) :
  Dbscan.applyDBSCANClustering grievances thresholds = Returned (Some after) ->
  (forall i g, grievances !! i = Some g -> finalStatus g = DUPLICATE ->
     exists g', after !! i = Some g' /\ finalStatus g' = DUPLICATE)
  /\ (forall result cluster primaryIdx rest dupIdx g,
        2 <= length grievances ->
        Dbscan.dbscanCluster grievances
          (sub (lit 1) (opt_or_else (thresholds !! "near_duplicate") (lit 0.30))) 2
          = Returned (Some result) ->
        cluster ∈ Dbscan.clusters result ->
        sort_by (Dbscan.page_of grievances) cluster = primaryIdx :: rest ->
        dupIdx ∈ rest -> grievances !! dupIdx = Some g -> finalStatus g = UNIQUE ->
        exists g', after !! dupIdx = Some g' /\ finalStatus g' = NEAR_DUPLICATE).
Proof.
  intros Hrun. split.
  - intros i g Hi Hs.
    destruct (applyDBSCANClustering_relabels _ _ _ Hrun i g Hi) as (g' & Hi' & _ & _ & Hs').
    exists g'. split; [done|]. destruct Hs' as [->|[? _]]; congruence.
  - intros result cluster primaryIdx rest dupIdx g Hn Hdb Hc Hsort Hin Hg Hs.
    unfold Dbscan.applyDBSCANClustering in Hrun.
    rewrite (proj2 (Nat.ltb_ge _ _) Hn), Hdb in Hrun. cbn in Hrun. injection Hrun as <-.
    set (l0 := imap (Dbscan.with_cluster_info (Dbscan.labels result)) grievances).
    assert (l0 !! dupIdx = Some (Dbscan.with_cluster_info (Dbscan.labels result) dupIdx g))
      as Hg0 by (unfold l0; by rewrite list_lookup_imap, Hg).
    destruct (foldl_mark_upgrades (Dbscan.clusters result) l0 cluster primaryIdx rest
                dupIdx (Dbscan.with_cluster_info (Dbscan.labels result) dupIdx g) Hc)
      as (g' & Hg' & Hs' & Hr'); try done.
    + rewrite <- Hsort. apply sort_by_ext. intros idx. unfold Dbscan.page_of, l0.
      rewrite list_lookup_imap. by destruct (grievances !! idx).
    + exists g'. split; [done|]. destruct Hr' as (_ & _ & [Hsame|[_ ?]]); [|done].
      cbn in Hsame. congruence.
Qed.

Lemma saveGrievancesToDB_row (grievances : list (grievance num)) (next_id : Z)
    (i : nat) (g : grievance num) :
  grievances !! i = Some g ->
  (saveGrievancesToDB grievances next_id).1 !! i
  = Some {| row_id := next_id + Z.of_nat i; row_page_number := pageNumber g;
            duplicate_status := finalStatus g; similarity_score := score_of g;
            matched_grievance_id := ref_or_null (globalMatchId g) |}.
Proof.
  revert next_id i. induction grievances as [|g0 rest IH]; intros next_id i Hi; [done|].
  cbn [saveGrievancesToDB]. specialize (IH (next_id + 1)%Z).
  destruct (saveGrievancesToDB rest (next_id + 1)) as [rows results].
  destruct i as [|i]; cbn [fst] in *.
  - cbn in *. injection Hi as ->. by rewrite Z.add_0_r.
  - change ((g0 :: rest) !! S i) with (rest !! i) in Hi.
    change ((?x :: rows) !! S i) with (rows !! i).
    rewrite (IH i Hi). do 2 f_equal. lia.
Qed.

(** C4.  Whatever the clusterer decides, the row saved for a grievance
    that entered the pass as UNIQUE and without a match id is saved with
    [matched_grievance_id] NULL: the link to the primary, [clusteredWith],
    is never written to the database. *)
Theorem cluster_link_is_never_saved (grievances : list (grievance num))
    (thresholds : gmap string num) (after : list (grievance num)) (next_id : Z)
    (i : nat) (g : grievance num) :
  Dbscan.applyDBSCANClustering grievances thresholds = Returned (Some after) ->
  grievances !! i = Some g ->
  finalStatus g = UNIQUE -> globalMatchId g = None ->
  exists row,
    (saveGrievancesToDB after next_id).1 !! i = Some row
    /\ (duplicate_status row = UNIQUE \/ duplicate_status row = NEAR_DUPLICATE)
    /\ matched_grievance_id row = None.
Proof.
  intros Hrun Hi Hs Hm.
  destruct (applyDBSCANClustering_relabels _ _ _ Hrun i g Hi) as (g' & Hi' & Hm' & _ & Hs').
  eexists. split; [by apply saveGrievancesToDB_row|]. cbn.
  split; [destruct Hs' as [Hs'|[_ Hs']]; rewrite Hs'; auto|].
  by rewrite Hm', Hm.
Qed.

End ClusterLinks.

(** Three grievances on pages 1, 2 and 3, all UNIQUE after the pairwise
    passes, whose embeddings chain: cos(A,B) = cos(B,C) = 0.8 and
    cos(A,C) = 0.28. *)
Definition chained_point (page : nat) (x y : Q) : grievance float :=
  {| pdfName := "a.pdf"; pageNumber := page; processedText := "";
     embedding := [lit x; lit y]; finalStatus := UNIQUE;
     globalScore := Some (lit 0.4); localScore := None; globalMatchId := None;
     clusterId := None; clusterSize := 0; clusteredWith := None;
     clusterBasedMatch := false |}.

Definition chained_batch : list (grievance float) :=
  [chained_point 1 1 0; chained_point 2 0.8 0.6; chained_point 3 0.28 0.96].

(** On the machine: B and C are upgraded and linked to A in memory, their
    saved rows have no match id, and each then heads a cluster of its own. *)
Lemma cluster_link_witness :
  exists after,
    Dbscan.applyDBSCANClustering chained_batch thresholds_init = Returned (Some after)
    /\ (fun g => (finalStatus g, clusteredWith g)) <$> after
       = [(UNIQUE, None); (NEAR_DUPLICATE, Some 0); (NEAR_DUPLICATE, Some 0)]
    /\ (exists row, (saveGrievancesToDB after 101).1 !! 1 = Some row
                    /\ (duplicate_status row = UNIQUE \/ duplicate_status row = NEAR_DUPLICATE)
                    /\ matched_grievance_id row = None)
    /\ (fun row => (primary_grievance_id row, (cluster_members row).*1))
         <$> formDuplicateClusters (saveGrievancesToDB after 101).2
       = [(102%Z, [102%Z]); (103%Z, [103%Z])].
Proof.
  eexists. split; [vm_compute; reflexivity|]. split; [vm_compute; reflexivity|].
  split; [|vm_compute; reflexivity].
  eapply (cluster_link_is_never_saved chained_batch thresholds_init _ 101 1
            (chained_point 2 0.8 0.6)); [vm_compute|..]; reflexivity.
Defined.

(** On the same batch: the grievance of page 2 follows the primary in its
    cluster and leaves the pass as a NEAR_DUPLICATE. *)
Lemma cluster_upgrade_witness :
  exists after g',
    Dbscan.applyDBSCANClustering chained_batch thresholds_init = Returned (Some after)
    /\ after !! 1 = Some g' /\ finalStatus g' = NEAR_DUPLICATE.
Proof.
  assert (exists after, Dbscan.applyDBSCANClustering chained_batch thresholds_init
                        = Returned (Some after)) as [after Hrun]
    by (eexists; vm_compute; reflexivity).
  assert (exists result,
            Dbscan.dbscanCluster chained_batch
              (sub (lit 1) (opt_or_else (thresholds_init !! "near_duplicate") (lit 0.30))) 2
            = Returned (Some result)
            /\ [0; 1; 2] ∈ Dbscan.clusters result) as (result & Hdb & Hc)
    by (eexists; split; [vm_compute; reflexivity | apply list_elem_of_here]).
  destruct (cluster_upgrade_in_memory chained_batch thresholds_init after Hrun) as [_ Hup].
  destruct (Hup result [0; 1; 2] 0 [1; 2] 1 (chained_point 2 0.8 0.6)) as (g' & Hg' & Hs').
  - cbn. lia.
  - exact Hdb.
  - exact Hc.
  - vm_compute. reflexivity.
  - apply list_elem_of_here.
  - reflexivity.
  - reflexivity.
  - exists after, g'. split; [|split]; [exact Hrun | exact Hg' | exact Hs'].
Defined.

(** A batch of two grievances of one PDF, the second a LOCAL_DUPLICATE of
    the first: the first pass gives it the status DUPLICATE and no
    [globalMatchId]. *)
Definition local_duplicate_batch : list (grievance float) :=
  [ {| pdfName := "a.pdf"; pageNumber := 1; processedText := "water supply broken";
       embedding := [lit 1; lit 0]; finalStatus := UNIQUE;
       globalScore := None; localScore := Some (lit 0); globalMatchId := None;
       clusterId := None; clusterSize := 0; clusteredWith := None;
       clusterBasedMatch := false |};
    {| pdfName := "a.pdf"; pageNumber := 2; processedText := "water supply broken";
       embedding := [lit 1; lit 0]; finalStatus := DUPLICATE;
       globalScore := Some (lit 1); localScore := Some (lit 1); globalMatchId := None;
       clusterId := None; clusterSize := 0; clusteredWith := None;
       clusterBasedMatch := false |} ].

(** C5, counterexample.  The saved results of that batch form one cluster,
    headed by the duplicate itself and with the duplicate as its member. *)
Lemma local_duplicate_heads_its_own_cluster :
  exists row,
    row ∈ formDuplicateClusters (saveGrievancesToDB local_duplicate_batch 101).2
    /\ primary_grievance_id row = 102%Z
    /\ primary_grievance_id row ∈ (cluster_members row).*1.
Proof.
  eexists. split; [vm_compute; apply list_elem_of_here|].
  split; [reflexivity | cbn; apply list_elem_of_here].
Qed.

Lemma clusters_have_members_witness :
  exists row : cluster_row float,
    row ∈ formDuplicateClusters
            [ {| id := 11; saved_pageNumber := 1; saved_status := NEAR_DUPLICATE;
                 score := lit 0.7; matchedId := Some (Persisted 3) |};
              {| id := 12; saved_pageNumber := 2; saved_status := DUPLICATE;
                 score := lit 0.9; matchedId := Some (Persisted 3) |} ]
    /\ primary_grievance_id row = 3%Z
    /\ 1 <= length (cluster_members row)
    /\ member_count row = length (cluster_members row).
Proof.
  assert (exists row : cluster_row float,
            row ∈ formDuplicateClusters
                    [ {| id := 11; saved_pageNumber := 1; saved_status := NEAR_DUPLICATE;
                         score := lit 0.7; matchedId := Some (Persisted 3) |};
                      {| id := 12; saved_pageNumber := 2; saved_status := DUPLICATE;
                         score := lit 0.9; matchedId := Some (Persisted 3) |} ]
            /\ primary_grievance_id row = 3%Z) as (row & Hin & Hprimary).
  { eexists. split; [vm_compute; apply list_elem_of_here | reflexivity]. }
  exists row.
  destruct (clusters_have_members _ row Hin) as (Hmembers & Hcount & _). auto.
Defined.

End BatchProcessorFacts.

(** * Facts about the matcher *)

Module RegexFacts.
Import Js Regex.

(** Every character, for deciding a property of a character class. *)
Definition all_ascii : list ascii := ascii_of_nat <$> seq 0 256.

Lemma elem_of_all_ascii (c : ascii) : c ∈ all_ascii.
Proof.
  unfold all_ascii. apply list_elem_of_fmap. exists (nat_of_ascii c).
  split; [by rewrite ascii_nat_embedding|].
  apply elem_of_seq. pose proof (nat_ascii_bounded c). lia.
Qed.

(** Every character of the class [p] satisfies [q]. *)
Definition class_within (p q : ascii -> bool) : bool :=
  forallb (fun c => implb (p c) (q c)) all_ascii.

Lemma class_within_spec (p q : ascii -> bool) (c : ascii) :
  class_within p q = true -> p c = true -> q c = true.
Proof.
  unfold class_within. rewrite forallb_forall. intros Hall Hp.
  specialize (Hall c (proj1 (list_elem_of_In _ _) (elem_of_all_ascii c))).
  by rewrite Hp in Hall.
Qed.

(** Every match of [r] consumes a character that satisfies [q]. *)
Fixpoint needs (q : ascii -> bool) (r : regex) : bool :=
  match r with
  | Char p => class_within p q
  | Seq r1 r2 => needs q r1 || needs q r2
  | Alt r1 r2 => needs q r1 && needs q r2
  | Repeat lo _ p => (0 <? lo)%nat && class_within p q
  | _ => false
  end.

(** The matcher answers only through its continuation, which it calls on
    suffixes of the input. *)
Lemma repeat_greedy_fails (p : ascii -> bool) (lo : nat) (hi : option nat)
    (prev : option ascii) (s : list ascii) (n : nat)
    (k : option ascii -> list ascii -> nat -> option nat) :
  (forall prev' s' n', s' `suffix_of` s -> k prev' s' n' = None) ->
  repeat_greedy p lo hi prev s n k = None.
Proof.
  revert lo hi prev n. induction s as [|c s IH]; intros lo hi prev n Hk; cbn.
  - destruct (lo =? 0)%nat; [by apply Hk|done].
  - assert ((if (lo =? 0)%nat then k prev (c :: s) n else None) = None) as ->.
    { destruct (lo =? 0)%nat; [by apply Hk|done]. }
    destruct (p c && may_repeat hi); [|done].
    rewrite IH; [done|]. intros prev' s' n' Hs. apply Hk. by apply suffix_cons_r.
Qed.

Lemma run_fails (r : regex) (prev : option ascii) (s : list ascii) (n : nat)
    (k : option ascii -> list ascii -> nat -> option nat) :
  (forall prev' s' n', s' `suffix_of` s -> k prev' s' n' = None) ->
  run r prev s n k = None.
Proof.
  revert prev s n k. induction r as [|p|r1 IH1 r2 IH2|r1 IH1 r2 IH2|r1 IH1|lo hi p| |];
    intros prev s n k Hk; cbn.
  - by apply Hk.
  - destruct s as [|c s]; [done|]. destruct (p c); [|done].
    apply Hk. apply suffix_cons_r. done.
  - apply IH1. intros prev' s' n' Hs. apply IH2.
    intros prev'' s'' n'' Hs'. apply Hk. by etransitivity.
  - rewrite IH1 by done. by apply IH2.
  - rewrite IH1 by done. by apply Hk.
  - by apply repeat_greedy_fails.
  - destruct (xorb _ _); [by apply Hk|done].
  - destruct s; [by apply Hk|done].
Qed.

Lemma repeat_greedy_needs (q p : ascii -> bool) (lo : nat) (hi : option nat)
    (prev : option ascii) (s : list ascii) (n : nat)
    (k : option ascii -> list ascii -> nat -> option nat) :
  (0 <? lo)%nat = true -> class_within p q = true ->
  (forall c, c ∈ s -> q c = false) ->
  repeat_greedy p lo hi prev s n k = None.
Proof.
  intros Hlo Hpq Hs. apply Nat.ltb_lt in Hlo.
  destruct s as [|c s]; cbn.
  - destruct lo; [lia|done].
  - destruct lo as [|lo]; [lia|]. cbn.
    destruct (p c) eqn:Hp; [|done].
    apply (class_within_spec p q c Hpq) in Hp.
    rewrite (Hs c) in Hp; [done|]. apply list_elem_of_here.
Qed.

Lemma run_needs (q : ascii -> bool) (r : regex) (prev : option ascii)
    (s : list ascii) (n : nat) (k : option ascii -> list ascii -> nat -> option nat) :
  needs q r = true -> (forall c, c ∈ s -> q c = false) ->
  run r prev s n k = None.
Proof.
  revert prev s n k. induction r as [|p|r1 IH1 r2 IH2|r1 IH1 r2 IH2|r1 IH1|lo hi p| |];
    intros prev s n k Hneeds Hs; cbn in *; try done.
  - destruct s as [|c s]; [done|]. destruct (p c) eqn:Hp; [|done].
    apply (class_within_spec p q c Hneeds) in Hp.
    rewrite (Hs c) in Hp; [done|]. apply list_elem_of_here.
  - apply orb_true_iff in Hneeds as [H1|H2].
    + by apply IH1.
    + apply run_fails. intros prev' s' n' Hsuffix. apply IH2; [done|].
      intros c Hc. apply Hs. destruct Hsuffix as [l ->]. apply elem_of_app. by right.
  - apply andb_true_iff in Hneeds as [H1 H2]. rewrite IH1 by done. by apply IH2.
  - apply andb_true_iff in Hneeds as [Hlo Hpq]. by apply (repeat_greedy_needs q).
Qed.

(** A pattern that matches at no position of the text leaves it unchanged. *)
Lemma replace_all_no_match (r : regex) (by_ : list ascii) (prev : option ascii)
    (s : list ascii) :
  (forall prev' s', s' `suffix_of` s -> match_here r prev' s' = None) ->
  replace_all r by_ prev s 0 = s.
Proof.
  revert prev. induction s as [|c s IH]; intros prev Hno; cbn.
  - by rewrite Hno.
  - rewrite Hno by done. f_equal. apply IH.
    intros prev' s' Hs. apply Hno. by apply suffix_cons_r.
Qed.

Lemma replace_all_needs (q : ascii -> bool) (r : regex) (by_ : list ascii)
    (prev : option ascii) (s : list ascii) :
  needs q r = true -> (forall c, c ∈ s -> q c = false) ->
  replace_all r by_ prev s 0 = s.
Proof.
  intros Hneeds Hs. apply replace_all_no_match. intros prev' s' Hsuffix.
  apply (run_needs q); [done|]. intros c Hc. apply Hs.
  destruct Hsuffix as [l ->]. apply elem_of_app. by right.
Qed.

End RegexFacts.

(** * Normal forms of the text pipeline *)

Module TextFacts.
Import Js Regex RegexFacts TextPreprocessing.

Abbreviation chars := list_ascii_of_string.

(** A character of a token: a lower-case letter or a digit. *)
Definition plain (c : ascii) : bool := is_lower c || is_digit c.

Definition plain_or_space (c : ascii) : bool := plain c || is_space c.

(** The number of digits the text starts with, and whether some position
    of it starts 10 digits or more. *)
Fixpoint digit_run (s : list ascii) : nat :=
  match s with
  | c :: s' => if is_digit c then S (digit_run s') else 0
  | [] => 0
  end.

Fixpoint long_digit_run (s : list ascii) : bool :=
  (10 <=? digit_run s)%nat
  || match s with
     | _ :: s' => long_digit_run s'
     | [] => false
     end.

(** A token that no stage rewrites: lower-case letters and digits, kept by
    [removeStopwords] (no stop word, two characters or more), and mapped
    to itself by [lemmatizeWord]. *)
Definition settled (word : string) : bool :=
  forallb plain (chars word) && keep_word word
  && String.eqb (lemmatizeWord word) word.

(** A text in normal form: empty, or settled tokens separated by single
    spaces, without a run of 10 digits. *)
Definition normal_form (text : string) : bool :=
  negb (nonempty text)
  || (forallb settled (split_space text) && negb (long_digit_run (chars text))).

(** ** Characters *)

Lemma plain_or_space_not_upper (c : ascii) :
  plain_or_space c = true -> is_upper c = false.
Proof.
  intros Hc. apply negb_true_iff.
  apply (class_within_spec plain_or_space (fun c => negb (is_upper c)) c); [|done].
  vm_compute. reflexivity.
Qed.

Lemma plain_or_space_white (c : ascii) :
  plain_or_space c = true -> is_white c = is_space c.
Proof.
  intros Hc.
  apply (class_within_spec plain_or_space
           (fun c => Bool.eqb (is_white c) (is_space c)) c) in Hc.
  - by apply Bool.eqb_prop.
  - vm_compute. reflexivity.
Qed.

Lemma plain_not_space (c : ascii) : plain c = true -> is_space c = false.
Proof.
  intros Hc. apply negb_true_iff.
  apply (class_within_spec plain (fun c => negb (is_space c)) c); [|done].
  vm_compute. reflexivity.
Qed.

Lemma toLowerCase_plain (text : string) :
  forallb plain_or_space (chars text) = true -> toLowerCase text = text.
Proof.
  induction text as [|c text IH]; cbn; [done|].
  intros [Hc Htext]%andb_true_iff. rewrite IH by done.
  unfold lower_char. by rewrite plain_or_space_not_upper.
Qed.

(** ** Splitting and joining *)

Lemma split_where_cons (sep : ascii -> bool) (text : string) :
  exists w ws, split_where sep text = w :: ws.
Proof.
  induction text as [|c text (w & ws & IH)]; cbn; [by eexists _, _|].
  destruct (sep c); [by eexists _, _|]. rewrite IH. by eexists _, _.
Qed.

Lemma join_split (text : string) : join_space (split_space text) = text.
Proof.
  unfold split_space. induction text as [|c text IH]; cbn; [done|].
  destruct (split_where_cons is_space text) as (w & ws & Hs).
  rewrite Hs in *. destruct (is_space c) eqn:Hc.
  - apply Ascii.eqb_eq in Hc as ->.
    change (join_space (EmptyString :: w :: ws)) with (String " " (join_space (w :: ws))).
    by rewrite IH.
  - destruct ws as [|w' ws].
    + cbn in *. by rewrite IH.
    + change (join_space (String c w :: w' :: ws))
        with (String c (join_space (w :: w' :: ws))).
      by rewrite IH.
Qed.

(** Every character of a text is a space or a character of a token. *)
Lemma chars_of_tokens (p : ascii -> bool) (text : string) :
  (forall w, w ∈ split_space text -> forallb p (chars w) = true) ->
  forallb (fun c => p c || is_space c) (chars text) = true.
Proof.
  unfold split_space. induction text as [|c text IH]; intros Hp; cbn; [done|].
  destruct (split_where_cons is_space text) as (w & ws & Hs).
  cbn in Hp. rewrite Hs in *. destruct (is_space c) eqn:Hc.
  - rewrite orb_true_r. cbn. apply IH. intros w' Hw'. apply Hp. by apply list_elem_of_further.
  - specialize (Hp (String c w) (list_elem_of_here _ _)) as Hcw. cbn in Hcw.
    apply andb_true_iff in Hcw as [-> Hw]. cbn. apply IH.
    intros w' [->|Hw']%elem_of_cons; [done|]. apply Hp. by apply list_elem_of_further.
Qed.

(** Spaces stand alone and between characters: none is first, last, or
    next to another one. *)
Fixpoint spaced (s : list ascii) : bool :=
  match s with
  | c :: s' =>
      (if is_space c
       then match s' with
            | d :: _ => negb (is_space d)
            | [] => false
            end
       else true) && spaced s'
  | [] => true
  end.

Definition starts_solid (s : list ascii) : bool :=
  match s with
  | c :: _ => negb (is_space c)
  | [] => false
  end.

Lemma spaced_of_tokens (text : string) (w : string) (ws : list string) :
  split_space text = w :: ws -> Forall (fun w => nonempty w = true) ws ->
  spaced (chars text) = true
  /\ (nonempty w = true -> starts_solid (chars text) = true).
Proof.
  unfold split_space. revert w ws. induction text as [|c text IH]; intros w ws; cbn.
  - intros [= <- <-] _. done.
  - destruct (split_where_cons is_space text) as (w' & ws' & Hs). rewrite Hs.
    destruct (is_space c) eqn:Hc.
    + intros [= <- <-] [Hw' Hws']%Forall_cons.
      destruct (IH w' ws' Hs Hws') as [Hspaced Hstart]. specialize (Hstart Hw').
      split; [|done]. rewrite Hspaced, andb_true_r.
      by destruct (chars text).
    + intros [= <- <-] Hws'. destruct (IH w' ws' Hs Hws') as [Hspaced _].
      by rewrite Hspaced.
Qed.

(** ** The sweeps leave a normal form unchanged *)

Lemma sweep_unchanged (pattern : regex) (text : string) :
  replace_all pattern [" "%char] None (chars text) 0 = chars text ->
  sweep pattern text = text.
Proof. intros H. unfold sweep. rewrite H. apply string_of_list_ascii_of_string. Qed.

Lemma forallb_elem (p : ascii -> bool) (s : list ascii) (c : ascii) :
  forallb p s = true -> c ∈ s -> p c = true.
Proof.
  rewrite forallb_forall. intros Hall Hc. apply Hall. by apply list_elem_of_In.
Qed.

Lemma sweep_needs (q : ascii -> bool) (pattern : regex) (text : string) :
  needs q pattern = true ->
  class_within plain_or_space (fun c => negb (q c)) = true ->
  forallb plain_or_space (chars text) = true ->
  sweep pattern text = text.
Proof.
  intros Hneeds Hq Htext. apply sweep_unchanged, (replace_all_needs q); [done|].
  intros c Hc. apply negb_true_iff.
  apply (class_within_spec plain_or_space _ c Hq). by apply (forallb_elem _ (chars text)).
Qed.

Lemma repeat_greedy_short (lo : nat) (hi : option nat) (prev : option ascii)
    (s : list ascii) (n : nat) (k : option ascii -> list ascii -> nat -> option nat) :
  digit_run s < lo -> repeat_greedy is_digit lo hi prev s n k = None.
Proof.
  revert lo hi prev n. induction s as [|c s IH]; intros lo hi prev n Hrun; cbn in *.
  - destruct lo; [lia|done].
  - destruct lo as [|lo]; [lia|]. cbn. destruct (is_digit c); [|done].
    destruct (may_repeat hi); [|done]. cbn. rewrite IH; [done|lia].
Qed.

Lemma digit_run_suffix (s s' : list ascii) :
  long_digit_run s = false -> s' `suffix_of` s -> digit_run s' < 10.
Proof.
  intros Hs [l ->]. induction l as [|c l IH]; cbn in Hs.
  - destruct s' as [|c s']; [cbn; lia|].
    cbn [app long_digit_run] in Hs. apply orb_false_iff in Hs as [Hrun _].
    by apply Nat.leb_gt in Hrun.
  - apply orb_false_iff in Hs as [_ Hs]. by apply IH.
Qed.

Lemma phone_sweep_unchanged (text : string) :
  forallb plain_or_space (chars text) = true ->
  long_digit_run (chars text) = false ->
  removePhoneNumbers text = text.
Proof.
  intros Htext Hrun. apply sweep_unchanged, replace_all_no_match.
  intros prev s Hs.
  assert (forall c, c ∈ s -> plain_or_space c = true) as Hplain.
  { intros c Hc. apply (forallb_elem _ (chars text)); [done|].
    destruct Hs as [l ->]. apply elem_of_app. by right. }
  pose proof (digit_run_suffix (chars text) s Hrun Hs) as Hshort.
  unfold match_here, phonePattern. cbn [run].
  destruct s as [|c s]; [done|].
  specialize (Hplain c (list_elem_of_here _ _)).
  assert (Ascii.eqb "+"%char c = false) as ->.
  { apply negb_true_iff.
    by apply (class_within_spec plain_or_space (fun c => negb (Ascii.eqb "+"%char c)) c). }
  assert (Ascii.eqb "("%char c = false) as ->.
  { apply negb_true_iff.
    by apply (class_within_spec plain_or_space (fun c => negb (Ascii.eqb "("%char c)) c). }
  by rewrite repeat_greedy_short.
Qed.

Lemma whitespace_sweep_unchanged (prev : option ascii) (s : list ascii) :
  forallb plain_or_space s = true -> spaced s = true ->
  replace_all (Repeat 1 None is_white) [" "%char] prev s 0 = s.
Proof.
  revert prev. induction s as [|c s IH]; intros prev Hs Hspaced; [done|].
  cbn in Hs, Hspaced. apply andb_true_iff in Hs as [Hc Hs].
  apply andb_true_iff in Hspaced as [Hsp Hspaced].
  pose proof (plain_or_space_white c Hc) as Hwhite.
  cbn [replace_all match_here run repeat_greedy]. rewrite Hwhite.
  destruct (is_space c) eqn:Hspace.
  - apply Ascii.eqb_eq in Hspace as ->.
    destruct s as [|d s]; [done|]. apply negb_true_iff in Hsp.
    cbn in Hs. apply andb_true_iff in Hs as [Hd Hs'].
    cbn [andb may_repeat Nat.pred fmap option_fmap option_map repeat_greedy Nat.eqb].
    rewrite (plain_or_space_white d Hd), Hsp. cbn [andb app].
    f_equal. apply IH; [|done]. cbn. by rewrite Hd.
  - cbn. f_equal. by apply IH.
Qed.

Lemma trim_start_solid (s : list ascii) :
  forallb plain_or_space s = true -> starts_solid s = true -> trim_start s = s.
Proof.
  destruct s as [|c s]; [done|]. cbn. intros [Hc _]%andb_true_iff Hsolid%negb_true_iff.
  by rewrite (plain_or_space_white c Hc), Hsolid.
Qed.

(** A spaced text does not end in a space. *)
Lemma spaced_rev_solid (s : list ascii) :
  spaced s = true -> s <> [] -> starts_solid (rev s) = true.
Proof.
  induction s as [|c s IH]; [done|]. intros [Hc Hs]%andb_true_iff _.
  destruct s as [|d s].
  - cbn. by destruct (is_space c).
  - specialize (IH Hs ltac:(done)). cbn [rev] in *.
    by destruct (rev s ++ [d]) as [|x l].
Qed.

Lemma trim_unchanged (text : string) :
  forallb plain_or_space (chars text) = true ->
  spaced (chars text) = true -> starts_solid (chars text) = true ->
  trim text = text.
Proof.
  intros Htext Hspaced Hstart. unfold trim.
  rewrite (trim_start_solid _ Htext Hstart).
  rewrite trim_start_solid.
  - by rewrite rev_involutive, string_of_list_ascii_of_string.
  - rewrite forallb_forall in *. intros c Hc. apply Htext. by apply in_rev.
  - apply spaced_rev_solid; [done|]. by destruct (chars text).
Qed.

(** ** The pipeline on a normal form *)

Lemma filter_all {A : Type} (f : A -> bool) (l : list A) :
  forallb f l = true -> List.filter f l = l.
Proof.
  induction l as [|x l IH]; cbn; [done|].
  intros [-> Hl]%andb_true_iff. by rewrite IH.
Qed.

Lemma fmap_fixed {A : Type} (f : A -> A) (l : list A) :
  (forall x, x ∈ l -> f x = x) -> f <$> l = l.
Proof.
  induction l as [|x l IH]; intros Hf; cbn; [done|].
  rewrite Hf by apply list_elem_of_here. rewrite IH; [done|].
  intros y Hy. apply Hf. by apply list_elem_of_further.
Qed.

Lemma settled_token (word : string) :
  settled word = true ->
  forallb plain (chars word) = true /\ keep_word word = true
  /\ lemmatizeWord word = word /\ nonempty word = true.
Proof.
  unfold settled. intros [[Hplain Hkeep]%andb_true_iff Hlemma%String.eqb_eq]%andb_true_iff.
  repeat split; try done. unfold keep_word in Hkeep.
  apply andb_true_iff in Hkeep as [_ Hlen%Nat.ltb_lt]. apply Nat.ltb_lt. lia.
Qed.

(** Every stage of the pipeline maps a text in normal form to itself. *)
Theorem normal_form_is_fixed (text : string) :
  normal_form text = true -> preprocessText text = text.
Proof.
  unfold normal_form, preprocessText. destruct (nonempty text) eqn:Hne; cbn [negb orb].
  - intros [Htokens Hrun%negb_true_iff]%andb_true_iff.
    rewrite forallb_forall in Htokens.
    assert (forall w, w ∈ split_space text -> settled w = true) as Hsettled.
    { intros w Hw. apply Htokens. by apply list_elem_of_In. }
    assert (forallb plain_or_space (chars text) = true) as Hchars.
    { apply (chars_of_tokens plain). intros w Hw. by apply settled_token, Hsettled. }
    destruct (split_where_cons is_space text) as (w & ws & Hsplit).
    fold (split_space text) in Hsplit.
    destruct (spaced_of_tokens text w ws Hsplit) as [Hspaced Hstart].
    { apply Forall_forall. intros w' Hw'. apply settled_token, Hsettled.
      rewrite Hsplit. by apply list_elem_of_further. }
    specialize (Hstart (proj2 (proj2 (proj2 (settled_token w
                  (Hsettled w ltac:(rewrite Hsplit; apply list_elem_of_here))))))).
    unfold normalizeUnicode. rewrite (toLowerCase_plain text Hchars).
    unfold removeUrls. rewrite (sweep_needs (Ascii.eqb ":"%char)) by (done || by vm_compute).
    unfold removeEmails. rewrite (sweep_needs (Ascii.eqb "@"%char)) by (done || by vm_compute).
    rewrite (phone_sweep_unchanged text Hchars Hrun).
    unfold removeSpecialChars.
    rewrite (sweep_needs (fun c => negb (is_lower c || is_digit c || is_white c)))
      by (done || by vm_compute).
    unfold normalizeWhitespace.
    rewrite (sweep_unchanged _ text (whitespace_sweep_unchanged None _ Hchars Hspaced)).
    rewrite (trim_unchanged text Hchars Hspaced Hstart).
    unfold removeStopwords. rewrite filter_all, join_split.
    + unfold simpleLemmatization. rewrite fmap_fixed, join_split.
      * apply (trim_unchanged text Hchars Hspaced Hstart).
      * intros w' Hw'. by apply settled_token, Hsettled.
    + apply forallb_forall. intros w' Hw'. apply settled_token, Hsettled.
      by apply list_elem_of_In.
  - intros _. destruct text; [done|discriminate].
Qed.

(** C8, as amended.  Applying the pipeline twice gives what applying it
    once gives, for every text whose result is in normal form: tokens of
    lower-case letters and digits, two characters or longer, that are no
    stop words and that the lemmatizer maps to themselves, separated by
    single spaces and without a run of 10 digits. *)
Theorem preprocessText_idempotent_on_settled_results (x : string) :
  normal_form (preprocessText x) = true ->
  preprocessText (preprocessText x) = preprocessText x.
Proof. apply normal_form_is_fixed. Qed.

Lemma preprocessText_idempotent_witness :
  preprocessText (preprocessText "The road near the market is broken!")
  = preprocessText "The road near the market is broken!".
Proof.
  apply (preprocessText_idempotent_on_settled_results
           "The road near the market is broken!").
  vm_compute. reflexivity.
Defined.

(** C8, counterexample.  The lemmatizer strips one suffix per pass: "class"
    becomes "clas", and "clas" becomes "cla". *)
Lemma preprocessText_is_not_idempotent :
  preprocessText "class" = "clas"
  /\ preprocessText (preprocessText "class") = "cla"
  /\ preprocessText (preprocessText "class") <> preprocessText "class".
Proof.
  split; [vm_compute; reflexivity|]. split; [vm_compute; reflexivity|].
  vm_compute. discriminate.
Qed.

End TextFacts.

(** * More properties of the adaptive thresholds *)

Module CalibrationFacts.
Import AdaptiveThreshold AdaptiveThresholdFacts.

(** ** What a feedback event leaves alone *)

Lemma pick_adjustment_threshold {num : Type} {N : Number num} (f : feedback) (k : string) (adj : num) :
  pick_adjustment f = Some (k, adj) -> k = "duplicate" \/ k = "near_duplicate".
Proof.
  unfold pick_adjustment. intros Hp.
  repeat (destruct (_ && _) in Hp; [injection Hp as <- _; auto|]). done.
Qed.

(** A feedback event never changes a row other than [duplicate] and
    [near_duplicate]: the four weights and what a batch reads for them stay
    as they were. *)
Theorem feedback_leaves_weights_alone {num : Type} {N : Number num} (f : feedback)
    (t : gmap string (threshold_row num)) (k : string) :
  k <> "duplicate" -> k <> "near_duplicate" ->
  table_after f t !! k = t !! k /\ stored k (table_after f t) = stored k t.
Proof.
  intros Hd Hn.
  assert (table_after f t !! k = t !! k) as Hrow.
  { destruct (pick_adjustment f) as [[k' adj]|] eqn:Hp.
    - assert (k' <> k) as Hne
        by (destruct (pick_adjustment_threshold f k' adj Hp); congruence).
      destruct (t !! k') as [r|] eqn:Hk'.
      + rewrite (table_after_adjusts f t k' adj r Hp Hk'). by apply update_current_other.
      + by rewrite (table_after_no_row f t k' adj Hp Hk').
    - by rewrite table_after_no_transition. }
  split; [done|]. unfold stored. by rewrite !getAdaptiveThresholds_lookup, Hrow.
Qed.

Lemma feedback_leaves_weights_alone_witness :
  table_after {| originalStatus := "UNIQUE"; correctedStatus := "DUPLICATE" |}
              (seed_table (num := float)) !! "cosine_weight"
  = seed_table !! "cosine_weight".
Proof.
  apply (feedback_leaves_weights_alone
           {| originalStatus := "UNIQUE"; correctedStatus := "DUPLICATE" |}
           (seed_table (num := float)) "cosine_weight"); discriminate.
Defined.

(** The object the update returns and the store: with the row of the
    adjusted kind present, the returned object is what the next read gives. *)
Theorem returned_thresholds_are_the_next_read {num : Type} {N : Number num}
    (f : feedback)
    (t t' : gmap string (threshold_row num)) (k : string) (adj : num)
    (r : threshold_row num) (returned : gmap string num) :
  pick_adjustment f = Some (k, adj) -> t !! k = Some r ->
  updateThresholdsFromFeedback f (Returned t) = Returned (returned, Returned t') ->
  returned = getAdaptiveThresholds (Returned t')
  /\ t' !! k = Some {| current_value := clamped r adj; min_value := min_value r;
                       max_value := max_value r;
                       adjustment_count := S (adjustment_count r) |}.
Proof.
  intros Hp Hk. unfold updateThresholdsFromFeedback.
  rewrite Hp, getAdaptiveThresholds_lookup, Hk. cbn [mbind option_bind].
  intros [= <- <-]. split; [|by apply update_current_lookup].
  apply map_eq. intros i. rewrite (getAdaptiveThresholds_lookup (update_current _ _ _)).
  destruct (decide (k = i)) as [<-|Hne].
  - rewrite lookup_insert_eq, (update_current_lookup _ _ _ _ Hk). done.
  - rewrite lookup_insert_ne, update_current_other by done.
    apply getAdaptiveThresholds_lookup.
Qed.

Lemma returned_thresholds_witness :
  exists returned t',
    updateThresholdsFromFeedback
      {| originalStatus := "DUPLICATE"; correctedStatus := "UNIQUE" |}
      (Returned (seed_table (num := float))) = Returned (returned, Returned t')
    /\ returned = getAdaptiveThresholds (Returned t').
Proof.
  eexists _, _. split; [reflexivity|].
  eapply (returned_thresholds_are_the_next_read
            {| originalStatus := "DUPLICATE"; correctedStatus := "UNIQUE" |}
            (seed_table (num := float)) _ "duplicate" _ (seed_row 0.85 0.75 0.95));
    reflexivity.
Defined.

(** Without a row for the adjusted kind the update is lost: the function
    returns the adjusted default, the UPDATE statement matches no row, and
    the next read gives the default again. *)
Theorem update_without_row_is_lost {num : Type} {N : Number num} (f : feedback)
    (t : gmap string (threshold_row num)) (k : string) (adj : num) :
  pick_adjustment f = Some (k, adj) -> t !! k = None ->
  exists v,
    thresholds_init !! k = Some v
    /\ updateThresholdsFromFeedback f (Returned t)
       = Returned (<[k := max (lit 0.3) (min (lit 0.95) (add v adj))]>
                     (getAdaptiveThresholds (Returned t)),
                   Returned t)
    /\ stored k (table_after f t) = Some v.
Proof.
  intros Hp Hk.
  assert (exists v, thresholds_init (num := num) !! k = Some v) as [v Hv]
    by (destruct (pick_adjustment_threshold f k adj Hp) as [-> | ->]; by eexists).
  exists v. split; [done|]. split.
  - unfold updateThresholdsFromFeedback.
    rewrite Hp, getAdaptiveThresholds_lookup, Hk, Hv. cbn [mbind option_bind opt_or_else].
    do 3 f_equal. unfold update_current. apply map_eq. intros i.
    destruct (decide (k = i)) as [<-|Hne].
    + by rewrite lookup_alter_eq, Hk.
    + by rewrite lookup_alter_ne.
  - rewrite (table_after_no_row f t k adj Hp Hk). unfold stored.
    by rewrite getAdaptiveThresholds_lookup, Hk.
Qed.

Lemma update_without_row_witness :
  stored "duplicate"
    (table_after {| originalStatus := "UNIQUE"; correctedStatus := "DUPLICATE" |}
                 (∅ : gmap string (threshold_row float)))
  = Some (lit 0.60).
Proof.
  destruct (update_without_row_is_lost
              {| originalStatus := "UNIQUE"; correctedStatus := "DUPLICATE" |}
              (∅ : gmap string (threshold_row float)) "duplicate" (opp LEARNING_RATE)
              eq_refl (lookup_empty _)) as (v & Hv & _ & Hs).
  rewrite Hs, <- Hv. reflexivity.
Defined.

(** ** The classifier and the weighted score, in exact arithmetic *)

Section RealCalibration.
Local Open Scope R_scope.

(** UNIQUE < NEAR_DUPLICATE < DUPLICATE. *)
Definition rank (s : status) : nat :=
  match s with UNIQUE => 0 | NEAR_DUPLICATE => 1 | DUPLICATE => 2 end.

(** A higher score is never classified lower, whatever the thresholds are
    (in order or not, present or missing). *)
Theorem classification_is_monotone (score1 score2 : R) (thresholds : gmap string R) :
  score1 <= score2 ->
  (rank (classifyWithAdaptiveThresholds score1 thresholds)
   <= rank (classifyWithAdaptiveThresholds score2 thresholds))%nat.
Proof.
  intros Hle. unfold classifyWithAdaptiveThresholds, at_least, geb.
  cbn [leb real_number].
  destruct (thresholds !! "duplicate") as [d|], (thresholds !! "near_duplicate") as [n|];
    repeat case_bool_decide; cbn; lia || lra.
Qed.

Lemma classification_is_monotone_witness :
  (rank (classifyWithAdaptiveThresholds (Q2R 0.62) (thresholds_init (num := R)))
   <= rank (classifyWithAdaptiveThresholds (Q2R 0.91) (thresholds_init (num := R))))%nat.
Proof.
  apply (classification_is_monotone (Q2R 0.62) (Q2R 0.91) thresholds_init).
  unfold Q2R. cbn. lra.
Defined.

Definition duplicate_to_unique : feedback :=
  {| originalStatus := "DUPLICATE"; correctedStatus := "UNIQUE" |}.

(** A UNIQUE -> DUPLICATE correction followed by a DUPLICATE -> UNIQUE
    correction, on a table with a [duplicate] row.  With [lo] the
    [min_value] of the row, or 0.3 when that is null or 0, and [hi] its
    [max_value], or 0.95 when that is null or 0, the first correction
    stores [down = max lo (min hi (v - 0.05))] and the second
    [back = max lo (min hi (down + 0.05))]; the bounds stay and the count
    grows by two.  So the value comes back to [v] when [lo <= v - 0.05] and
    [v <= hi]; when the first step is cut at [lo] it ends at [lo + 0.05],
    or at [hi] when the bounds are closer than that. *)
Theorem opposite_corrections_cancel (t : gmap string (threshold_row R))
    (r : threshold_row R) :
  t !! "duplicate" = Some r ->
  let v := current_value r in
  let lo := or_default (min_value r) 0.3 in
  let hi := or_default (max_value r) 0.95 in
  let down := Rmax lo (Rmin hi (v - 0.05)) in
  let back := Rmax lo (Rmin hi (down + 0.05)) in
  table_after unique_to_duplicate t !! "duplicate"
  = Some {| current_value := down; min_value := min_value r;
            max_value := max_value r; adjustment_count := S (adjustment_count r) |}
  /\ table_after duplicate_to_unique (table_after unique_to_duplicate t) !! "duplicate"
     = Some {| current_value := back; min_value := min_value r;
               max_value := max_value r;
               adjustment_count := S (S (adjustment_count r)) |}
  /\ (lo <= v - 0.05 -> v <= hi -> back = v)
  /\ (v - 0.05 < lo -> lo + 0.05 <= hi -> back = lo + 0.05 /\ back <> v)
  /\ (v - 0.05 < lo -> lo <= hi <= lo + 0.05 -> back = hi)
  /\ (hi < lo -> back = lo).
Proof.
  intros Hk v lo hi down back.
  assert (forall r' adj, clamped r' adj
            = Rmax (or_default (min_value r') 0.3)
                   (Rmin (or_default (max_value r') 0.95) (current_value r' + adj)))
    as Hclamped.
  { intros r' adj. unfold clamped. rewrite !real_or_default.
    replace (lit 0.3%Q : R) with 0.3 by (cbn; unfold Q2R; cbn; lra).
    replace (lit 0.95%Q : R) with 0.95 by (cbn; unfold Q2R; cbn; lra).
    reflexivity. }
  assert (forall x, x + opp (LEARNING_RATE (num := R)) = x - 0.05) as Hdown
    by (intros x; cbn; unfold Q2R; cbn; lra).
  assert (LEARNING_RATE (num := R) = 0.05) as Hup by (cbn; unfold Q2R; cbn; lra).
  assert (table_after unique_to_duplicate t !! "duplicate"
          = Some {| current_value := down; min_value := min_value r;
                    max_value := max_value r;
                    adjustment_count := S (adjustment_count r) |}) as H1.
  { rewrite (table_after_adjusts unique_to_duplicate t "duplicate" _ r eq_refl Hk).
    rewrite (update_current_lookup _ _ _ _ Hk). by rewrite Hclamped, Hdown. }
  split; [exact H1|]. split.
  { rewrite (table_after_adjusts duplicate_to_unique _ "duplicate" _ _ eq_refl H1).
    rewrite (update_current_lookup _ _ _ _ H1). cbn [min_value max_value adjustment_count].
    by rewrite Hclamped, Hup. }
  unfold back, down, Rmax, Rmin.
  repeat split; intros; repeat destruct (Rle_dec _ _); lra.
Qed.

Lemma opposite_corrections_witness :
  (exists back,
     table_after duplicate_to_unique
       (table_after unique_to_duplicate {["duplicate" := seed_row 0.85 0.75 0.95]})
       !! "duplicate"
     = Some {| current_value := back; min_value := Some (Q2R 0.75);
               max_value := Some (Q2R 0.95); adjustment_count := 2 |}
     /\ back = Q2R 0.85)
  /\ (exists back,
        table_after duplicate_to_unique
          (table_after unique_to_duplicate
             {["duplicate" := {| current_value := 0.2; min_value := Some 0;
                                 max_value := Some 0.95; adjustment_count := 0 |}]})
          !! "duplicate"
        = Some {| current_value := back; min_value := Some 0;
                  max_value := Some 0.95; adjustment_count := 2 |}
        /\ back = 0.35).
Proof.
  assert (forall x d : R, x <> 0 -> or_default (Some x) d = x) as Hsome.
  { intros x d Hx. cbn. by destruct (Req_dec_T x 0). }
  assert (forall d : R, or_default (Some 0) d = d) as Hzero.
  { intros d. cbn. by destruct (Req_dec_T 0 0). }
  split.
  - assert (({["duplicate" := seed_row 0.85 0.75 0.95]} : gmap string (threshold_row R))
            !! "duplicate" = Some (seed_row 0.85 0.75 0.95)) as Hk by reflexivity.
    destruct (opposite_corrections_cancel _ _ Hk) as (_ & Hrow & Hsame & _).
    eexists. split; [exact Hrow|]. cbn [seed_row current_value] in Hsame.
    apply Hsame; cbn [seed_row min_value max_value lit real_number];
      rewrite Hsome; unfold Q2R; cbn; lra.
  - assert (({["duplicate" := {| current_value := 0.2; min_value := Some 0;
                                   max_value := Some 0.95; adjustment_count := 0 |}]}
             : gmap string (threshold_row R)) !! "duplicate"
            = Some {| current_value := 0.2; min_value := Some 0;
                      max_value := Some 0.95; adjustment_count := 0 |}) as Hk
      by reflexivity.
    destruct (opposite_corrections_cancel _ _ Hk) as (_ & Hrow & _ & Hcut & _).
    eexists. split; [exact Hrow|]. cbn [current_value min_value max_value] in Hcut |- *.
    rewrite Hzero, Hsome in Hcut by lra. rewrite Hzero, Hsome by lra.
    destruct Hcut as [Hcut _]; lra.
Defined.

(** [Math.round] keeps a number between two integers between them. *)
Lemma Rround_between (x : R) (a b : Z) :
  IZR a <= x <= IZR b -> IZR a <= Rround x <= IZR b.
Proof.
  intros [Ha Hb]. unfold Rround.
  destruct (base_Int_part (x + / 2)) as [Hlow Hup].
  split; apply IZR_le.
  - assert (IZR a - 1 < IZR (Int_part (x + / 2))) as H by lra.
    rewrite <- minus_IZR in H. apply lt_IZR in H. lia.
  - assert (IZR (Int_part (x + / 2)) < IZR b + 1) as H by lra.
    rewrite <- plus_IZR in H. apply lt_IZR in H. lia.
Qed.

(** A weight as the score uses it: a stored weight that is not negative
    gives a positive one, because zero is replaced by the default. *)
Lemma effective_weight_positive (thresholds : gmap string R) (k : string) (q : Q) :
  (forall v, thresholds !! k = Some v -> 0 <= v) -> 0 < Q2R q ->
  0 < opt_or_else (thresholds !! k) (lit q).
Proof.
  intros Hv Hq. destruct (thresholds !! k) as [v|] eqn:Hk; cbn; [|done].
  unfold or_else. cbn. specialize (Hv v eq_refl). case_bool_decide; [lra | done].
Qed.

(** With the three measures (and the metadata score, when there is one)
    between 0 and 1, and no stored weight negative, the weighted score
    lies between 0 and 1. *)
Theorem weighted_score_in_unit_interval (s : scores R) (thresholds : gmap string R) :
  0 <= cosine s <= 1 -> 0 <= jaccard s <= 1 -> 0 <= ngram s <= 1 ->
  (forall m, metadata s = Some m -> 0 <= m <= 1) ->
  (forall k v, thresholds !! k = Some v -> 0 <= v) ->
  0 <= calculateAdaptiveWeightedScore s thresholds <= 1.
Proof.
  intros Hc Hj Hn Hm Hw. unfold calculateAdaptiveWeightedScore.
  pose proof (effective_weight_positive thresholds "cosine_weight" 0.50
                (Hw "cosine_weight") ltac:(unfold Q2R; cbn; lra)) as H1.
  pose proof (effective_weight_positive thresholds "jaccard_weight" 0.25
                (Hw "jaccard_weight") ltac:(unfold Q2R; cbn; lra)) as H2.
  pose proof (effective_weight_positive thresholds "ngram_weight" 0.15
                (Hw "ngram_weight") ltac:(unfold Q2R; cbn; lra)) as H3.
  pose proof (effective_weight_positive thresholds "metadata_weight" 0.10
                (Hw "metadata_weight") ltac:(unfold Q2R; cbn; lra)) as H4.
  set (w1 := opt_or_else (thresholds !! "cosine_weight") (lit 0.50)) in *.
  set (w2 := opt_or_else (thresholds !! "jaccard_weight") (lit 0.25)) in *.
  set (w3 := opt_or_else (thresholds !! "ngram_weight") (lit 0.15)) in *.
  set (w4 := opt_or_else (thresholds !! "metadata_weight") (lit 0.10)) in *.
  assert (0 <= opt_or_else (metadata s) (lit 0) <= 1) as Hm'.
  { destruct (metadata s) as [m|]; cbn.
    - unfold or_else. cbn. specialize (Hm m eq_refl).
      case_bool_decide; [done|]. unfold Q2R. cbn. lra.
    - unfold Q2R. cbn. lra. }
  set (m := opt_or_else (metadata s) (lit 0)) in *.
  cbn [add mul div round lit real_number].
  set (total := w1 + w2 + w3 + w4).
  assert (0 < total) as Ht by (unfold total; lra).
  set (x := (cosine s * w1 + jaccard s * w2 + ngram s * w3 + m * w4) / total).
  assert (0 <= x <= 1) as Hx.
  { unfold x. split.
    - apply Rmult_le_pos; [nra | left; by apply Rinv_0_lt_compat].
    - apply (Rmult_le_reg_r total); [done|]. unfold Rdiv.
      rewrite Rmult_assoc, Rinv_l by lra. unfold total. nra. }
  assert (Q2R 1000 = 1000) as -> by (unfold Q2R; cbn; lra).
  destruct (Rround_between (x * 1000) 0 1000) as [Hr0 Hr1]; [lra|].
  unfold Rdiv. lra.
Qed.

Lemma weighted_score_witness :
  0 <= calculateAdaptiveWeightedScore
         {| cosine := 1; jaccard := 0; ngram := 1; metadata := None |}
         (<["cosine_weight" := 0]> (∅ : gmap string R)) <= 1.
Proof.
  apply (weighted_score_in_unit_interval
           {| cosine := 1; jaccard := 0; ngram := 1; metadata := None |}
           (<["cosine_weight" := 0]> (∅ : gmap string R))); cbn; try lra; try done.
  intros k v. destruct (decide (k = "cosine_weight")) as [->|Hne].
  - rewrite lookup_insert_eq. intros [= <-]. lra.
  - rewrite lookup_insert_ne, lookup_empty by done. done.
Defined.

End RealCalibration.

End CalibrationFacts.

(** * Properties of the lexical measures *)

Module LexicalFacts.
Import Js Embedding TextAnalysis BatchProcessorFacts.

(** ** Counting the elements of sets *)

Section Counting.
Context {A : Type} `{EqDecision A}.

Lemma length_same_elements (l k : list A) :
  NoDup l -> NoDup k -> (forall x, x ∈ l <-> x ∈ k) -> length l = length k.
Proof. intros Hl Hk Hlk. apply Permutation_length. by apply NoDup_Permutation. Qed.

Lemma length_subset (l k : list A) :
  NoDup l -> (forall x, x ∈ l -> x ∈ k) -> length l <= length k.
Proof. intros Hl Hlk. apply submseteq_length. by apply NoDup_submseteq. Qed.

(** The two sizes of which the measures are the quotient. *)
Definition shared_count (set1 set2 : list A) : nat :=
  length (set_of (List.filter (has set2) set1)).

Definition union_count (set1 set2 : list A) : nat := length (set_of (set1 ++ set2)).

Lemma elem_of_shared (set1 set2 : list A) (x : A) :
  x ∈ set_of (List.filter (has set2) set1) <-> x ∈ set1 /\ x ∈ set2.
Proof. by rewrite elem_of_set_of, elem_of_list_filter, has_true. Qed.

Lemma elem_of_union (set1 set2 : list A) (x : A) :
  x ∈ set_of (set1 ++ set2) <-> x ∈ set1 \/ x ∈ set2.
Proof. by rewrite elem_of_set_of, elem_of_app. Qed.

Lemma shared_count_comm (set1 set2 : list A) :
  shared_count set1 set2 = shared_count set2 set1.
Proof.
  apply length_same_elements; try apply NoDup_set_of.
  intros x. rewrite !elem_of_shared. tauto.
Qed.

Lemma union_count_comm (set1 set2 : list A) :
  union_count set1 set2 = union_count set2 set1.
Proof.
  apply length_same_elements; try apply NoDup_set_of.
  intros x. rewrite !elem_of_union. tauto.
Qed.

Lemma shared_le_union (set1 set2 : list A) :
  shared_count set1 set2 <= union_count set1 set2.
Proof.
  apply length_subset; [apply NoDup_set_of|].
  intros x. rewrite elem_of_shared, elem_of_union. tauto.
Qed.

Lemma shared_count_self (l : list A) :
  shared_count (set_of l) (set_of l) = length (set_of l).
Proof.
  apply length_same_elements; try apply NoDup_set_of.
  intros x. rewrite elem_of_shared. tauto.
Qed.

Lemma union_count_self (l : list A) :
  union_count (set_of l) (set_of l) = length (set_of l).
Proof.
  apply length_same_elements; try apply NoDup_set_of.
  intros x. rewrite elem_of_union. tauto.
Qed.

Lemma length_set_of_nonempty (l : list A) : l <> [] -> 0 < length (set_of l).
Proof.
  destruct l as [|x l]; [done|]. intros _.
  assert (x ∈ set_of (x :: l)) as Hx by (apply elem_of_set_of, list_elem_of_here).
  destruct (set_of (x :: l)); [by apply elem_of_nil in Hx | cbn; lia].
Qed.

End Counting.

Section RealMeasures.
Local Open Scope R_scope.

(** The quotient of the two sizes. *)
Lemma quotient_in_unit_interval (shared union : nat) :
  (shared <= union)%nat -> (0 < union)%nat -> 0 <= INR shared / INR union <= 1.
Proof.
  intros Hle Hpos. apply le_INR in Hle. apply lt_INR in Hpos. cbn in Hpos.
  pose proof (pos_INR shared) as Hs. split.
  - apply Rmult_le_pos; [done | left; by apply Rinv_0_lt_compat].
  - apply (Rmult_le_reg_r (INR union)); [done|]. unfold Rdiv.
    rewrite Rmult_assoc, Rinv_l by lra. lra.
Qed.

Lemma length_extractNGramsFromWords (words : list string) (n : nat) :
  length (extractNGramsFromWords words n)
  = if (n <=? length words)%nat then (length words + 1 - n)%nat else 0%nat.
Proof.
  induction words as [|w words IH].
  - cbn. destruct n; cbn; done.
  - cbn [extractNGramsFromWords]. destruct (n <=? length (w :: words))%nat eqn:Hn; [|done].
    cbn [length]. rewrite IH. apply Nat.leb_le in Hn. cbn [length] in Hn.
    destruct (n <=? length words)%nat eqn:Hn'.
    + apply Nat.leb_le in Hn'. lia.
    + apply Nat.leb_gt in Hn'. lia.
Qed.

(** [calculateNGramOverlap], in terms of the two sizes. *)
Lemma calculateNGramOverlap_quotient (text1 text2 : string) (n : nat) :
  let ngrams1 := extractNGramsFromWords (split_space text1) n in
  let ngrams2 := extractNGramsFromWords (split_space text2) n in
  calculateNGramOverlap (num := R) text1 text2 n
  = if (length ngrams1 =? 0)%nat || (length ngrams2 =? 0)%nat then 0
    else INR (shared_count (set_of ngrams1) (set_of ngrams2))
         / INR (union_count (set_of ngrams1) (set_of ngrams2)).
Proof.
  intros ngrams1 ngrams2. unfold calculateNGramOverlap. fold ngrams1 ngrams2.
  assert (Q2R 0 = 0) as H0 by (unfold Q2R; cbn; lra).
  destruct (_ || _) eqn:Hempty; cbn [lit real_number]; [done|].
  apply orb_false_iff in Hempty as [H1%Nat.eqb_neq _].
  fold (union_count (set_of ngrams1) (set_of ngrams2)).
  fold (shared_count (set_of ngrams1) (set_of ngrams2)).
  destruct (union_count _ _ =? 0)%nat eqn:Hu; [|done].
  apply Nat.eqb_eq in Hu.
  assert (0 < length (set_of ngrams1))%nat as Hpos
    by (apply length_set_of_nonempty; by destruct ngrams1).
  pose proof (length_subset (set_of ngrams1) (set_of (set_of ngrams1 ++ set_of ngrams2))
                (NoDup_set_of _)) as Hsub.
  unfold union_count in Hu. rewrite Hu in Hsub.
  exfalso. cut (length (set_of ngrams1) <= 0)%nat; [lia|]. apply Hsub.
  intros x Hx. apply elem_of_union. by left.
Qed.

Lemma ngram_overlap_range (text1 text2 : string) (n : nat) :
  0 <= calculateNGramOverlap (num := R) text1 text2 n <= 1.
Proof.
  rewrite calculateNGramOverlap_quotient. cbv zeta.
  set (ngrams1 := extractNGramsFromWords (split_space text1) n).
  set (ngrams2 := extractNGramsFromWords (split_space text2) n).
  destruct (_ || _) eqn:Hempty; [lra|].
  apply orb_false_iff in Hempty as [H1%Nat.eqb_neq _].
  apply quotient_in_unit_interval; [apply shared_le_union|].
  pose proof (length_subset (set_of ngrams1) (set_of (set_of ngrams1 ++ set_of ngrams2))
                (NoDup_set_of _)) as Hsub.
  assert (0 < length (set_of ngrams1))%nat as Hpos
    by (apply length_set_of_nonempty; by destruct ngrams1).
  unfold union_count. cut (length (set_of ngrams1)
    <= length (set_of (set_of ngrams1 ++ set_of ngrams2)))%nat; [lia|].
  apply Hsub. intros x Hx. apply elem_of_union. by left.
Qed.

Lemma ngram_overlap_comm (text1 text2 : string) (n : nat) :
  calculateNGramOverlap (num := R) text1 text2 n = calculateNGramOverlap text2 text1 n.
Proof.
  rewrite !calculateNGramOverlap_quotient. cbv zeta.
  by rewrite orb_comm, shared_count_comm, union_count_comm.
Qed.

Lemma ngram_overlap_self (text : string) (n : nat) :
  calculateNGramOverlap (num := R) text text n
  = if (n <=? length (split_space text))%nat then 1 else 0.
Proof.
  rewrite calculateNGramOverlap_quotient. cbv zeta.
  rewrite orb_diag, shared_count_self, union_count_self.
  rewrite length_extractNGramsFromWords.
  destruct (n <=? length (split_space text))%nat eqn:Hn; [|done].
  apply Nat.leb_le in Hn.
  destruct (_ =? 0)%nat eqn:Hz; [apply Nat.eqb_eq in Hz; lia|].
  assert (0 < length (set_of (extractNGramsFromWords (split_space text) n)))%nat as Hpos.
  { apply length_set_of_nonempty. intros Hnil.
    apply (f_equal length) in Hnil. rewrite length_extractNGramsFromWords in Hnil.
    rewrite (proj2 (Nat.leb_le _ _) Hn) in Hnil. cbn in Hnil. lia. }
  apply lt_INR in Hpos. change (INR 0) with 0 in Hpos. unfold Rdiv. apply Rinv_r. lra.
Qed.

(** The n-gram overlap of two texts lies between 0 and 1 and does not
    depend on their order; the overlap of a text with itself is 1 when the
    text splits into [n] pieces or more, and 0 when it is shorter. *)
Theorem ngram_overlap_properties (text1 text2 : string) (n : nat) :
  0 <= calculateNGramOverlap (num := R) text1 text2 n <= 1
  /\ calculateNGramOverlap (num := R) text1 text2 n
     = calculateNGramOverlap text2 text1 n
  /\ calculateNGramOverlap (num := R) text1 text1 n
     = if (n <=? length (split_space text1))%nat then 1 else 0.
Proof.
  split; [apply ngram_overlap_range|].
  split; [apply ngram_overlap_comm | apply ngram_overlap_self].
Qed.

(** The Jaccard index in terms of the two sizes. *)
Lemma jaccardSimilarity_quotient (text1 text2 : string) :
  let words1 := set_of (List.filter nonempty (split_space text1)) in
  let words2 := set_of (List.filter nonempty (split_space text2)) in
  jaccardSimilarity (num := R) text1 text2
  = if (union_count words1 words2 =? 0)%nat then 0
    else INR (shared_count words1 words2) / INR (union_count words1 words2).
Proof.
  cbv zeta. unfold jaccardSimilarity, union_count, shared_count.
  cbn [lit div of_nat real_number].
  assert (Q2R 0 = 0) as -> by (unfold Q2R; cbn; lra). done.
Qed.

Lemma jaccard_range (text1 text2 : string) :
  0 <= jaccardSimilarity (num := R) text1 text2 <= 1.
Proof.
  rewrite jaccardSimilarity_quotient. cbv zeta.
  destruct (union_count _ _ =? 0)%nat eqn:Hu; [lra|]. apply Nat.eqb_neq in Hu.
  apply quotient_in_unit_interval; [apply shared_le_union | lia].
Qed.

Lemma jaccard_comm (text1 text2 : string) :
  jaccardSimilarity (num := R) text1 text2 = jaccardSimilarity text2 text1.
Proof.
  rewrite !jaccardSimilarity_quotient. cbv zeta.
  by rewrite shared_count_comm, union_count_comm.
Qed.

Lemma jaccard_self (text : string) :
  jaccardSimilarity (num := R) text text
  = if (length (List.filter nonempty (split_space text)) =? 0)%nat then 0 else 1.
Proof.
  rewrite jaccardSimilarity_quotient. cbv zeta.
  rewrite shared_count_self, union_count_self.
  destruct (List.filter nonempty (split_space text)) as [|w rest]; [done|].
  assert (0 < length (set_of (w :: rest)))%nat as Hpos
    by (by apply length_set_of_nonempty).
  cbn [length Nat.eqb]. destruct (length (set_of (w :: rest)) =? 0)%nat eqn:Hz;
    [apply Nat.eqb_eq in Hz; lia|].
  apply lt_INR in Hpos. change (INR 0) with 0 in Hpos.
  unfold Rdiv. apply Rinv_r. lra.
Qed.

(** The Jaccard index of the word sets of two texts lies between 0 and 1
    and does not depend on their order; for a text and itself it is 1,
    unless the text has no word, where it is 0. *)
Theorem jaccard_properties (text1 text2 : string) :
  0 <= jaccardSimilarity (num := R) text1 text2 <= 1
  /\ jaccardSimilarity (num := R) text1 text2 = jaccardSimilarity text2 text1
  /\ jaccardSimilarity (num := R) text1 text1
     = if (length (List.filter nonempty (split_space text1)) =? 0)%nat then 0 else 1.
Proof.
  split; [apply jaccard_range|]. split; [apply jaccard_comm | apply jaccard_self].
Qed.

End RealMeasures.

End LexicalFacts.

(** * Sequences of calls and sorted arrays *)

Module ArrayFacts.
Import Js JsArray.

Lemma for_each_Forall2 {A B : Type} (f : A -> outcome B) (l : list A) (ys : list B) :
  for_each f l = Returned ys -> Forall2 (fun x y => f x = Returned y) l ys.
Proof.
  revert ys. induction l as [|a l IH]; intros ys Hys; cbn in Hys.
  - injection Hys as <-. constructor.
  - destruct (f a) as [b|] eqn:Hfa; [|done]. cbn in Hys.
    destruct (for_each f l) as [bs|]; [|done]. cbn in Hys. injection Hys as <-.
    constructor; [done | by apply IH].
Qed.

Lemma for_each_returns {A B : Type} (f : A -> outcome B) (l : list A) :
  (forall x, x ∈ l -> exists y, f x = Returned y) ->
  exists ys, for_each f l = Returned ys.
Proof.
  induction l as [|a l IH]; intros Hf; cbn; [by eexists|].
  destruct (Hf a (list_elem_of_here _ _)) as [b ->]. cbn.
  destruct IH as [bs ->]; [intros x Hx; apply Hf; by apply list_elem_of_further|].
  cbn. by eexists.
Qed.

Lemma for_each_throws {A B : Type} (f : A -> outcome B) (l : list A) (x : A) (msg : string) :
  x ∈ l -> f x = Thrown msg -> exists msg', for_each f l = Thrown msg'.
Proof.
  induction l as [|a l IH]; intros Hx Hfx; [by apply elem_of_nil in Hx|].
  cbn. apply elem_of_cons in Hx as [<-|Hx].
  - rewrite Hfx. by eexists.
  - destruct (f a); [|by eexists]. cbn. destruct (IH Hx Hfx) as [msg' ->]. by eexists.
Qed.

Lemma insert_by_perm {A : Type} (key : A -> nat) (x : A) (l : list A) :
  insert_by key x l ≡ₚ x :: l.
Proof.
  induction l as [|y l IH]; cbn [insert_by]; [done|].
  destruct (key x <? key y)%nat; [done|]. rewrite IH. apply perm_swap.
Qed.

Lemma sort_by_perm {A : Type} (key : A -> nat) (l : list A) : sort_by key l ≡ₚ l.
Proof.
  unfold sort_by.
  assert (forall acc, foldl (fun sorted x => insert_by key x sorted) acc l ≡ₚ acc ++ l) as H.
  { induction l as [|x l IH]; intros acc; cbn [foldl]; [by rewrite app_nil_r|].
    rewrite IH, insert_by_perm. cbn. apply Permutation_middle. }
  apply (H []).
Qed.

Section Sorting.
Context {A num : Type} {N : Number num}.

Lemma insert_with_perm (compare : A -> A -> num) (x : A) (l : list A) :
  insert_with compare x l ≡ₚ x :: l.
Proof.
  induction l as [|y l IH]; cbn; [done|].
  destruct (negative _); [done|]. rewrite IH. apply perm_swap.
Qed.

(** Sorting rearranges the array: nothing is lost and nothing is added. *)
Lemma sort_with_perm (compare : A -> A -> num) (l : list A) :
  sort_with compare l ≡ₚ l.
Proof.
  unfold sort_with.
  assert (forall acc, foldl (fun sorted x => insert_with compare x sorted) acc l
                      ≡ₚ acc ++ l) as H.
  { induction l as [|x l IH]; intros acc; cbn; [by rewrite app_nil_r|].
    rewrite IH, insert_with_perm. cbn. apply Permutation_middle. }
  apply (H []).
Qed.

End Sorting.

Section Descending.
Context {A : Type}.
Local Open Scope R_scope.

Lemma negative_real (x : R) : negative x = true <-> x < 0.
Proof.
  unfold negative. cbn. assert (Q2R 0 = 0) as -> by (unfold Q2R; cbn; lra).
  rewrite andb_true_iff, negb_true_iff, bool_decide_eq_true, bool_decide_eq_false. lra.
Qed.

(** Every element is at least as large, by [key], as those after it. *)
Definition descending (key : A -> R) (l : list A) : Prop :=
  StronglySorted (fun a b => key b <= key a) l.

Lemma insert_with_descending (key : A -> R) (x : A) (l : list A) :
  descending key l ->
  descending key (insert_with (fun a b => sub (key b) (key a)) x l).
Proof.
  unfold descending. induction l as [|y l IH]; intros Hs; cbn.
  - constructor; [constructor | constructor].
  - apply StronglySorted_inv in Hs as [Hl Hy].
    destruct (negative _) eqn:Hneg.
    + apply negative_real in Hneg. cbn in Hneg.
      constructor; [by constructor|].
      constructor; [lra|]. eapply Forall_impl; [exact Hy|]. cbn. intros z Hz. lra.
    + assert (~ (key y - key x < 0)) as Hge.
      { intros Hlt. apply negative_real in Hlt. cbn in Hneg. congruence. }
      constructor; [by apply IH|].
      rewrite (insert_with_perm (N := real_number)). constructor; [lra | done].
Qed.

Lemma sort_with_descending (key : A -> R) (l : list A) :
  descending key (sort_with (fun a b => sub (key b) (key a)) l).
Proof.
  unfold sort_with.
  assert (forall acc, descending key acc ->
            descending key (foldl (fun sorted x =>
                                     insert_with (fun a b => sub (key b) (key a)) x sorted)
                                  acc l)) as H.
  { induction l as [|x l IH]; intros acc Hacc; cbn; [done|].
    apply IH. by apply insert_with_descending. }
  apply H. constructor.
Qed.

(** The first element of an array sorted that way is a largest one. *)
Lemma sort_with_head (key : A -> R) (l : list A) (top : A) (rest : list A) :
  sort_with (fun a b => sub (key b) (key a)) l = top :: rest ->
  top ∈ l /\ forall x, x ∈ l -> key x <= key top.
Proof.
  intros Hsort. pose proof (sort_with_descending key l) as Hd.
  pose proof (sort_with_perm (N := real_number) (fun a b => sub (key b) (key a)) l) as Hp.
  rewrite Hsort in Hd, Hp. split.
  - rewrite <- Hp. apply list_elem_of_here.
  - intros x Hx. rewrite <- Hp in Hx. apply elem_of_cons in Hx as [->|Hx]; [lra|].
    apply StronglySorted_inv in Hd as [_ Hall].
    rewrite Forall_forall in Hall. by apply Hall.
Qed.

End Descending.

End ArrayFacts.

(** * Properties of the similarity search *)

Module EmbeddingSearchFacts.
Import Js JsArray Embedding EmbeddingFacts TextAnalysis EmbeddingSearch.
Import CalibrationFacts LexicalFacts ArrayFacts.

Section RealSearch.
Local Open Scope R_scope.

Ltac literals :=
  cbv [lit add mul sub div real_number Q2R Qnum Qden] in *.

Lemma classify_at_monotone (score1 score2 : R) :
  score1 <= score2 -> (rank (classify_at score1) <= rank (classify_at score2))%nat.
Proof.
  intros Hle. unfold classify_at, geb. cbn [leb real_number].
  repeat case_bool_decide; cbn; try lia; literals; lra.
Qed.

(** A metric that is given, and the same metric at least as large. *)
Definition metric_le (m1 m2 : option R) : Prop :=
  match m1, m2 with
  | Some a, Some b => a <= b
  | None, None => True
  | _, _ => False
  end.

(** [classifyDuplicate] never classifies lower when a metric goes up and
    the same metrics are given. *)
Theorem classifyDuplicate_is_monotone (cosine1 cosine2 : R)
    (jaccard1 jaccard2 ngram1 ngram2 : option R) :
  cosine1 <= cosine2 -> metric_le jaccard1 jaccard2 -> metric_le ngram1 ngram2 ->
  (rank (classifyDuplicate cosine1 jaccard1 ngram1)
   <= rank (classifyDuplicate cosine2 jaccard2 ngram2))%nat.
Proof.
  intros Hc Hj Hn. unfold classifyDuplicate.
  destruct jaccard1 as [j1|], jaccard2 as [j2|]; try done;
    destruct ngram1 as [n1|], ngram2 as [n2|]; try done; cbn in Hj, Hn;
    apply classify_at_monotone; literals; lra.
Qed.

Lemma classifyDuplicate_monotone_witness :
  (rank (classifyDuplicate (Q2R 0.5) (Some (Q2R 0.5)) None)
   <= rank (classifyDuplicate (Q2R 0.9) (Some (Q2R 0.5)) None))%nat.
Proof.
  apply (classifyDuplicate_is_monotone (Q2R 0.5) (Q2R 0.9)
           (Some (Q2R 0.5)) (Some (Q2R 0.5)) None None).
  - unfold Q2R. cbn. lra.
  - cbn. lra.
  - exact I.
Defined.

Lemma calculateContextualSimilarity_returns (newEmbedding : list R) (newText : string)
    (e : existing R) :
  length newEmbedding = length (existing_embedding e) ->
  exists c, calculateContextualSimilarity newEmbedding newText e = Returned c
            /\ id c = existing_id e.
Proof.
  intros Hlen. unfold calculateContextualSimilarity.
  destruct (BatchProcessorFacts.cosineSimilarity_returns _ _ Hlen) as [c ->]. cbn.
  by eexists.
Qed.

(** With at least one stored grievance, all with embeddings of the length
    of the new one, [findMostSimilarEnhanced] returns the candidate with
    the largest combined score: its id, its score and its status.  The
    matches it lists start with that candidate and are the five best (or
    all, if there are fewer), best first: together with the candidates
    left out they are all the candidates, each once, in descending order
    of the combined score. *)
Theorem findMostSimilarEnhanced_returns_the_best (newEmbedding : list R)
    (newText : string) (existingGrievances : list (existing R)) :
  existingGrievances <> [] ->
  (forall e, e ∈ existingGrievances -> length newEmbedding = length (existing_embedding e)) ->
  exists (r : best_match R) (similarities : list (contextual R)) (top : contextual R)
         (others : list (contextual R)),
    findMostSimilarEnhanced newEmbedding newText existingGrievances = Returned r
    /\ Forall2 (fun e c => calculateContextualSimilarity newEmbedding newText e = Returned c)
               existingGrievances similarities
    /\ top ∈ similarities
    /\ matchedId r = Some (id top) /\ score r = combinedScore top
    /\ status_of_match r = result_status top
    /\ (exists e, e ∈ existingGrievances /\ existing_id e = id top)
    /\ (forall c, c ∈ similarities -> combinedScore c <= score r)
    /\ head (topMatches r) = Some top
    /\ length (topMatches r) = Nat.min 5 (length existingGrievances)
    /\ topMatches r ++ others ≡ₚ similarities
    /\ descending combinedScore (topMatches r ++ others)
    /\ (forall c t, c ∈ others -> t ∈ topMatches r -> combinedScore c <= combinedScore t).
Proof.
  intros Hne Hlen. unfold findMostSimilarEnhanced.
  destruct existingGrievances as [|e0 rest] eqn:Hlist; [done|]. rewrite <- Hlist in *.
  assert ((length existingGrievances =? 0)%nat = false) as ->
    by (rewrite Hlist; done).
  destruct (for_each_returns (calculateContextualSimilarity newEmbedding newText)
              existingGrievances) as [similarities Hsims].
  { intros e He. destruct (calculateContextualSimilarity_returns newEmbedding newText e)
      as (c & -> & _); [by apply Hlen|]. by eexists. }
  rewrite Hsims. cbn [and_then].
  pose proof (for_each_Forall2 _ _ _ Hsims) as Hall.
  pose proof (sort_with_perm (N := real_number) by_score_descending similarities) as Hperm.
  pose proof (sort_with_descending combinedScore similarities) as Hdesc.
  change (fun a b : contextual R => sub (combinedScore b) (combinedScore a))
    with (by_score_descending (num := R)) in Hdesc.
  destruct (sort_with by_score_descending similarities) as [|top sorted] eqn:Hsort.
  { apply Permutation_nil_l in Hperm. apply Forall2_length in Hall.
    rewrite <- Hperm, Hlist in Hall. done. }
  destruct (sort_with_head combinedScore similarities top sorted Hsort) as [Htop Hmax].
  exists {| matchedId := Some (id top); score := combinedScore top;
            best_cosineSim := Some (cosineSim top);
            best_jaccardSim := Some (jaccardSim top);
            best_ngramSim := Some (ngramSim top);
            status_of_match := result_status top;
            topMatches := take 5 (top :: sorted) |}, similarities, top,
         (drop 5 (top :: sorted)).
  cbn [matchedId score status_of_match topMatches].
  rewrite take_drop.
  split; [done|]. split; [done|]. split; [done|]. split; [done|]. split; [done|].
  split; [done|]. split; [|split; [done|]]; [|split; [done|]];
    [|split; [|split; [done|split; [done|]]]].
  - apply list_elem_of_lookup in Htop as [i Hi].
    destruct (Forall2_lookup_r _ _ _ _ _ Hall Hi) as (e & He & Hcalc).
    exists e. split; [by eapply list_elem_of_lookup_2|].
    destruct (calculateContextualSimilarity_returns newEmbedding newText e) as (c & Hc & Hid).
    { apply Hlen. by eapply list_elem_of_lookup_2. }
    congruence.
  - rewrite length_take. apply Permutation_length in Hperm.
    apply Forall2_length in Hall. rewrite Hperm. lia.
  - intros c t Hc Ht. unfold descending in Hdesc.
    rewrite <- (take_drop 5 (top :: sorted)) in Hdesc.
    revert Hdesc Hc Ht. generalize (take 5 (top :: sorted)) (drop 5 (top :: sorted)).
    intros front back Hsorted Hc Ht.
    induction front as [|x front IH]; [by apply elem_of_nil in Ht|].
    cbn in Hsorted. apply StronglySorted_inv in Hsorted as [Hrest Hx].
    apply elem_of_cons in Ht as [->|Ht]; [|by apply IH].
    rewrite Forall_forall in Hx. apply Hx, elem_of_app. by right.
Qed.

Definition stored_road (n : Z) : existing R :=
  {| existing_id := n; existing_text := "road broken"; existing_embedding := [0; 1] |}.

Lemma findMostSimilarEnhanced_witness :
  exists (r : best_match R) (top : contextual R) (others : list (contextual R)),
    findMostSimilarEnhanced [1; 0] "water supply broken"
      [stored_road 1; stored_road 2; stored_road 3; stored_road 4; stored_road 5;
       stored_road 6; stored_road 7] = Returned r
    /\ matchedId r = Some (id top)
    /\ head (topMatches r) = Some top
    /\ length (topMatches r) = 5%nat
    /\ length others = 2%nat.
Proof.
  destruct (findMostSimilarEnhanced_returns_the_best [1; 0] "water supply broken"
              [stored_road 1; stored_road 2; stored_road 3; stored_road 4; stored_road 5;
               stored_road 6; stored_road 7])
    as (r & sims & top & others & Hr & Hall & _ & Hid & _ & _ & _ & _ & Hhead & Hfive
        & Hperm & _).
  - done.
  - intros e He. repeat (apply elem_of_cons in He as [->|He]; [reflexivity|]).
    by apply elem_of_nil in He.
  - exists r, top, others. split; [exact Hr|]. split; [exact Hid|].
    split; [exact Hhead|]. split; [exact Hfive|].
    apply Permutation_length in Hperm. apply Forall2_length in Hall.
    rewrite length_app, Hfive, <- Hall in Hperm. cbn in Hperm. lia.
Defined.

Lemma cosine_self (v : list R) : nonzero v -> cosineSimilarity v v = Returned 1.
Proof.
  intros Hv. rewrite cosine_real by done. f_equal.
  pose proof (dot_self_pos v Hv) as Ha.
  rewrite (sqrt_sqrt _ (Rlt_le _ _ Ha)). unfold Rdiv. apply Rinv_r. lra.
Qed.

Lemma round3_between (x : R) (a b : Z) :
  IZR a <= x * 1000 <= IZR b ->
  IZR a / 1000 <= EmbeddingSearch.round3 x <= IZR b / 1000.
Proof.
  intros Hx. unfold EmbeddingSearch.round3. cbn [div round mul lit real_number].
  assert (Q2R 1000 = 1000) as -> by (unfold Q2R; cbn; lra).
  destruct (Rround_between (x * 1000) a b Hx). unfold Rdiv. lra.
Qed.

(** A text submitted again with the embedding it was stored with: the
    cosine is 1; when the text has a word the Jaccard index is 1 and the
    match is a DUPLICATE with a score of 0.75 or more; when the text is
    empty no lexical measure counts, and the match is a NEAR_DUPLICATE with
    the score 0.5. *)
Theorem exact_resubmission (embedding : list R) (text : string) (stored_id : Z) :
  nonzero embedding ->
  exists c,
    calculateContextualSimilarity embedding text
      {| existing_id := stored_id; existing_text := text;
         existing_embedding := embedding |} = Returned c
    /\ cosineSim c = 1
    /\ (List.filter nonempty (split_space text) <> [] ->
        jaccardSim c = 1 /\ result_status c = DUPLICATE /\ 0.75 <= combinedScore c <= 1)
    /\ (text = EmptyString ->
        result_status c = NEAR_DUPLICATE /\ combinedScore c = 0.5).
Proof.
  intros Hv. unfold calculateContextualSimilarity.
  cbn [existing_embedding existing_text existing_id]. rewrite (cosine_self _ Hv).
  cbn [and_then]. eexists. split; [reflexivity|].
  cbn [cosineSim jaccardSim result_status combinedScore].
  change (if (length (set_of (set_of (List.filter nonempty (split_space text))
                              ++ set_of (List.filter nonempty (split_space text)))) =? 0)%nat
          then lit 0
          else div (of_nat (length (set_of (List.filter
                      (has (set_of (List.filter nonempty (split_space text))))
                      (set_of (List.filter nonempty (split_space text)))))))
                   (of_nat (length (set_of (set_of (List.filter nonempty (split_space text))
                              ++ set_of (List.filter nonempty (split_space text)))))))
    with (jaccardSimilarity (num := R) text text).
  pose proof (ngram_overlap_range text text 2) as Hbi.
  pose proof (ngram_overlap_range text text 3) as Htri.
  split; [|split].
  - destruct (round3_between 1 1000 1000) as [? ?]; lra.
  - intros Hwords. rewrite jaccard_self.
    destruct (List.filter nonempty (split_space text)) as [|w rest]; [done|].
    cbn [length Nat.eqb].
    set (bi := calculateNGramOverlap text text 2) in *.
    set (tri := calculateNGramOverlap text text 3) in *.
    split; [destruct (round3_between 1 1000 1000) as [? ?]; lra|]. split.
    + unfold classifyDuplicate, classify_at, geb. cbn [leb real_number].
      rewrite bool_decide_eq_true_2; [done|]. literals. lra.
    + destruct (round3_between (add (add (mul 1 (lit 0.5)) (mul 1 (lit 0.25)))
                                    (mul (add (mul bi (lit 0.6)) (mul tri (lit 0.4)))
                                         (lit 0.25))) 750 1000) as [? ?];
        [literals; lra|]. lra.
  - intros ->. split.
    + vm_compute jaccardSimilarity. unfold classifyDuplicate, classify_at, geb.
      cbn [leb real_number].
      replace (calculateNGramOverlap (num := R) "" "" 2) with 0
        by (rewrite ngram_overlap_self; done).
      replace (calculateNGramOverlap (num := R) "" "" 3) with 0
        by (rewrite ngram_overlap_self; done).
      rewrite bool_decide_eq_false_2 by (literals; lra).
      rewrite bool_decide_eq_true_2 by (literals; lra). done.
    + replace (calculateNGramOverlap (num := R) "" "" 2) with 0
        by (rewrite ngram_overlap_self; done).
      replace (calculateNGramOverlap (num := R) "" "" 3) with 0
        by (rewrite ngram_overlap_self; done).
      rewrite jaccard_self.
      change (length (List.filter nonempty (split_space "")) =? 0)%nat with true.
      cbv iota.
      destruct (round3_between (add (add (mul 1 (lit 0.5)) (mul 0 (lit 0.25)))
                                    (mul (add (mul 0 (lit 0.6)) (mul 0 (lit 0.4)))
                                         (lit 0.25))) 500 500) as [? ?];
        [literals; lra|]. lra.
Qed.

Lemma exact_resubmission_witness :
  exists c,
    calculateContextualSimilarity [3; 4] "water supply broken"
      {| existing_id := 7; existing_text := "water supply broken";
         existing_embedding := [3; 4] |} = Returned c
    /\ result_status c = DUPLICATE.
Proof.
  destruct (exact_resubmission [3; 4] "water supply broken" 7)
    as (c & Hc & _ & Hwords & _).
  - exists 3. split; [apply list_elem_of_here | lra].
  - exists c. split; [exact Hc|]. apply Hwords. vm_compute. discriminate.
Defined.

End RealSearch.

(** ** The greedy clusters *)

Section Clusters.
Context {num : Type} {N : Number num}.

(** The vector of index [j] is compared with that of index [i], and the
    cosine reaches the threshold. *)
Definition reaches (embeddings : list (list num)) (threshold : num) (i j : nat) : Prop :=
  exists ei ej similarity,
    embeddings !! i = Some ei /\ embeddings !! j = Some ej
    /\ cosineSimilarity ei ej = Returned similarity
    /\ geb similarity threshold = true.

Lemma gather_similar_spec (embeddings : list (list num)) (threshold : num)
    (i : nat) (ei : list num) (js visited cluster visited' cluster' : list nat) :
  embeddings !! i = Some ei ->
  gather_similar embeddings threshold ei js visited cluster = Returned (visited', cluster') ->
  exists added,
    visited' = visited ++ added /\ cluster' = cluster ++ added
    /\ added `sublist_of` js
    /\ forall j, j ∈ added -> (j ∉ visited) /\ reaches embeddings threshold i j.
Proof.
  intros Hi. revert visited cluster.
  induction js as [|j js IH]; intros visited cluster Hrun; cbn in Hrun.
  - injection Hrun as <- <-. exists []. rewrite !app_nil_r.
    split; [done|]. split; [done|]. split; [done|].
    intros j0 Hj0. by apply elem_of_nil in Hj0.
  - case_bool_decide as Hseen.
    + destruct (IH _ _ Hrun) as (added & -> & -> & Hsub & Hadded).
      exists added. split; [done|]. split; [done|]. split; [by apply sublist_cons | done].
    + destruct (embeddings !! j) as [ej|] eqn:Hj; [|done].
      destruct (cosineSimilarity ei ej) as [s|] eqn:Hs; [|done]. cbn in Hrun.
      destruct (geb s threshold) eqn:Hgeb.
      * destruct (IH _ _ Hrun) as (added & -> & -> & Hsub & Hadded).
        exists (j :: added). rewrite <- !app_assoc.
        split; [done|]. split; [done|]. split; [by apply sublist_skip|].
        intros j' [->|Hj']%elem_of_cons.
        { split; [done|]. by exists ei, ej, s. }
        destruct (Hadded j' Hj') as [Hnot Hreach]. split; [|done].
        intros Hin. apply Hnot. apply elem_of_app. by left.
      * destruct (IH _ _ Hrun) as (added & -> & -> & Hsub & Hadded).
        exists added. split; [done|]. split; [done|]. split; [by apply sublist_cons | done].
Qed.

(** The shape of a cluster: a first index and, after it, later indices in
    ascending order, each of which reaches the threshold with the first. *)
Definition headed_cluster (embeddings : list (list num)) (threshold : num)
    (cluster : list nat) : Prop :=
  exists i added,
    cluster = i :: added /\ added <> []
    /\ added `sublist_of` seq (S i) (length embeddings - S i)
    /\ forall j, j ∈ added -> reaches embeddings threshold i j.

Lemma cluster_from_spec (embeddings : list (list num)) (threshold : num)
    (heads visited : list nat) (clusters out : list (list nat)) :
  cluster_from embeddings threshold heads visited clusters = Returned out ->
  exists new,
    out = clusters ++ new
    /\ NoDup (concat new)
    /\ (forall x, x ∈ concat new -> x ∉ visited)
    /\ Forall (headed_cluster embeddings threshold) new.
Proof.
  revert visited clusters.
  induction heads as [|i heads IH]; intros visited clusters Hrun; cbn in Hrun.
  - injection Hrun as <-. exists []. rewrite app_nil_r.
    split; [done|]. split; [constructor|]. split; [|done].
    intros x Hx. by apply elem_of_nil in Hx.
  - case_bool_decide as Hseen; [by apply IH|].
    destruct (embeddings !! i) as [ei|] eqn:Hi; [|done].
    destruct (gather_similar _ _ _ _ _ _) as [[visited' cluster]|] eqn:Hgather; [|done].
    cbn [and_then] in Hrun.
    destruct (gather_similar_spec _ _ i _ _ _ _ _ _ Hi Hgather)
      as (added & Hvisited & Hcluster & Hsub & Hadded).
    destruct (IH _ _ Hrun) as (new & Hout & Hnd & Hfresh & Hshape). subst visited' cluster.
    assert (NoDup added) as Hnd_added
      by exact (sublist_NoDup _ _ (NoDup_seq _ _) Hsub).
    assert (i ∉ added) as Hi_added.
    { intros Hin. destruct (Hadded i Hin) as [Hnot _]. apply Hnot.
      apply elem_of_app. right. apply list_elem_of_here. }
    assert (forall x, x ∈ concat new -> (x ∉ visited) /\ (x ∉ i :: added)) as Hfresh'.
    { intros x Hx. pose proof (Hfresh x Hx) as Hnot. split.
      - intros Hin. apply Hnot. rewrite <- app_assoc. apply elem_of_app. by left.
      - intros Hin. apply Hnot. rewrite <- app_assoc. apply elem_of_app. by right. }
    destruct added as [|j0 added'] eqn:Hadd; cbn [length app] in Hout.
    + exists new. split; [done|]. split; [done|]. split; [|done].
      intros x Hx. by apply Hfresh'.
    + rewrite <- Hadd in *. exists ((i :: added) :: new).
      rewrite Hout, <- app_assoc. split; [by rewrite Hadd|].
      cbn [concat]. split; [|split].
      * apply NoDup_app. split; [by apply NoDup_cons|]. split; [|done].
        intros x Hx Hx'. by apply (Hfresh' x Hx').
      * intros x [Hx|Hx]%elem_of_app; [|by apply Hfresh'].
        apply elem_of_cons in Hx as [->|Hx]; [done|].
        destruct (Hadded x Hx) as [Hnot _]. intros Hin. apply Hnot.
        apply elem_of_app. by left.
      * constructor; [|done]. exists i, added.
        split; [done|]. split; [by rewrite Hadd|]. split; [done|].
        intros j Hj. by apply Hadded.
Qed.

(** What [findDuplicateClusters] returns: no index is in two clusters, and
    every cluster is a first index followed by one or more later indices, in
    ascending order, each of which reaches the threshold with the first
    (not with every other member). *)
Theorem findDuplicateClusters_are_headed_and_disjoint (embeddings : list (list num))
    (threshold : num) (clusters : list (list nat)) :
  findDuplicateClusters embeddings threshold = Returned clusters ->
  NoDup (concat clusters)
  /\ Forall (headed_cluster embeddings threshold) clusters
  /\ Forall (fun cluster => 2 <= length cluster) clusters.
Proof.
  intros Hrun. unfold findDuplicateClusters in Hrun.
  destruct (cluster_from_spec _ _ _ _ _ _ Hrun) as (new & -> & Hnd & _ & Hshape).
  cbn [app]. split; [done|]. split; [done|].
  eapply Forall_impl; [exact Hshape|]. cbn.
  intros cluster (i & added & -> & Hne & _). destruct added; [done | cbn; lia].
Qed.

End Clusters.

Lemma findDuplicateClusters_witness :
  findDuplicateClusters (num := float)
    [[lit 1; lit 0]; [lit 0; lit 1]; [lit 1; lit 0.1]; [lit 0.1; lit 1]] (lit 0.85)
  = Returned [[0; 2]; [1; 3]]
  /\ NoDup (concat [[0; 2]; [1; 3]]).
Proof.
  assert (findDuplicateClusters (num := float)
            [[lit 1; lit 0]; [lit 0; lit 1]; [lit 1; lit 0.1]; [lit 0.1; lit 1]] (lit 0.85)
          = Returned [[0; 2]; [1; 3]]) as Hrun by (vm_compute; reflexivity).
  split; [exact Hrun|].
  exact (proj1 (findDuplicateClusters_are_headed_and_disjoint _ _ _ Hrun)).
Defined.

End EmbeddingSearchFacts.

(** * Properties of the locally generated vector *)

Module FallbackFacts.
Import Js Embedding EmbeddingFacts.

Section RealFallback.
Local Open Scope R_scope.

(** No entry is negative, and one is positive. *)
Definition weighted (v : list R) : Prop :=
  Forall (fun x => 0 <= x) v /\ Exists (fun x => 0 < x) v.

Lemma add_at_nonneg (position : nat) (x : R) (v : list R) :
  0 <= x -> Forall (fun y => 0 <= y) v -> Forall (fun y => 0 <= y) (add_at position x v).
Proof.
  intros Hx Hv. unfold add_at. apply Forall_forall. intros y Hy.
  apply list_elem_of_lookup in Hy as [i Hi].
  destruct (decide (position = i)) as [->|Hne].
  - rewrite list_lookup_alter_eq in Hi. destruct (v !! i) as [z|] eqn:Hz; [|done].
    injection Hi as <-. rewrite Forall_forall in Hv.
    pose proof (Hv z (list_elem_of_lookup_2 _ _ _ Hz)). cbn. lra.
  - rewrite list_lookup_alter_ne in Hi by done. rewrite Forall_forall in Hv.
    apply Hv. by eapply list_elem_of_lookup_2.
Qed.

Lemma add_at_weighted (position : nat) (x : R) (v : list R) :
  0 < x -> (position < length v)%nat -> Forall (fun y => 0 <= y) v ->
  weighted (add_at position x v).
Proof.
  intros Hx Hp Hv. split; [apply add_at_nonneg; [lra | done]|].
  destruct (lookup_lt_is_Some_2 v position Hp) as [z Hz].
  apply Exists_exists. exists (z + x). split.
  - apply list_elem_of_lookup. exists position. unfold add_at.
    by rewrite list_lookup_alter_eq, Hz.
  - rewrite Forall_forall in Hv.
    pose proof (Hv z (list_elem_of_lookup_2 _ _ _ Hz)). lra.
Qed.

Lemma add_at_keeps_weighted (position : nat) (x : R) (v : list R) :
  0 <= x -> weighted v -> weighted (add_at position x v).
Proof.
  intros Hx [Hv He]. split; [by apply add_at_nonneg|].
  apply Exists_exists in He as (z & Hz & Hpos).
  apply list_elem_of_lookup in Hz as [i Hi].
  apply Exists_exists. destruct (decide (position = i)) as [->|Hne].
  - exists (z + x). split; [|lra]. apply list_elem_of_lookup. exists i.
    unfold add_at. by rewrite list_lookup_alter_eq, Hi.
  - exists z. split; [|done]. apply list_elem_of_lookup. exists i.
    unfold add_at. by rewrite list_lookup_alter_ne.
Qed.

Lemma decay_positive (idx : nat) : 0 < (div (lit 1) (of_nat (idx + 1)) : R).
Proof.
  cbn. assert (Q2R 1 = 1) as -> by (unfold Q2R; cbn; lra).
  unfold Rdiv. rewrite Rmult_1_l. apply Rinv_0_lt_compat.
  rewrite plus_INR. pose proof (pos_INR idx). cbn. lra.
Qed.

Lemma hash_chars_nonneg (chars : list ascii) (i idx : nat) (v : list R) :
  Forall (fun y => 0 <= y) v -> Forall (fun y => 0 <= y) (hash_chars chars i idx v).
Proof.
  revert i v. induction chars as [|c chars IH]; intros i v Hv; cbn [hash_chars]; [done|].
  apply IH, add_at_nonneg; [|done]. left. apply decay_positive.
Qed.

Lemma hash_chars_keeps_weighted (chars : list ascii) (i idx : nat) (v : list R) :
  weighted v -> weighted (hash_chars chars i idx v).
Proof.
  revert i v. induction chars as [|c chars IH]; intros i v Hv; cbn [hash_chars]; [done|].
  apply IH, add_at_keeps_weighted; [|done]. left. apply decay_positive.
Qed.

Lemma hash_chars_weighted (c : ascii) (chars : list ascii) (i idx : nat) (v : list R) :
  length v = 384%nat -> Forall (fun y => 0 <= y) v ->
  weighted (hash_chars (c :: chars) i idx v).
Proof.
  intros Hlen Hv. cbn [hash_chars]. apply hash_chars_keeps_weighted.
  apply add_at_weighted; [apply decay_positive | | done].
  rewrite Hlen. apply Nat.mod_upper_bound. done.
Qed.

Lemma hash_words_keeps_weighted (words : list string) (idx : nat) (v : list R) :
  weighted v -> weighted (hash_words words idx v).
Proof.
  revert idx v. induction words as [|w words IH]; intros idx v Hv; cbn [hash_words]; [done|].
  by apply IH, hash_chars_keeps_weighted.
Qed.

Lemma hash_words_weighted (words : list string) (idx : nat) (v : list R) :
  words <> [] -> Forall (fun w => nonempty w = true) words ->
  length v = 384%nat -> Forall (fun y => 0 <= y) v ->
  weighted (hash_words words idx v).
Proof.
  intros Hne Hwords Hlen Hv. destruct words as [|w words]; [done|].
  cbn [hash_words]. apply hash_words_keeps_weighted.
  apply Forall_cons in Hwords as [Hw _].
  destruct w as [|c w]; [done|]. cbn [list_ascii_of_string].
  by apply hash_chars_weighted.
Qed.

Lemma foldl_squares (v : list R) (acc : R) :
  foldl (fun sum val => add sum (mul val val)) acc v = acc + dot v v.
Proof.
  revert acc. induction v as [|x v IH]; intros acc; cbn; [lra|]. rewrite IH. cbn. lra.
Qed.

Lemma dot_scaled (v : list R) (m : R) :
  dot ((fun val => val / m) <$> v) ((fun val => val / m) <$> v) = dot v v * (/ m * / m).
Proof. induction v as [|x v IH]; cbn; [lra|]. rewrite IH. unfold Rdiv. lra. Qed.

Lemma weighted_nonzero (v : list R) : weighted v -> nonzero v.
Proof.
  intros [_ He]. apply Exists_exists in He as (x & Hx & Hpos). exists x. split; [done | lra].
Qed.

(** The vector [generateFallbackEmbedding] makes has no negative entry.
    For a text without a word it is the zero vector; for any other text its
    length (the square root of the sum of the squares) is 1. *)
Theorem fallback_embedding_is_unit_or_zero (text : string) :
  let words := List.filter nonempty (split_where is_white (toLowerCase text)) in
  let v := generateFallbackEmbedding (num := R) text in
  Forall (fun x => 0 <= x) v
  /\ (words = [] -> v = replicate 384 0)
  /\ (words <> [] -> dot v v = 1).
Proof.
  intros words v. unfold v, generateFallbackEmbedding. fold words.
  assert (Forall (fun w => nonempty w = true) words) as Hall.
  { apply Forall_forall. intros x Hx. apply list_elem_of_In, filter_In in Hx. tauto. }
  clearbody words. clear v.
  assert ((lit 0 : R) = 0) as H0 by (cbn; unfold Q2R; cbn; lra). rewrite H0.
  assert (Forall (fun y => 0 <= y) (replicate 384 0)) as Hzero
    by (apply Forall_replicate; lra).
  unfold normalizeVector. rewrite foldl_squares, H0, Rplus_0_l. cbn [eqb sqrt real_number].
  destruct (decide (words = [])) as [->|Hwords].
  - cbn [hash_words]. assert (dot (replicate 384 0) (replicate 384 0) = 0) as ->.
    { generalize 384%nat. intros n. induction n as [|n IH]; cbn; [done|]. rewrite IH. lra. }
    rewrite sqrt_0, bool_decide_eq_true_2 by done. done.
  - assert (weighted (hash_words words 0 (replicate 384 0))) as Hw
      by (apply hash_words_weighted; [done | done | apply length_replicate | done]).
    set (h := hash_words words 0 (replicate 384 0)) in *.
    pose proof (dot_self_pos h (weighted_nonzero h Hw)) as Hpos.
    pose proof (sqrt_lt_R0 _ Hpos) as Hm.
    rewrite bool_decide_eq_false_2 by lra.
    split; [|split; [done|]].
    + apply Forall_fmap. destruct Hw as [Hv _].
      eapply Forall_impl; [exact Hv|]. cbn. intros x Hx.
      apply Rmult_le_pos; [done | left; by apply Rinv_0_lt_compat].
    + intros _. rewrite dot_scaled.
      rewrite <- Rinv_mult, sqrt_sqrt by lra. apply Rinv_r. lra.
Qed.

End RealFallback.

End FallbackFacts.

(** * Properties of the validation and of the category detector *)

Module TextAnalysisFacts.
Import Js TextAnalysis.

Lemma trim_units_start_white (text : js_string) :
  trim_units_start text = [] -> forallb is_js_white text = true.
Proof.
  induction text as [|u text IH]; cbn [trim_units_start forallb]; [done|].
  destruct (is_js_white u); [done | discriminate].
Qed.

Lemma trim_units_start_within (text : js_string) :
  forallb is_js_white (trim_units_start text) = true -> forallb is_js_white text = true.
Proof.
  induction text as [|u text IH]; cbn [trim_units_start forallb]; [done|].
  destruct (is_js_white u) eqn:Hu; [done|]. cbn [forallb]. by rewrite Hu.
Qed.

Lemma forallb_rev {A : Type} (f : A -> bool) (l : list A) :
  forallb f (rev l) = forallb f l.
Proof.
  induction l as [|x l IH]; cbn; [done|].
  rewrite forallb_app, IH. cbn. rewrite andb_true_r. apply andb_comm.
Qed.

(** A text that trims to nothing consists of white space. *)
Lemma trim_empty_white (text : js_string) :
  length (trim_units text) = 0%nat -> forallb is_js_white text = true.
Proof.
  unfold trim_units. intros Hlen.
  destruct (rev (trim_units_start (rev (trim_units_start text)))) as [|u s] eqn:Hr;
    [|discriminate].
  apply (f_equal (@rev Z)) in Hr. rewrite rev_involutive in Hr. cbn in Hr.
  apply trim_units_start_white in Hr. rewrite forallb_rev in Hr.
  by apply trim_units_start_within.
Qed.

(** The words that start in a text: a word starts at a character that is
    no white space and stands first or after white space. *)
Fixpoint word_starts (after_white : bool) (text : js_string) : nat :=
  match text with
  | [] => 0
  | u :: rest =>
      if is_js_white u then word_starts true rest
      else (if after_white then 1 else 0) + word_starts false rest
  end.

Lemma split_units_words (text : js_string) :
  exists w ws,
    split_units is_js_white text = w :: ws
    /\ length (List.filter (fun w => (0 <? length w)%nat) ws) = word_starts false text
    /\ length (List.filter (fun w => (0 <? length w)%nat) (w :: ws))
       = word_starts true text.
Proof.
  induction text as [|u text (w & ws & Hsplit & Hrest & Hall)];
    cbn [split_units word_starts].
  - by exists [], [].
  - destruct (is_js_white u).
    + exists [], (w :: ws). rewrite Hsplit. split; [done|]. by split.
    + exists (u :: w), ws. rewrite Hsplit. split; [done|]. split; [done|].
      change (List.filter (fun w => (0 <? length w)%nat) ((u :: w) :: ws))
        with ((u :: w) :: List.filter (fun w => (0 <? length w)%nat) ws).
      cbn [length]. by rewrite Hrest.
Qed.

Lemma wordCount_word_starts {num : Type} {N : Number num} (text : js_string) :
  wordCount (getTextStats (num := num) text) = word_starts true text.
Proof.
  cbn [getTextStats wordCount]. unfold words_between_spaces.
  destruct (split_units_words text) as (w & ws & -> & _ & Hall). exact Hall.
Qed.

Lemma word_starts_white (text : js_string) (after_white : bool) :
  forallb is_js_white text = true -> word_starts after_white text = 0%nat.
Proof.
  revert after_white. induction text as [|u text IH]; intros after_white; [done|].
  cbn [forallb word_starts]. intros [Hu Hrest]%andb_true_iff. rewrite Hu. by apply IH.
Qed.

Section Validation.
Context {num : Type} {N : Number num}.

(** [validateGrievanceText] accepts a text exactly when it has 5 to 5000
    words and 20 characters (UTF-16 code units) or more, where the words
    are the maximal runs of characters that are no white space; the check
    for an empty text never decides by itself, since a text that fails it
    also has too few words. *)
Theorem validation_accepts_by_size (text : js_string) :
  let v := validateGrievanceText (num := num) text in
  (isValid v = true <->
   5 <= wordCount (stats v) <= 5000 /\ 20 <= length text)
  /\ stats_length (stats v) = length text
  /\ wordCount (stats v) = word_starts true text
  /\ ("Grievance text cannot be empty" ∈ errors v ->
      "Grievance must contain at least 5 words" ∈ errors v).
Proof.
  cbv zeta. pose proof (wordCount_word_starts (num := num) text) as Hcount.
  unfold validateGrievanceText.
  cbn [isValid errors stats].
  set (wc := wordCount (getTextStats text)) in *.
  change (stats_length (getTextStats text)) with (length text).
  set (empty := (length text =? 0)%nat || (length (trim_units text) =? 0)%nat).
  assert (empty = true -> (wc <? 5)%nat = true) as Hempty.
  { unfold empty. rewrite Hcount. intros [Hne%Nat.eqb_eq|Htrim%Nat.eqb_eq]%orb_true_iff.
    - by destruct text.
    - by rewrite (word_starts_white text true (trim_empty_white text Htrim)). }
  split; [|split; [done|split; [done|]]].
  - unfold push_if.
    destruct empty; [rewrite Hempty by done|];
      destruct (Nat.ltb_spec wc 5); destruct (Nat.ltb_spec 5000 wc);
      destruct (Nat.ltb_spec (length text) 20); cbn [app length Nat.eqb];
      (split; [discriminate || (intros _; lia) | (intros; lia) || done]).
  - unfold push_if at 4 3 2. destruct empty eqn:He.
    + rewrite Hempty by done. intros _. unfold push_if.
      repeat destruct (_ <? _)%nat; rewrite ?elem_of_app, ?elem_of_cons; auto 10.
    + unfold push_if. intros Hin. exfalso.
      repeat destruct (_ <? _)%nat;
        repeat (apply elem_of_app in Hin as [Hin|Hin]);
        repeat (apply elem_of_cons in Hin as [Hin|Hin]; try discriminate);
        by apply elem_of_nil in Hin.
Qed.

End Validation.

(** Five words of Devanagari letters: 17 characters, 43 bytes in UTF-8. *)
Definition five_short_words : js_string :=
  [2346; 2366; 2344; 2368; 32; 2344; 2361; 2368; 32; 2310; 32;
   2352; 2361; 2366; 32; 2361; 2376]%Z.

Lemma validation_accepts_by_size_witness :
  isValid (validateGrievanceText (num := float)
             (code_units "water supply broken in sector 15 since monday")) = true
  /\ isValid (validateGrievanceText (num := float)
                (code_units "no water since monday")) = false
  /\ wordCount (stats (validateGrievanceText (num := float) five_short_words)) = 5
  /\ isValid (validateGrievanceText (num := float) five_short_words) = false
  /\ wordCount (stats (validateGrievanceText (num := float)
                         [110; 111; 160; 119; 97; 116; 101; 114]%Z)) = 2.
Proof.
  pose proof (validation_accepts_by_size (num := float)) as H. cbv zeta in H.
  split; [|split; [|split; [|split]]].
  - apply H. vm_compute. lia.
  - destruct (isValid _) eqn:Hvalid; [|reflexivity].
    apply H in Hvalid as [[Hfive _] _]. rewrite (proj1 (proj2 (proj2 (H _)))) in Hfive.
    vm_compute in Hfive. lia.
  - rewrite (proj1 (proj2 (proj2 (H _)))). reflexivity.
  - destruct (isValid _) eqn:Hvalid; [|reflexivity].
    apply H in Hvalid as [_ Hlen]. vm_compute in Hlen. lia.
  - rewrite (proj1 (proj2 (proj2 (H _)))). reflexivity.
Defined.

End TextAnalysisFacts.

Module CategoryFacts.
Import Js CategoryDetector.

(** What [pick_best] answers for any list of results: no result has more
    matches than the one chosen; the choice is OTHER exactly when no result
    has a match; otherwise it is the first result with the largest number. *)
Lemma pick_best_spec (results : list (string * list string)) :
  let '(bestCategory, maxCount, matchedKeywords) := pick_best results in
  (forall result, result ∈ results -> length result.2 <= maxCount)
  /\ length matchedKeywords = maxCount
  /\ (maxCount = 0 -> bestCategory = "OTHER" /\ matchedKeywords = [])
  /\ (0 < maxCount ->
      exists i, results !! i = Some (bestCategory, matchedKeywords)
                /\ forall j result, j < i -> results !! j = Some result ->
                                    length result.2 < maxCount).
Proof.
  unfold pick_best. induction results as [|r results IH] using rev_ind.
  - cbn. split; [by intros r Hr%elem_of_nil|]. split; [done|]. split; [done|]. lia.
  - rewrite foldl_app. cbn [foldl].
    destruct (foldl _ _ results) as [[c m] kws]. destruct IH as (Hmax & Hlen & Hzero & Hpos).
    destruct (m <? length r.2) eqn:Hlt.
    + apply Nat.ltb_lt in Hlt. split; [|split; [done|split; [lia|]]].
      * intros r' [Hr'|Hr'%list_elem_of_singleton]%elem_of_app; [|by subst].
        specialize (Hmax r' Hr'). lia.
      * intros _. exists (length results). split.
        -- rewrite lookup_app_r, Nat.sub_diag by lia. by destruct r.
        -- intros j r' Hj Hr'. rewrite lookup_app_l in Hr' by done.
           specialize (Hmax r' (list_elem_of_lookup_2 _ _ _ Hr')). lia.
    + apply Nat.ltb_ge in Hlt. split; [|split; [done|split; [done|]]].
      * intros r' [Hr'|Hr'%list_elem_of_singleton]%elem_of_app; [by apply Hmax|by subst].
      * intros Hm. destruct (Hpos Hm) as (i & Hi & Hbefore). exists i. split.
        -- rewrite lookup_app_l; [done|]. by eapply lookup_lt_Some.
        -- intros j r' Hj Hr'. apply (Hbefore j r' Hj).
           rewrite lookup_app_l in Hr'; [done|].
           apply lookup_lt_Some in Hi. lia.
Qed.

(** The keywords of a category that occur in the text, in lower case. *)
Definition matches_in (text : string) (keywords : list string) : list string :=
  List.filter (includes (toLowerCase text)) keywords.

Lemma toLowerCase_idempotent (text : string) :
  toLowerCase (toLowerCase text) = toLowerCase text.
Proof.
  induction text as [|c text IH]; cbn; [done|]. rewrite IH. f_equal.
  unfold lower_char. destruct (is_upper c) eqn:Hc; [|by rewrite Hc].
  unfold is_upper in *. apply andb_true_iff in Hc as [H1%Nat.leb_le H2%Nat.leb_le].
  rewrite nat_ascii_embedding by (pose proof (nat_ascii_bounded c); lia).
  destruct (_ && _) eqn:Hc'; [|done].
  apply andb_true_iff in Hc' as [_ H3%Nat.leb_le]. lia.
Qed.

Section Detection.
Context {num : Type} {N : Number num}.

(** The first loop: the keywords found, category by category. *)
Definition results_for (lowerText : string) : list (string * list string) :=
  (fun entry : string * list string =>
     (entry.1, List.filter (includes lowerText) entry.2)) <$> CATEGORY_KEYWORDS.

Lemma detectCategory_result (text : string) :
  category (detectCategory (num := num) text)
  = (pick_best (results_for (toLowerCase text))).1.1
  /\ matchedKeywords (detectCategory (num := num) text)
     = (pick_best (results_for (toLowerCase text))).2.
Proof.
  unfold detectCategory. destruct text as [|c text]; [split; vm_compute; reflexivity|].
  cbn [nonempty String.length Nat.ltb Nat.leb negb].
  fold (results_for (toLowerCase (String c text))).
  destruct (pick_best _) as [[? ?] ?]. split; reflexivity.
Qed.

(** [detectCategory] chooses the first category with the largest number of
    keywords occurring in the text, letter case set aside, and OTHER exactly
    when no keyword of any category occurs; the answer is the same for the
    text in lower case. *)
Theorem detectCategory_picks_first_largest (text : string) :
  let r := detectCategory (num := num) text in
  (forall name keywords, (name, keywords) ∈ CATEGORY_KEYWORDS ->
     length (matches_in text keywords) <= length (matchedKeywords r))
  /\ (category r = "OTHER" <->
      forall name keywords, (name, keywords) ∈ CATEGORY_KEYWORDS ->
        matches_in text keywords = [])
  /\ (category r <> "OTHER" ->
      exists i keywords,
        CATEGORY_KEYWORDS !! i = Some (category r, keywords)
        /\ matchedKeywords r = matches_in text keywords
        /\ forall j name keywords', j < i ->
             CATEGORY_KEYWORDS !! j = Some (name, keywords') ->
             length (matches_in text keywords') < length (matchedKeywords r))
  /\ category (detectCategory (num := num) (toLowerCase text)) = category r
  /\ matchedKeywords (detectCategory (num := num) (toLowerCase text)) = matchedKeywords r.
Proof.
  cbv zeta.
  destruct (detectCategory_result text) as [Hcat Hkws].
  destruct (detectCategory_result (toLowerCase text)) as [Hcat' Hkws'].
  rewrite toLowerCase_idempotent in Hcat', Hkws'.
  set (results := results_for (toLowerCase text)) in *.
  rewrite Hcat', Hkws', Hcat, Hkws. clear Hcat Hkws Hcat' Hkws'.
  pose proof (pick_best_spec results) as Hspec.
  destruct (pick_best results) as [[c m] kws]. cbn [fst snd].
  destruct Hspec as (Hmax & Hlen & Hzero & Hpos).
  assert (forall name keywords, (name, keywords) ∈ CATEGORY_KEYWORDS ->
            (name, matches_in text keywords) ∈ results) as Hin.
  { intros name keywords Hk. unfold results, results_for. apply list_elem_of_fmap.
    by exists (name, keywords). }
  assert (forall i name found, results !! i = Some (name, found) ->
            exists keywords, CATEGORY_KEYWORDS !! i = Some (name, keywords)
                             /\ found = matches_in text keywords) as Hback.
  { intros i name found Hi. unfold results, results_for in Hi.
    rewrite list_lookup_fmap in Hi.
    destruct (CATEGORY_KEYWORDS !! i) as [[name' keywords]|]; [|done].
    injection Hi as <- <-. by exists keywords. }
  split; [|split; [|split; [|done]]].
  - intros name keywords Hk. rewrite Hlen. apply (Hmax _ (Hin name keywords Hk)).
  - split.
    + intros ->. destruct (decide (m = 0)) as [->|Hm].
      * intros name keywords Hk. pose proof (Hmax _ (Hin name keywords Hk)) as Hle.
        cbn in Hle. destruct (matches_in text keywords); [done | cbn in Hle; lia].
      * destruct Hpos as (i & Hi & _); [lia|].
        destruct (Hback i _ _ Hi) as (keywords & Hk & _). exfalso.
        assert (i < 7) as Hi7 by (apply lookup_lt_Some in Hk; exact Hk).
        do 7 (destruct i as [|i]; [discriminate Hk|]). lia.
    + intros Hnone. apply Hzero. destruct (decide (m = 0)) as [->|Hm]; [done|].
      destruct Hpos as (i & Hi & _); [lia|].
      destruct (Hback i _ _ Hi) as (keywords & Hk & ->).
      rewrite (Hnone c keywords (list_elem_of_lookup_2 _ _ _ Hk)) in Hlen. cbn in Hlen. lia.
  - intros Hc. destruct (decide (m = 0)) as [->|Hm]; [by destruct Hzero|].
    destruct Hpos as (i & Hi & Hbefore); [lia|].
    destruct (Hback i _ _ Hi) as (keywords & Hk & ->).
    exists i, keywords. split; [done|]. split; [done|].
    intros j name keywords' Hj Hk'. rewrite Hlen.
    apply (Hbefore j (name, matches_in text keywords') Hj).
    unfold results, results_for. by rewrite list_lookup_fmap, Hk'.
Qed.

End Detection.

End CategoryFacts.

(** * Properties of the two layers of deduplication *)

Module BatchDedupFacts.
Import Js JsArray Records Embedding AdaptiveThreshold BatchProcessor BatchDedup.
Import ArrayFacts BatchProcessorFacts.

Section Facts.
Context {num : Type} {N : Number num}.

(** ** The kernel: when it returns and when it throws *)

Lemma kernel_returns (g : subject num) (c : candidate num) (text : string)
    (thresholds : gmap string num) :
  length (embedding1 g) = length (embedding2 c) ->
  string_or (processedText2 c) (text2 c) = Some text ->
  exists s, computeContextualSimilarity g c thresholds = Returned s
            /\ b_categoryModifier (breakdown s)
               = round3 (categoryModifier
                           (category_of (category1 g) None)
                           (category_of (category2 c) (metadataCategory2 c))).
Proof.
  intros Hlen Htext. unfold computeContextualSimilarity.
  destruct (cosineSimilarity_returns _ _ Hlen) as [cosineScore ->].
  cbn [and_then]. rewrite Htext. eexists. split; [reflexivity|]. reflexivity.
Qed.

Lemma kernel_returned (g : subject num) (c : candidate num) (s : similarity num)
    (thresholds : gmap string num) :
  computeContextualSimilarity g c thresholds = Returned s ->
  length (embedding1 g) = length (embedding2 c)
  /\ string_or (processedText2 c) (text2 c) <> None
  /\ b_categoryModifier (breakdown s)
     = round3 (categoryModifier
                 (category_of (category1 g) None)
                 (category_of (category2 c) (metadataCategory2 c))).
Proof.
  intros Hs.
  destruct (decide (length (embedding1 g) = length (embedding2 c))) as [Hlen|Hlen].
  - destruct (string_or (processedText2 c) (text2 c)) as [text|] eqn:Htext.
    + destruct (kernel_returns g c text thresholds Hlen Htext) as (s' & Hs' & Hcat).
      rewrite Hs in Hs'. injection Hs' as <-. done.
    + unfold computeContextualSimilarity in Hs. rewrite Htext in Hs.
      by destruct (cosineSimilarity _ _).
  - unfold computeContextualSimilarity, cosineSimilarity in Hs.
    rewrite (proj2 (Nat.eqb_neq _ _) Hlen) in Hs. done.
Qed.

Lemma kernel_throws (g : subject num) (c : candidate num)
    (thresholds : gmap string num) :
  length (embedding1 g) <> length (embedding2 c)
  \/ string_or (processedText2 c) (text2 c) = None ->
  exists msg, computeContextualSimilarity g c thresholds = Thrown msg.
Proof.
  intros Hbad.
  destruct (computeContextualSimilarity g c thresholds) as [s|msg] eqn:Hs;
    [|by eexists].
  apply kernel_returned in Hs as (Hlen & Htext & _). tauto.
Qed.

(** An item of the pool that the search can compare with the grievance:
    an embedding of the same length and a text that is not empty. *)
Definition usable (g : submission num) (item : pool_item num) : Prop :=
  length (embedding (properties g)) = length (pool_embedding item)
  /\ pool_text item <> EmptyString.

Lemma nonempty_true (w : string) : nonempty w = true <-> w <> EmptyString.
Proof. destruct w; cbn; split; done. Qed.

Lemma pool_text_read (item : pool_item num) :
  string_or (processedText2 (pool_candidate item)) (text2 (pool_candidate item)) <> None
  <-> pool_text item <> EmptyString.
Proof.
  rewrite <- nonempty_true. unfold string_or, pool_candidate.
  cbn [processedText2 text2].
  destruct (nonempty (pool_text item)); split; done.
Qed.

Lemma categoryModifier_without_category (cat1 : string) :
  categoryModifier cat1 "OTHER" = (lit 0 : num).
Proof. unfold categoryModifier. cbn. by rewrite andb_false_r. Qed.

(** What the loop of [topKSimilaritySearch] collects, in the order of the
    pool. *)
Definition scored (g : submission num) (thresholds : gmap string num)
    (item : pool_item num) (m : scored_match num) : Prop :=
  match_id m = pool_id item
  /\ computeContextualSimilarity (as_subject g) (pool_candidate item) thresholds
     = Returned (match_similarity m).

Lemma topKSimilaritySearch_returned (g : submission num) (pool : list (pool_item num))
    (k : nat) (thresholds : gmap string num) (matches : list (scored_match num)) :
  topKSimilaritySearch g pool k thresholds = Returned matches ->
  exists all, Forall2 (scored g thresholds) pool all
              /\ matches = take k (sort_with by_combined_score all).
Proof.
  unfold topKSimilaritySearch. intros Hrun.
  destruct (for_each _ pool) as [all|] eqn:Hall; [|done].
  cbn in Hrun. injection Hrun as <-.
  exists all. split; [|done]. apply for_each_Forall2 in Hall.
  eapply Forall2_impl; [exact Hall|]. intros item m Hm. cbn in Hm.
  destruct (computeContextualSimilarity _ _ _) as [s|] eqn:Hs; [|done].
  cbn in Hm. injection Hm as <-. by split.
Qed.

Lemma topKSimilaritySearch_match (g : submission num) (pool : list (pool_item num))
    (k : nat) (thresholds : gmap string num) (matches : list (scored_match num))
    (m : scored_match num) :
  topKSimilaritySearch g pool k thresholds = Returned matches ->
  m ∈ matches -> exists item, item ∈ pool /\ scored g thresholds item m.
Proof.
  intros (all & Hall & ->)%topKSimilaritySearch_returned Hm.
  apply subseteq_take in Hm. rewrite sort_with_perm in Hm.
  apply list_elem_of_lookup in Hm as [n Hn].
  destruct (Forall2_lookup_r _ _ _ _ _ Hall Hn) as (item & Hitem & Hscored).
  exists item. split; [|done]. by eapply list_elem_of_lookup_2.
Qed.

Lemma topKSimilaritySearch_returns (g : submission num) (pool : list (pool_item num))
    (k : nat) (thresholds : gmap string num) :
  (forall item, item ∈ pool -> usable g item) ->
  exists matches, topKSimilaritySearch g pool k thresholds = Returned matches
                  /\ length matches = Nat.min k (length pool).
Proof.
  intros Husable.
  destruct (for_each_returns
              (fun existing =>
                 and_then (computeContextualSimilarity (as_subject g)
                             (pool_candidate existing) thresholds)
                   (fun similarity =>
                      Returned {| match_id := pool_id existing;
                                  match_similarity := similarity |})) pool)
    as [all Hall].
  { intros item [Hlen Htext]%Husable. apply pool_text_read in Htext.
    destruct (string_or _ _) as [text|] eqn:Hread; [|done].
    destruct (kernel_returns (as_subject g) (pool_candidate item) text thresholds
                Hlen Hread) as (s & -> & _).
    cbn. by eexists. }
  assert (topKSimilaritySearch g pool k thresholds
          = Returned (take k (sort_with by_combined_score all))) as Hrun.
  { unfold topKSimilaritySearch. by rewrite Hall. }
  eexists. split; [exact Hrun|].
  apply topKSimilaritySearch_returned in Hrun as (all' & Hall' & ->).
  rewrite length_take, (Permutation_length (sort_with_perm _ _)).
  by rewrite (Forall2_length _ _ _ Hall').
Qed.

(** [topKSimilaritySearch] returns exactly when every item of the pool is
    usable, and then it returns the [k] first of the sorted matches, or all
    of them when there are fewer.  Every match carries the id of an item of
    the pool and the score of the kernel on that item; as the object passed
    to the kernel has no category, the category modifier of every match is
    0, whatever the categories of the grievance and of the item. *)
Theorem topKSimilaritySearch_spec (g : submission num) (pool : list (pool_item num))
    (k : nat) (thresholds : gmap string num) :
  ((forall item, item ∈ pool -> usable g item)
   <-> exists matches, topKSimilaritySearch g pool k thresholds = Returned matches)
  /\ forall matches,
       topKSimilaritySearch g pool k thresholds = Returned matches ->
       length matches = Nat.min k (length pool)
       /\ forall m, m ∈ matches ->
            exists item, item ∈ pool
              /\ match_id m = pool_id item
              /\ computeContextualSimilarity (as_subject g) (pool_candidate item)
                   thresholds = Returned (match_similarity m)
              /\ b_categoryModifier (breakdown (match_similarity m))
                 = round3 (lit 0).
Proof.
  split; [split|].
  - intros Husable.
    destruct (topKSimilaritySearch_returns g pool k thresholds Husable)
      as (matches & Hrun & _).
    by exists matches.
  - intros [matches Hrun] item Hitem.
    apply topKSimilaritySearch_returned in Hrun as (all & Hall & _).
    apply list_elem_of_lookup in Hitem as [n Hn].
    destruct (Forall2_lookup_l _ _ _ _ _ Hall Hn) as (m & _ & _ & Hs).
    apply kernel_returned in Hs as (Hlen & Htext & _).
    split; [exact Hlen | by apply pool_text_read].
  - intros matches Hrun. split.
    + apply topKSimilaritySearch_returned in Hrun as (all & Hall & ->).
      rewrite length_take, (Permutation_length (sort_with_perm _ _)).
      by rewrite (Forall2_length _ _ _ Hall).
    + intros m Hm.
      destruct (topKSimilaritySearch_match _ _ _ _ _ _ Hrun Hm)
        as (item & Hitem & Hid & Hs).
      exists item. split; [done|]. split; [done|]. split; [done|].
      apply kernel_returned in Hs as (_ & _ & ->). cbn.
      by rewrite categoryModifier_without_category.
Qed.

(** ** The groups of [groupByPDF] *)

Lemma members_with_key_spec (key : option nat) (gs : list (submission num))
    (i : nat) (g : submission num) :
  (i, g) ∈ members_with_key key gs <-> gs !! i = Some g /\ pdf_key g = key.
Proof.
  unfold members_with_key.
  rewrite elem_of_list_filter, bool_decide_eq_true. cbn [snd].
  assert ((i, g) ∈ imap pair gs <-> gs !! i = Some g) as ->; [|done].
  rewrite elem_of_lookup_imap. split.
  - intros (j & x & [= -> ->] & Hx). done.
  - intros Hg. by exists i, g.
Qed.

(** The members of a group, and every part of the batch taken in order,
    list their indices in ascending order. *)
Definition ascending (l : list (nat * submission num)) : Prop :=
  StronglySorted (fun a b => a.1 < b.1) l.

Lemma ascending_imap (gs : list (submission num)) (start : nat) :
  ascending (imap (fun i g => (start + i, g)) gs).
Proof.
  revert start. induction gs as [|g gs IH]; intros start; cbn; [constructor|].
  constructor.
  - rewrite (imap_ext _ (fun i x => (S start + i, x))); [apply IH|].
    intros i x _. cbn. f_equal. lia.
  - apply Forall_forall. intros [j x] (i & y & [= -> ->] & _)%elem_of_lookup_imap.
    cbn. lia.
Qed.

Lemma ascending_filter (f : nat * submission num -> bool) (l : list (nat * submission num)) :
  ascending l -> ascending (List.filter f l).
Proof.
  unfold ascending. induction 1 as [|a l Hl IH Ha]; cbn; [constructor|].
  destruct (f a); [|done]. constructor; [done|].
  apply Forall_forall. intros b [Hb _]%elem_of_list_filter.
  rewrite Forall_forall in Ha. by apply Ha.
Qed.

Lemma ascending_members (key : option nat) (gs : list (submission num)) :
  ascending (members_with_key key gs).
Proof. apply ascending_filter, (ascending_imap gs 0). Qed.

Lemma ascending_batch (gs : list (submission num)) : ascending (imap pair gs).
Proof. apply (ascending_imap gs 0). Qed.

Lemma ascending_app (front back : list (nat * submission num))
    (a b : nat * submission num) :
  ascending (front ++ back) -> a ∈ front -> b ∈ back -> a.1 < b.1.
Proof.
  unfold ascending. intros Hsorted Hfront Hback.
  induction front as [|x front IH]; [by apply elem_of_nil in Hfront|].
  cbn in Hsorted. apply StronglySorted_inv in Hsorted as [Hrest Hx].
  apply elem_of_cons in Hfront as [->|Hfront]; [|by apply IH].
  rewrite Forall_forall in Hx. apply Hx, elem_of_app. by right.
Qed.

Lemma ascending_before (l : list (nat * submission num)) (n : nat)
    (a b : nat * submission num) :
  ascending l -> a ∈ take n l -> l !! n = Some b -> a.1 < b.1.
Proof.
  intros Hl Ha Hb. rewrite <- (take_drop n l) in Hl.
  apply (ascending_app _ _ _ _ Hl Ha).
  apply list_elem_of_lookup. exists 0. by rewrite lookup_drop, Nat.add_0_r.
Qed.

Lemma elem_of_omap_id (keys : list (option nat)) (n : nat) :
  n ∈ omap (fun key => key) keys <-> Some n ∈ keys.
Proof.
  rewrite list_elem_of_omap. split.
  - intros (k & Hk & ->). done.
  - intros Hn. by exists (Some n).
Qed.

Lemma NoDup_omap_id (keys : list (option nat)) :
  NoDup keys -> NoDup (omap (fun key => key) keys).
Proof.
  induction 1 as [|k keys Hk Hkeys IH]; cbn; [constructor|].
  destruct k as [n|]; [|done]. constructor; [|done].
  by rewrite elem_of_omap_id.
Qed.

Lemma fst_tagged {A B : Type} (f : A -> B) (l : list A) :
  ((fun key => (key, f key)) <$> l).*1 = l.
Proof. induction l as [|x l IH]; cbn; [done | by rewrite IH]. Qed.

(** The keys of the object [groups], as [Object.entries] lists them. *)
Definition group_keys (gs : list (submission num)) : list (option nat) :=
  fst <$> groupByPDF gs.

Lemma groupByPDF_keys (gs : list (submission num)) :
  groupByPDF gs = (fun key => (key, members_with_key key gs)) <$> group_keys gs.
Proof.
  unfold group_keys, groupByPDF. cbv zeta.
  by rewrite fst_tagged.
Qed.

Lemma elem_of_group_keys (gs : list (submission num)) (key : option nat) :
  key ∈ group_keys gs <-> exists g, g ∈ gs /\ pdf_key g = key.
Proof.
  unfold group_keys, groupByPDF. cbv zeta.
  rewrite fst_tagged.
  rewrite elem_of_app, elem_of_list_filter, bool_decide_eq_true.
  assert (forall k, k ∈ set_of (pdf_key <$> gs) <-> exists g, g ∈ gs /\ pdf_key g = k) as Hset.
  { intros k. rewrite elem_of_set_of, list_elem_of_fmap.
    split; [intros (g & -> & Hg); by exists g | intros (g & Hg & <-); by exists g]. }
  rewrite <- Hset. destruct key as [n|].
  - rewrite list_elem_of_fmap. split.
    + intros [(m & [= <-] & Hm)|[_ [=]]].
      by rewrite sort_by_perm, elem_of_omap_id in Hm.
    + intros Hn. left. exists n. split; [done|].
      by rewrite sort_by_perm, elem_of_omap_id.
  - rewrite list_elem_of_fmap. split; [|tauto].
    intros [(m & [=] & _)|[? _]]. done.
Qed.

Lemma NoDup_group_keys (gs : list (submission num)) : NoDup (group_keys gs).
Proof.
  unfold group_keys, groupByPDF. cbv zeta.
  rewrite fst_tagged.
  apply NoDup_app. split; [|split].
  - apply (NoDup_fmap_2 _). rewrite sort_by_perm. apply NoDup_omap_id, NoDup_set_of.
  - intros k (n & -> & _)%list_elem_of_fmap [_ Hnone]%elem_of_list_filter.
    by apply bool_decide_eq_true in Hnone.
  - apply NoDup_list_filter, NoDup_set_of.
Qed.

(** [groupByPDF] partitions the batch: the keys of the groups are distinct,
    every grievance is a member of the group of its own key and of no
    other, and every group lists its members, at least one, in the order
    of the batch. *)
Theorem groupByPDF_partitions (gs : list (submission num)) :
  NoDup (groupByPDF gs).*1
  /\ (forall i g, gs !! i = Some g ->
        exists members, (pdf_key g, members) ∈ groupByPDF gs /\ (i, g) ∈ members)
  /\ (forall key members,
        (key, members) ∈ groupByPDF gs ->
        members <> []
        /\ members `sublist_of` imap pair gs
        /\ forall i g, (i, g) ∈ members <-> gs !! i = Some g /\ pdf_key g = key).
Proof.
  split; [apply NoDup_group_keys|]. split.
  - intros i g Hg. exists (members_with_key (pdf_key g) gs). split.
    + rewrite groupByPDF_keys, list_elem_of_fmap. exists (pdf_key g). split; [done|].
      apply elem_of_group_keys. exists g. split; [|done].
      by eapply list_elem_of_lookup_2.
    + by apply members_with_key_spec.
  - intros key members Hgroup.
    rewrite groupByPDF_keys, list_elem_of_fmap in Hgroup.
    destruct Hgroup as (k & [= -> ->] & Hk).
    apply elem_of_group_keys in Hk as (g & Hg & Hkey). split; [|split].
    + apply list_elem_of_lookup in Hg as [i Hi].
      assert ((i, g) ∈ members_with_key k gs) as Hin by by apply members_with_key_spec.
      intros Hnil. rewrite Hnil in Hin. by apply elem_of_nil in Hin.
    + unfold members_with_key. generalize (imap pair gs). intros l.
      induction l as [|a l IH]; cbn; [constructor|].
      destruct (bool_decide _); by constructor.
    + intros i g'. apply members_with_key_spec.
Qed.

(** ** Layer 1: the comparisons within one PDF *)

Lemma best_local_returned (current : submission num) (others : list (nat * submission num))
    (thresholds : gmap string num) (bestLocalMatch : option nat) (bestLocalScore : num)
    (best : option nat) (score : num) :
  best_local current others thresholds bestLocalMatch bestLocalScore
  = Returned (best, score) ->
  (best = bestLocalMatch /\ score = bestLocalScore)
  \/ exists j other sim,
       (j, other) ∈ others
       /\ computeContextualSimilarity (as_subject current) (as_candidate other)
            thresholds = Returned sim
       /\ best = Some j /\ score = combinedScore sim.
Proof.
  revert bestLocalMatch bestLocalScore.
  induction others as [|[j other] others IH]; intros bm bs Hrun;
    cbn [best_local] in Hrun.
  - injection Hrun as <- <-. by left.
  - destruct (computeContextualSimilarity _ _ _) as [sim|] eqn:Hsim; [|done].
    cbn [and_then] in Hrun.
    assert (forall bm' bs',
              best_local current others thresholds bm' bs' = Returned (best, score) ->
              (bm' = bm /\ bs' = bs) \/ (bm' = Some j /\ bs' = combinedScore sim) ->
              (best = bm /\ score = bs)
              \/ exists j0 other0 sim0,
                   (j0, other0) ∈ (j, other) :: others
                   /\ computeContextualSimilarity (as_subject current)
                        (as_candidate other0) thresholds = Returned sim0
                   /\ best = Some j0 /\ score = combinedScore sim0) as Hstep.
    { intros bm' bs' Hrest Hbefore.
      destruct (IH _ _ Hrest) as [[-> ->]|(j0 & other0 & sim0 & Hin & Hs & -> & ->)].
      - destruct Hbefore as [[-> ->]|[-> ->]]; [by left|].
        right. exists j, other, sim. split; [apply list_elem_of_here | done].
      - right. exists j0, other0, sim0. split; [by apply list_elem_of_further | done]. }
    destruct (greater _ _); eapply Hstep; eauto.
Qed.

Lemma best_local_throws (current : submission num) (others : list (nat * submission num))
    (thresholds : gmap string num) (bestLocalMatch : option nat) (bestLocalScore : num)
    (j : nat) (other : submission num) (msg : string) :
  (j, other) ∈ others ->
  computeContextualSimilarity (as_subject current) (as_candidate other) thresholds
  = Thrown msg ->
  exists msg', best_local current others thresholds bestLocalMatch bestLocalScore
               = Thrown msg'.
Proof.
  revert bestLocalMatch bestLocalScore.
  induction others as [|[j0 other0] others IH]; intros bm bs Hin Hthrown;
    [by apply elem_of_nil in Hin|].
  cbn [best_local]. apply elem_of_cons in Hin as [[= <- <-]|Hin].
  - rewrite Hthrown. by eexists.
  - destruct (computeContextualSimilarity (as_subject current) (as_candidate other0)
                thresholds) as [sim|]; [|by eexists].
    cbn [and_then]. destruct (greater _ _); by eapply IH.
Qed.

Lemma local_pass_returned (earlier rest : list (nat * submission num))
    (thresholds : gmap string num) (results : list (nat * local_result num))
    (i : nat) (l : local_result num) :
  local_pass earlier rest thresholds = Returned results ->
  (i, l) ∈ results ->
  exists n g best,
    rest !! n = Some (i, g)
    /\ best_local g (earlier ++ take n rest) thresholds None (lit 0) = Returned best
    /\ l = classify_local best thresholds.
Proof.
  revert earlier results.
  induction rest as [|[i0 current] rest IH]; intros earlier results Hrun Hin;
    cbn [local_pass] in Hrun.
  - injection Hrun as <-. by apply elem_of_nil in Hin.
  - destruct (best_local _ _ _ _ _) as [best|] eqn:Hbest; [|done].
    cbn [and_then] in Hrun.
    destruct (local_pass _ rest _) as [results'|] eqn:Hrest; [|done].
    cbn [and_then] in Hrun.
    injection Hrun as <-. apply elem_of_cons in Hin as [[= -> ->]|Hin].
    + exists 0, current, best. cbn [lookup list_lookup take]. by rewrite app_nil_r.
    + destruct (IH _ _ Hrest Hin) as (n & g & best' & Hn & Hbest' & ->).
      exists (S n), g, best'. cbn. by rewrite <- app_assoc in Hbest'.
Qed.

Lemma local_pass_throws (earlier rest : list (nat * submission num))
    (thresholds : gmap string num) (n i j : nat) (current other : submission num)
    (msg : string) :
  rest !! n = Some (i, current) ->
  (j, other) ∈ earlier ++ take n rest ->
  computeContextualSimilarity (as_subject current) (as_candidate other) thresholds
  = Thrown msg ->
  exists msg', local_pass earlier rest thresholds = Thrown msg'.
Proof.
  revert earlier n.
  induction rest as [|[i0 current0] rest IH]; intros earlier n Hn Hin Hthrown;
    [done|].
  cbn [local_pass]. destruct n as [|n].
  - injection Hn as -> ->. cbn in Hin. rewrite app_nil_r in Hin.
    destruct (best_local_throws current earlier thresholds None (lit 0) j other msg
                Hin Hthrown) as [msg' ->].
    by eexists.
  - destruct (best_local _ _ _ _ _); [|by eexists]. cbn [and_then].
    destruct (IH (earlier ++ [(i0, current0)]) n Hn) as [msg' ->];
      [|done|by eexists].
    rewrite <- app_assoc. exact Hin.
Qed.

Lemma local_of_elem (locals : list (nat * local_result num)) (i : nat)
    (l : local_result num) :
  local_of locals i = Some l -> (i, l) ∈ locals.
Proof.
  induction locals as [|[j l'] locals IH]; cbn; [done|].
  destruct (Nat.eqb_spec j i) as [->|_].
  - intros [= ->]. apply list_elem_of_here.
  - intros H. by apply list_elem_of_further, IH.
Qed.

(** ** Layer 2: the comparisons with the stored grievances and the batch *)

Lemma search_pool_subseteq (g : submission num) (pool : list (pool_item num))
    (item : pool_item num) :
  item ∈ search_pool g pool -> item ∈ pool.
Proof.
  assert (forall (f : pool_item num -> bool) (l : list (pool_item num)) x,
            x ∈ (if (0 <? length (List.filter f l))%nat then List.filter f l else l) ->
            x ∈ l) as Hnarrow.
  { intros f l x. destruct (0 <? _)%nat; [by intros [? _]%elem_of_list_filter | done]. }
  unfold search_pool. cbv zeta.
  destruct (negb (falsy (category g))
            && negb (same_string (category g) (Some "OTHER")));
    destruct (negb (falsy (area g)));
    match goal with |- _ ∈ (if ?c then _ else _) -> _ => destruct c end;
    intros Hitem; repeat apply Hnarrow in Hitem; exact Hitem.
Qed.

(** The properties that the deduplication only reads. *)
Definition kept (g : submission num) (o : grievance num) : Prop :=
  pdfName o = pdfName (properties g)
  /\ pageNumber o = pageNumber (properties g)
  /\ processedText o = processedText (properties g)
  /\ embedding o = embedding (properties g).

(** A grievance classified against an item of the pool. *)
Definition matched_in (pool : list (pool_item num)) (thresholds : gmap string num)
    (g : submission num) (o : grievance num) : Prop :=
  exists item sim,
    item ∈ pool
    /\ computeContextualSimilarity (as_subject g) (pool_candidate item) thresholds
       = Returned sim
    /\ globalMatchId o = Some (pool_id item)
    /\ globalScore o = Some (combinedScore sim)
    /\ finalStatus o = classifyWithAdaptiveThresholds (combinedScore sim) thresholds
    /\ finalStatus o <> UNIQUE.

Definition left_unique (g : submission num) (o : grievance num) : Prop :=
  finalStatus o = UNIQUE /\ globalMatchId o = globalMatchId (properties g).

Lemma classify_global_spec (g : submission num) (l : option (local_result num))
    (pool : list (pool_item num)) (k : nat) (thresholds : gmap string num)
    (topMatches : list (scored_match num)) :
  topKSimilaritySearch g pool k thresholds = Returned topMatches ->
  let o := classify_global g l topMatches thresholds in
  kept g o /\ (left_unique g o \/ matched_in pool thresholds g o).
Proof.
  intros Hsearch o. split; [unfold o, classify_global; destruct topMatches;
                            repeat case_match; done|].
  unfold o, classify_global. destruct topMatches as [|top rest]; [by left|].
  destruct (topKSimilaritySearch_match _ _ _ _ _ top Hsearch (list_elem_of_here _ _))
    as (item & Hitem & Hid & Hsim).
  destruct (at_least _ (thresholds !! "duplicate")) eqn:Hdup;
    [|destruct (at_least _ (thresholds !! "near_duplicate")) eqn:Hnear];
    [right|right|by left];
    exists item, (match_similarity top); cbn;
    unfold classifyWithAdaptiveThresholds; rewrite Hid, Hdup, ?Hnear; done.
Qed.

(** What layer 2 does with the grievance of index [i], for the pool of
    that iteration. *)
Definition handled (pool : list (pool_item num)) (locals : list (nat * local_result num))
    (thresholds : gmap string num) (i : nat) (g : submission num) (o : grievance num)
    : Prop :=
  kept g o
  /\ match is_local_duplicate (local_of locals i) with
     | Some r => finalStatus o = DUPLICATE
                 /\ globalMatchId o = globalMatchId (properties g)
                 /\ globalScore o = Some (bestLocalScore r)
     | None => left_unique g o \/ matched_in pool thresholds g o
     end.

Lemma global_pass_returned (rest : list (nat * submission num))
    (locals : list (nat * local_result num)) (existing processed : list (pool_item num))
    (thresholds : gmap string num) (out : list (grievance num)) :
  global_pass rest locals existing processed thresholds = Returned out ->
  length out = length rest
  /\ forall n i g o,
       rest !! n = Some (i, g) -> out !! n = Some o ->
       handled (existing ++ processed ++ (uncurry batch_item <$> take n rest))
               locals thresholds i g o.
Proof.
  revert processed out.
  induction rest as [|[i0 g0] rest IH]; intros processed out Hrun; cbn in Hrun.
  - injection Hrun as <-. done.
  - assert (forall results o0,
              global_pass rest locals existing (processed ++ [batch_item i0 g0])
                thresholds = Returned results ->
              handled (existing ++ processed) locals thresholds i0 g0 o0 ->
              length (o0 :: results) = length ((i0, g0) :: rest)
              /\ forall n i g o,
                   ((i0, g0) :: rest) !! n = Some (i, g) ->
                   (o0 :: results) !! n = Some o ->
                   handled (existing ++ processed
                            ++ (uncurry batch_item <$> take n ((i0, g0) :: rest)))
                           locals thresholds i g o) as Hstep.
    { intros results o0 Hrest Ho0. destruct (IH _ _ Hrest) as [Hlen Hall].
      split; [cbn; by rewrite Hlen|].
      intros [|n] i g o Hg Ho; cbn in Hg, Ho.
      - injection Hg as <- <-. injection Ho as <-. cbn. by rewrite app_nil_r.
      - specialize (Hall n i g o Hg Ho). cbn. by rewrite <- app_assoc in Hall. }
    destruct (is_local_duplicate (local_of locals i0)) as [r|] eqn:Hlocal.
    + destruct (global_pass rest _ _ _ _) as [results|] eqn:Hrest; [|done].
      cbn in Hrun. injection Hrun as <-. apply Hstep; [done|].
      split; [done|]. by rewrite Hlocal.
    + destruct (topKSimilaritySearch _ _ _ _) as [topMatches|] eqn:Hsearch; [|done].
      cbn in Hrun.
      destruct (global_pass rest _ _ _ _) as [results|] eqn:Hrest; [|done].
      cbn in Hrun. injection Hrun as <-. apply Hstep; [done|].
      destruct (classify_global_spec g0 (local_of locals i0) _ _ thresholds topMatches
                  Hsearch) as [Hkept Hcase].
      split; [done|]. rewrite Hlocal.
      destruct Hcase as [Hu|(item & sim & Hitem & Hrestm)]; [by left|].
      right. exists item, sim. split; [|done]. by apply search_pool_subseteq in Hitem.
Qed.

(** ** The two layers together *)

Lemma processed_so_far (gs : list (submission num)) (n : nat) :
  uncurry batch_item <$> take n (imap pair gs) = imap batch_item (take n gs).
Proof.
  apply list_eq. intros k.
  rewrite list_lookup_fmap, list_lookup_imap.
  destruct (decide (k < n)) as [Hk|Hk].
  - rewrite !lookup_take_lt by done. rewrite list_lookup_imap.
    by destruct (gs !! k).
  - by rewrite !lookup_take_ge by lia.
Qed.

Lemma classify_local_duplicate (best : option nat * num) (thresholds : gmap string num) :
  localStatus (classify_local best thresholds) = LOCAL_DUPLICATE ->
  exists j, best = (Some j, bestLocalScore (classify_local best thresholds))
            /\ at_least (bestLocalScore (classify_local best thresholds))
                        (thresholds !! "duplicate") = true.
Proof.
  destruct best as [[j|] s]; cbn [classify_local]; [|done].
  destruct (at_least s (thresholds !! "duplicate")) eqn:Hdup.
  - intros _. exists j. cbn [bestLocalScore]. by rewrite Hdup.
  - by destruct (at_least s (thresholds !! "near_duplicate")).
Qed.

Lemma is_local_duplicate_spec (l : option (local_result num)) (r : local_result num) :
  is_local_duplicate l = Some r -> l = Some r /\ localStatus r = LOCAL_DUPLICATE.
Proof.
  destruct l as [r'|]; cbn; [|done].
  destruct (localStatus r') eqn:Hstatus; try done. by intros [= <-].
Qed.

(** A grievance that layer 1 marked LOCAL_DUPLICATE: it leaves as a
    DUPLICATE without a match id, with the score it reached against an
    earlier grievance of its own PDF. *)
Definition local_duplicate (gs : list (submission num)) (thresholds : gmap string num)
    (i : nat) (g : submission num) (o : grievance num) : Prop :=
  finalStatus o = DUPLICATE
  /\ globalMatchId o = globalMatchId (properties g)
  /\ exists j other sim,
       j < i /\ gs !! j = Some other /\ pdf_key other = pdf_key g
       /\ computeContextualSimilarity (as_subject g) (as_candidate other) thresholds
          = Returned sim
       /\ globalScore o = Some (combinedScore sim)
       /\ at_least (combinedScore sim) (thresholds !! "duplicate") = true.

Lemma layer1_local_duplicate (gs : list (submission num)) (thresholds : gmap string num)
    (locals : list (list (nat * local_result num))) (i : nat) (g : submission num)
    (r : local_result num) :
  for_each (fun group => local_pass [] group.2 thresholds) (groupByPDF gs)
  = Returned locals ->
  gs !! i = Some g ->
  (i, r) ∈ concat locals ->
  localStatus r = LOCAL_DUPLICATE ->
  exists j other sim,
    j < i /\ gs !! j = Some other /\ pdf_key other = pdf_key g
    /\ computeContextualSimilarity (as_subject g) (as_candidate other) thresholds
       = Returned sim
    /\ bestLocalScore r = combinedScore sim
    /\ at_least (combinedScore sim) (thresholds !! "duplicate") = true.
Proof.
  intros Hlocals%for_each_Forall2 Hg Hin Hstatus.
  apply list_elem_of_In, in_concat in Hin as (results & Hresults & Hin).
  apply list_elem_of_In, list_elem_of_lookup in Hresults as [p Hp].
  destruct (Forall2_lookup_r _ _ _ _ _ Hlocals Hp) as ([key members] & Hgroup & Hpass).
  cbn [snd] in Hpass. apply list_elem_of_lookup_2 in Hgroup.
  rewrite groupByPDF_keys, list_elem_of_fmap in Hgroup.
  destruct Hgroup as (k & [= -> ->] & _).
  apply list_elem_of_In in Hin.
  destruct (local_pass_returned _ _ _ _ _ _ Hpass Hin) as (n & g' & best & Hn & Hbest & ->).
  cbn [app] in Hbest.
  assert ((i, g') ∈ members_with_key k gs) as Hmember
    by by eapply list_elem_of_lookup_2.
  apply members_with_key_spec in Hmember as [Hg' Hkey].
  rewrite Hg in Hg'. injection Hg' as <-.
  destruct (classify_local_duplicate _ _ Hstatus) as (j & Hj & Hdup).
  rewrite Hj in Hbest.
  apply best_local_returned in Hbest as [[[=] _]|(j' & other & sim & Hother & Hsim & [= <-] & Hs)].
  exists j, other, sim.
  pose proof (ascending_before _ _ _ _ (ascending_members k gs) Hother Hn) as Hlt.
  apply subseteq_take, members_with_key_spec in Hother as [Hj' Hkey'].
  rewrite <- Hs. split; [exact Hlt|]. split; [done|]. split; [congruence|]. done.
Qed.

(** [hierarchicalDeduplication] returns the grievances of the batch in
    their order, with the page, the text and the embedding they came with,
    and each of them in one of three states.  UNIQUE: its match id is left
    as it was.  Matched: its status is the classification of the score of
    the kernel on an item of the pool, that is on a stored grievance or on
    a grievance handled before it in the batch, its match id is the id of
    that item, and its status is not UNIQUE.  Local duplicate: it is a
    DUPLICATE whose match id is left as it was, and its score is the one
    it reached, at least the duplicate threshold, against an earlier
    grievance of its own PDF. *)
Theorem hierarchicalDeduplication_results (gs : list (submission num))
    (existingEmbeddings : list (stored_grievance num)) (thresholds : gmap string num)
    (out : list (grievance num)) :
  hierarchicalDeduplication gs existingEmbeddings thresholds = Returned out ->
  length out = length gs
  /\ forall i g o,
       gs !! i = Some g -> out !! i = Some o ->
       kept g o
       /\ (left_unique g o
           \/ matched_in ((existing_item <$> existingEmbeddings)
                          ++ imap batch_item (take i gs)) thresholds g o
           \/ local_duplicate gs thresholds i g o).
Proof.
  unfold hierarchicalDeduplication. intros Hrun.
  destruct (for_each _ (groupByPDF gs)) as [locals|] eqn:Hlocals; [|done].
  cbn [and_then] in Hrun.
  apply global_pass_returned in Hrun as [Hlen Hall].
  split; [by rewrite Hlen, length_imap|].
  intros i g o Hg Ho.
  assert (imap pair gs !! i = Some (i, g)) as Hi
    by by rewrite list_lookup_imap, Hg.
  destruct (Hall i i g o Hi Ho) as [Hkept Hcase]. split; [done|].
  cbn [app] in Hcase. rewrite processed_so_far in Hcase.
  destruct (is_local_duplicate _) as [r|] eqn:Hlocal.
  - right. right. destruct Hcase as (Hstatus & Hmatch & Hscore).
    apply is_local_duplicate_spec in Hlocal as [Hr%local_of_elem Hdup].
    destruct (layer1_local_duplicate gs thresholds locals i g r Hlocals Hg Hr Hdup)
      as (j & other & sim & ? & ? & ? & ? & Hs & ?).
    split; [done|]. split; [done|]. exists j, other, sim.
    rewrite Hscore, Hs. done.
  - destruct Hcase as [?|?]; [by left | right; by left].
Qed.

(** With the two thresholds equal, as in both built-in tables, no
    grievance leaves [hierarchicalDeduplication] as a NEAR_DUPLICATE. *)
Theorem equal_thresholds_leave_no_near_duplicate (gs : list (submission num))
    (existingEmbeddings : list (stored_grievance num)) (thresholds : gmap string num)
    (out : list (grievance num)) (t : num) (o : grievance num) :
  thresholds !! "duplicate" = Some t ->
  thresholds !! "near_duplicate" = Some t ->
  hierarchicalDeduplication gs existingEmbeddings thresholds = Returned out ->
  o ∈ out ->
  finalStatus o <> NEAR_DUPLICATE.
Proof.
  intros Hdup Hnear Hrun [i Ho]%list_elem_of_lookup.
  unfold hierarchicalDeduplication in Hrun.
  destruct (for_each _ (groupByPDF gs)) as [locals|] eqn:Hlocals; [|done].
  cbn [and_then] in Hrun.
  apply global_pass_returned in Hrun as [Hlen Hall].
  assert (is_Some (imap pair gs !! i)) as [[i' g] Hi].
  { apply lookup_lt_is_Some. rewrite <- Hlen. by eapply lookup_lt_Some. }
  destruct (Hall i i' g o Hi Ho) as [_ Hcase].
  destruct (is_local_duplicate _) as [r|].
  - destruct Hcase as [-> _]. done.
  - destruct Hcase as [[-> _]|(item & sim & _ & _ & _ & _ & -> & _)]; [done|].
    unfold classifyWithAdaptiveThresholds. rewrite Hdup, Hnear.
    by destruct (at_least _ _).
Qed.

(** A grievance without processed text makes the batch fail as soon as
    a later grievance of the same PDF is compared with it: the kernel has
    no text to split, and nothing catches the error. *)
Theorem empty_text_fails_the_batch (gs : list (submission num))
    (existingEmbeddings : list (stored_grievance num)) (thresholds : gmap string num)
    (i j : nat) (current other : submission num) :
  j < i ->
  gs !! j = Some other ->
  gs !! i = Some current ->
  pdf_key other = pdf_key current ->
  processedText (properties other) = EmptyString ->
  exists msg, hierarchicalDeduplication gs existingEmbeddings thresholds = Thrown msg.
Proof.
  intros Hlt Hj Hi Hkey Hempty.
  assert (exists msg, computeContextualSimilarity (as_subject current)
                        (as_candidate other) thresholds = Thrown msg) as [msg Hthrown].
  { apply kernel_throws. right. cbn. by rewrite Hempty. }
  set (key := pdf_key current).
  assert ((i, current) ∈ members_with_key key gs) as Hmi
    by by apply members_with_key_spec.
  assert ((j, other) ∈ members_with_key key gs) as Hmj
    by by apply members_with_key_spec.
  apply list_elem_of_lookup in Hmi as [n Hn].
  assert ((j, other) ∈ take n (members_with_key key gs)) as Hbefore.
  { apply list_elem_of_lookup in Hmj as [m Hm].
    destruct (decide (m < n)) as [Hmn|Hmn].
    - apply list_elem_of_lookup. exists m. by rewrite lookup_take_lt.
    - destruct (decide (m = n)) as [->|Hne]; [rewrite Hn in Hm; injection Hm; lia|].
      assert ((i, current) ∈ take m (members_with_key key gs)) as Hi'.
      { apply list_elem_of_lookup. exists n. rewrite lookup_take_lt by lia. done. }
      pose proof (ascending_before _ _ _ _ (ascending_members key gs) Hi' Hm). cbn in *.
      lia. }
  destruct (local_pass_throws [] (members_with_key key gs) thresholds n i j current
              other msg Hn Hbefore Hthrown) as [msg' Hpass].
  unfold hierarchicalDeduplication.
  destruct (for_each_throws (fun group => local_pass [] group.2 thresholds)
              (groupByPDF gs) (key, members_with_key key gs) msg') as [msg'' ->].
  - rewrite groupByPDF_keys, list_elem_of_fmap. exists key. split; [done|].
    apply elem_of_group_keys. exists current. split; [|done].
    by eapply list_elem_of_lookup_2.
  - exact Hpass.
  - by eexists.
Qed.

End Facts.

(** A grievance of a batch, as [processBatch] builds it, with an embedding
    of two coordinates. *)
Definition sample (pdf page : nat) (text : string) (x y : Q) : submission float :=
  {| pdfId := Some pdf; category := Some "WATER"; area := None;
     properties :=
       {| pdfName := "a.pdf"; pageNumber := page; processedText := text;
          embedding := [lit x; lit y]; finalStatus := UNIQUE;
          globalScore := None; localScore := None; globalMatchId := None;
          clusterId := None; clusterSize := 0; clusteredWith := None;
          clusterBasedMatch := false |} |}.

Lemma hierarchicalDeduplication_witness :
  exists out,
    hierarchicalDeduplication
      [sample 2 1 "water supply broken sector 15" 1 0;
       sample 1 1 "road pothole near market" 0 1;
       sample 2 2 "water supply broken sector 15" 1 0] [] thresholds_init
    = Returned out
    /\ length out = 3.
Proof.
  assert (exists out,
            hierarchicalDeduplication
              [sample 2 1 "water supply broken sector 15" 1 0;
               sample 1 1 "road pothole near market" 0 1;
               sample 2 2 "water supply broken sector 15" 1 0] [] thresholds_init
            = Returned out) as [out Hout]
    by (vm_compute; eexists; reflexivity).
  exists out. split; [exact Hout|].
  exact (proj1 (hierarchicalDeduplication_results _ _ _ _ Hout)).
Defined.

Lemma equal_thresholds_witness_in_batch :
  exists out o,
    hierarchicalDeduplication
      [sample 2 1 "water supply broken sector 15" 1 0;
       sample 1 1 "water supply broken sector 14" 0.9 0.1] [] thresholds_init
    = Returned out
    /\ out !! 1 = Some o
    /\ finalStatus o <> NEAR_DUPLICATE.
Proof.
  assert (exists out o,
            hierarchicalDeduplication
              [sample 2 1 "water supply broken sector 15" 1 0;
               sample 1 1 "water supply broken sector 14" 0.9 0.1] [] thresholds_init
            = Returned out
            /\ out !! 1 = Some o) as (out & o & Hout & Ho)
    by (vm_compute; eexists _, _; split; reflexivity).
  exists out, o. split; [exact Hout|]. split; [exact Ho|].
  apply (equal_thresholds_leave_no_near_duplicate
           [sample 2 1 "water supply broken sector 15" 1 0;
            sample 1 1 "water supply broken sector 14" 0.9 0.1] [] thresholds_init out
           (lit 0.60) o).
  - vm_compute. reflexivity.
  - vm_compute. reflexivity.
  - exact Hout.
  - by eapply list_elem_of_lookup_2.
Defined.

Lemma empty_text_witness :
  exists msg,
    hierarchicalDeduplication
      [sample 3 1 "" 1 0; sample 3 2 "water supply broken sector 15" 1 0]
      [] thresholds_init
    = Thrown msg.
Proof.
  apply (empty_text_fails_the_batch _ [] thresholds_init 1 0
           (sample 3 2 "water supply broken sector 15" 1 0) (sample 3 1 "" 1 0)).
  - lia.
  - reflexivity.
  - reflexivity.
  - reflexivity.
  - reflexivity.
Defined.

(** ** The order of the matches, in exact arithmetic *)

Section RealSearch.
Local Open Scope R_scope.

Lemma descending_take {A : Type} (key : A -> R) (k : nat) (l : list A) :
  descending key l -> descending key (take k l).
Proof.
  unfold descending. intros Hl. revert k.
  induction Hl as [|a l Hl IH Ha]; intros [|k]; cbn; try constructor.
  - apply IH.
  - apply Forall_forall. intros b Hb%subseteq_take.
    rewrite Forall_forall in Ha. by apply Ha.
Qed.

(** In exact arithmetic the matches that [topKSimilaritySearch] returns
    are in descending order of their score, and the first of them has the
    highest score of the whole pool. *)
Theorem topKSimilaritySearch_best_first (g : submission R) (pool : list (pool_item R))
    (k : nat) (thresholds : gmap string R) (top : scored_match R)
    (rest : list (scored_match R)) :
  topKSimilaritySearch g pool k thresholds = Returned (top :: rest) ->
  descending (fun m => combinedScore (match_similarity m)) (top :: rest)
  /\ forall item, item ∈ pool ->
       exists sim,
         computeContextualSimilarity (as_subject g) (pool_candidate item) thresholds
         = Returned sim
         /\ combinedScore sim <= combinedScore (match_similarity top).
Proof.
  intros (all & Hall & Htake)%topKSimilaritySearch_returned.
  set (key := fun m : scored_match R => combinedScore (match_similarity m)) in *.
  change (by_combined_score (num := R)) with (fun a b => sub (key b) (key a)) in Htake.
  split.
  - rewrite Htake. apply descending_take, sort_with_descending.
  - intros item [n Hn]%list_elem_of_lookup.
    destruct (Forall2_lookup_l _ _ _ _ _ Hall Hn) as (m & Hm & _ & Hsim).
    exists (match_similarity m). split; [exact Hsim|].
    destruct (sort_with (fun a b => sub (key b) (key a)) all) as [|top' sorted] eqn:Hsort.
    { by rewrite take_nil in Htake. }
    destruct k as [|k]; [done|]. cbn in Htake. injection Htake as <- _.
    destruct (sort_with_head key all top sorted Hsort) as [_ Hmax].
    apply (Hmax m). by eapply list_elem_of_lookup_2.
Qed.

Lemma topKSimilaritySearch_best_first_witness :
  exists top rest,
    topKSimilaritySearch
      {| pdfId := Some 1%nat; category := Some "WATER"; area := None;
         properties :=
           {| pdfName := "a.pdf"; pageNumber := 1; processedText := "water supply";
              embedding := [1; 0]; finalStatus := UNIQUE;
              globalScore := None; localScore := None; globalMatchId := None;
              clusterId := None; clusterSize := 0; clusteredWith := None;
              clusterBasedMatch := false |} |}
      [ {| pool_id := Persisted 7; pool_text := "water supply";
           pool_embedding := [1; 0]; pool_category := None; pool_area := None |} ]
      10 ∅
    = Returned (top :: rest)
    /\ descending (fun m => combinedScore (match_similarity m)) (top :: rest).
Proof.
  set (g := {| pdfId := Some 1%nat; category := Some "WATER"; area := None;
               properties :=
                 {| pdfName := "a.pdf"; pageNumber := 1; processedText := "water supply";
                    embedding := [1; 0]; finalStatus := UNIQUE;
                    globalScore := None; localScore := None; globalMatchId := None;
                    clusterId := None; clusterSize := 0; clusteredWith := None;
                    clusterBasedMatch := false |} |} : submission R).
  set (item := {| pool_id := Persisted 7; pool_text := "water supply";
                  pool_embedding := [1; 0]; pool_category := None;
                  pool_area := None |} : pool_item R).
  destruct (topKSimilaritySearch_returns g [item] 10 ∅) as (matches & Hrun & Hlen).
  { intros x ->%list_elem_of_singleton. split; [reflexivity | discriminate]. }
  destruct matches as [|top rest]; [discriminate Hlen|].
  exists top, rest. split; [exact Hrun|].
  exact (proj1 (topKSimilaritySearch_best_first g [item] 10 ∅ top rest Hrun)).
Defined.

End RealSearch.

End BatchDedupFacts.

(** * Properties of the saved results, the clusters and the counts *)

Module BatchSavingFacts.
Import Js JsArray Records Embedding AdaptiveThreshold BatchProcessor BatchDedup.
Import ArrayFacts BatchProcessorFacts.

Section Facts.
Context {num : Type} {N : Number num}.

(** ** The saved results *)

Lemma length_saved (grievances : list (grievance num)) (next_id : Z) :
  length (saveGrievancesToDB grievances next_id).2 = length grievances.
Proof.
  revert next_id. induction grievances as [|g0 rest IH]; intros next_id; [done|].
  cbn [saveGrievancesToDB]. specialize (IH (next_id + 1)%Z).
  destruct (saveGrievancesToDB rest (next_id + 1)) as [rows results]. cbn in *.
  by rewrite IH.
Qed.

Lemma saved_statuses (grievances : list (grievance num)) (next_id : Z) :
  saved_status <$> (saveGrievancesToDB grievances next_id).2 = finalStatus <$> grievances.
Proof.
  revert next_id. induction grievances as [|g0 rest IH]; intros next_id; [done|].
  cbn [saveGrievancesToDB]. specialize (IH (next_id + 1)%Z).
  destruct (saveGrievancesToDB rest (next_id + 1)) as [rows results]. cbn in *.
  by rewrite IH.
Qed.

(** ** The counts of the batch *)

Lemma count_status_statuses (s : status) (results : list (saved_result num)) :
  count_status s results
  = length (List.filter (fun t => bool_decide (t = s)) (saved_status <$> results)).
Proof.
  unfold count_status. induction results as [|r results IH]; cbn; [done|].
  destruct (bool_decide _); cbn; by rewrite IH.
Qed.

Lemma statuses_add_up (statuses : list status) :
  length (List.filter (fun t => bool_decide (t = UNIQUE)) statuses)
  + length (List.filter (fun t => bool_decide (t = DUPLICATE)) statuses)
  + length (List.filter (fun t => bool_decide (t = NEAR_DUPLICATE)) statuses)
  = length statuses.
Proof.
  induction statuses as [|s statuses IH]; cbn [List.filter length]; [done|].
  destruct s; repeat case_bool_decide; try done; cbn [length]; lia.
Qed.

(** The three counts that [processBatch] writes to the batch row are the
    numbers of grievances that left the deduplication as UNIQUE, DUPLICATE
    and NEAR_DUPLICATE, and they add up to the number of grievances saved,
    which it writes as [total_grievances]. *)
Theorem batch_counts_add_up (grievances : list (grievance num)) (next_id : Z) :
  let savedResults := (saveGrievancesToDB grievances next_id).2 in
  let stats := calculateBatchStats savedResults in
  length savedResults = length grievances
  /\ unique stats
     = length (List.filter (fun g => bool_decide (finalStatus g = UNIQUE)) grievances)
  /\ duplicate stats
     = length (List.filter (fun g => bool_decide (finalStatus g = DUPLICATE)) grievances)
  /\ nearDuplicate stats
     = length (List.filter (fun g => bool_decide (finalStatus g = NEAR_DUPLICATE))
                           grievances)
  /\ unique stats + duplicate stats + nearDuplicate stats = length savedResults.
Proof.
  cbv zeta. unfold calculateBatchStats. cbn [unique duplicate nearDuplicate].
  assert (forall s, count_status s (saveGrievancesToDB grievances next_id).2
                    = length (List.filter (fun g => bool_decide (finalStatus g = s))
                                          grievances)) as Hcount.
  { intros s. rewrite count_status_statuses, saved_statuses.
    clear. induction grievances as [|g gs IH]; cbn; [done|].
    destruct (bool_decide _); cbn; by rewrite IH. }
  split; [apply length_saved|]. rewrite <- !Hcount.
  split; [done|]. split; [done|]. split; [done|].
  rewrite !count_status_statuses, statuses_add_up. by rewrite length_fmap.
Qed.

(** ** The clusters cover the results *)

Lemma zip_snoc {A B : Type} (xs : list A) (ys : list B) (x : A) (y : B) :
  length xs = length ys -> zip (xs ++ [x]) (ys ++ [y]) = zip xs ys ++ [(x, y)].
Proof.
  revert ys. induction xs as [|a xs IH]; intros [|b ys] Hlen; cbn in *; try done.
  rewrite IH by lia. done.
Qed.

(** What the first loop has recorded for the results it went through. *)
Definition recorded (clusters : gmap Z (cluster num)) (keys : list Z)
    (r : saved_result num) (key : Z) : Prop :=
  key ∈ keys
  /\ exists c, clusters !! key = Some c /\ (id r, score r) ∈ zip (members c) (scores c).

Lemma group_results_recorded (results : list (saved_result num)) (r : saved_result num)
    (key : Z) :
  r ∈ results -> cluster_key r = Some key ->
  recorded (group_results results).1 (group_results results).2 r key.
Proof.
  unfold group_results.
  induction results as [|r0 results IH] using rev_ind; intros Hr Hkey;
    [by apply elem_of_nil in Hr|].
  rewrite foldl_app. cbn [foldl].
  pose proof (group_results_well_grouped results) as Hwg. unfold group_results in Hwg.
  set (acc := foldl _ _ results) in *.
  assert (r ∈ results -> recorded (acc.1) (acc.2) r key) as IH' by auto.
  destruct (cluster_key r0) as [k|] eqn:Hk0.
  - cbn [fst snd]. apply elem_of_app in Hr as [Hr|Hr%list_elem_of_singleton].
    + destruct (IH' Hr) as (Hin & c & Hc & Hmem). split.
      { case_bool_decide; [done|]. apply elem_of_app. by left. }
      unfold add_to_cluster. destruct (decide (k = key)) as [->|Hne].
      * rewrite lookup_insert_eq, Hc. eexists. split; [done|]. cbn [members scores].
        destruct (Hwg key c Hc) as (_ & _ & Hlen & _).
        rewrite zip_snoc by done. apply elem_of_app. by left.
      * rewrite lookup_insert_ne by done. by exists c.
    + subst r0. rewrite Hkey in Hk0. injection Hk0 as <-. split.
      { case_bool_decide; [done|]. apply elem_of_app. right. apply list_elem_of_here. }
      unfold add_to_cluster. rewrite lookup_insert_eq. eexists. split; [done|].
      cbn [members scores]. destruct (acc.1 !! key) as [c|] eqn:Hc.
      * destruct (Hwg key c Hc) as (_ & _ & Hlen & _).
        rewrite zip_snoc by done. apply elem_of_app. right. apply list_elem_of_here.
      * cbn. apply list_elem_of_here.
  - apply elem_of_app in Hr as [Hr|Hr%list_elem_of_singleton]; [by apply IH'|].
    subst r0. congruence.
Qed.

Lemma NoDup_group_keys_of_results (results : list (saved_result num)) :
  NoDup (group_results results).2.
Proof.
  unfold group_results. induction results as [|r results IH] using rev_ind;
    [constructor|].
  rewrite foldl_app. cbn [foldl]. set (acc := foldl _ _ results) in *.
  destruct (cluster_key r) as [k|]; [|done]. cbn [snd].
  case_bool_decide as Hk; [done|]. apply NoDup_app. split; [done|].
  split; [|apply NoDup_singleton].
  intros x Hx ->%list_elem_of_singleton. done.
Qed.

Lemma elem_of_property_order (keys : list Z) (key : Z) :
  key ∈ property_order keys <-> key ∈ keys.
Proof.
  unfold property_order.
  rewrite elem_of_app, sort_by_perm, !elem_of_list_filter.
  destruct (is_array_index key); cbn; intuition discriminate.
Qed.

Lemma NoDup_property_order (keys : list Z) : NoDup keys -> NoDup (property_order keys).
Proof.
  intros Hkeys. unfold property_order. apply NoDup_app. split; [|split].
  - rewrite sort_by_perm. by apply NoDup_list_filter.
  - intros k. rewrite sort_by_perm, !elem_of_list_filter.
    destruct (is_array_index k); cbn; intuition discriminate.
  - by apply NoDup_list_filter.
Qed.

Lemma rows_follow_keys (clusters : gmap Z (cluster num)) (keys : list Z) :
  primary_grievance_id
  <$> omap (fun key =>
              match clusters !! key with
              | Some c =>
                  if (0 <? length (members c))%nat
                  then Some {| cluster_type := type c;
                               primary_grievance_id := key;
                               member_count := length (members c);
                               avg_similarity_score := average (scores c);
                               cluster_members := zip (members c) (scores c) |}
                  else None
              | None => None
              end) keys
  `sublist_of` keys.
Proof.
  induction keys as [|key keys IH]; cbn [omap list_omap fmap list_fmap]; [constructor|].
  destruct (clusters !! key) as [c|]; [|by constructor].
  destruct (0 <? length (members c))%nat; cbn [fmap list_fmap primary_grievance_id];
    by constructor.
Qed.

(** [formDuplicateClusters] writes at most one cluster for a primary id,
    and it leaves out no result that is grouped: a DUPLICATE or
    NEAR_DUPLICATE result whose matched id is not a string of the batch is
    a member, with its score, of the cluster whose primary is its matched
    id, or its own id when it has none. *)
Theorem formDuplicateClusters_covers (results : list (saved_result num)) :
  NoDup (primary_grievance_id <$> formDuplicateClusters results)
  /\ forall r key,
       r ∈ results -> cluster_key r = Some key ->
       exists row,
         row ∈ formDuplicateClusters results
         /\ primary_grievance_id row = key
         /\ (id r, score r) ∈ cluster_members row.
Proof.
  unfold formDuplicateClusters.
  pose proof (group_results_recorded results) as Hrec.
  pose proof (NoDup_group_keys_of_results results) as Hnd.
  destruct (group_results results) as [clusters keys]. cbn [fst snd] in *.
  split.
  - eapply sublist_NoDup; [|apply rows_follow_keys].
    by apply NoDup_property_order.
  - intros r key Hr Hkey. destruct (Hrec r key Hr Hkey) as (Hin & c & Hc & Hmem).
    assert (0 < length (members c)) as Hpos.
    { destruct (members c); [by apply elem_of_nil in Hmem | cbn; lia]. }
    exists {| cluster_type := type c; primary_grievance_id := key;
              member_count := length (members c);
              avg_similarity_score := average (scores c);
              cluster_members := zip (members c) (scores c) |}.
    split; [|split; [done | exact Hmem]].
    apply list_elem_of_omap. exists key. split; [by apply elem_of_property_order|].
    rewrite Hc. by rewrite (proj2 (Nat.ltb_lt _ _) Hpos).
Qed.

End Facts.

End BatchSavingFacts.

(** * Properties of the labels and clusters of DBSCAN *)

Module ClusteringFacts.
Import Js JsArray Records Embedding Dbscan.
Import ArrayFacts BatchProcessorFacts DbscanFacts BatchSavingFacts.

Section Facts.
Context {num : Type} {N : Number num}.
Variables (matrix : list (list num)) (eps : num) (minPts n : nat).

Local Open Scope Z_scope.

(** A label that the loops may have written when the next cluster id is
    [next]: unvisited, noise for a point with too few neighbours, or the
    id of a cluster already started. *)
Definition label_ok (next : Z) (i : nat) (l : Z) : Prop :=
  l = -1
  \/ (l = 0 /\ (length (regionQuery matrix i eps n) < minPts)%nat)
  \/ 1 <= l < next.

Definition labels_ok (next : Z) (labels : list Z) : Prop :=
  forall i l, labels !! i = Some l -> label_ok next i l.

Definition visited (labels : list Z) (i : nat) : Prop :=
  exists l, labels !! i = Some l /\ l <> -1.

(** The labels [after] keep the length of [before] and every visit. *)
Definition extends (before after : list Z) : Prop :=
  length after = length before /\ forall i, visited before i -> visited after i.

Lemma extends_refl (labels : list Z) : extends labels labels.
Proof. by split. Qed.

Lemma extends_trans (a b c : list Z) : extends a b -> extends b c -> extends a c.
Proof. intros [Hl1 Hv1] [Hl2 Hv2]. split; [congruence | auto]. Qed.

Lemma extends_insert (labels : list Z) (q : nat) (c : Z) :
  c <> -1 -> extends labels (<[q := c]> labels).
Proof.
  intros Hc. split; [apply length_insert|].
  intros i (l & Hl & Hne). destruct (decide (i = q)) as [->|Hq].
  - exists c. split; [|done]. apply list_lookup_insert_eq. by eapply lookup_lt_Some.
  - exists l. split; [|done]. by rewrite list_lookup_insert_ne.
Qed.

Lemma visited_insert (labels : list Z) (q : nat) (c : Z) :
  c <> -1 -> (q < length labels)%nat -> visited (<[q := c]> labels) q.
Proof. intros Hc Hq. exists c. split; [by apply list_lookup_insert_eq | done]. Qed.

Lemma labels_ok_insert (next : Z) (labels : list Z) (q : nat) (c : Z) :
  labels_ok next labels -> label_ok next q c -> labels_ok next (<[q := c]> labels).
Proof.
  intros Hok Hc i l Hl. destruct (decide (i = q)) as [->|Hq].
  - assert (q < length labels)%nat as Hq.
    { rewrite <- (length_insert labels q c). by eapply lookup_lt_Some. }
    rewrite list_lookup_insert_eq in Hl by done. by injection Hl as <-.
  - rewrite list_lookup_insert_ne in Hl by done. by apply Hok.
Qed.

Lemma labels_ok_mono (next next' : Z) (labels : list Z) :
  next <= next' -> labels_ok next labels -> labels_ok next' labels.
Proof.
  intros Hle Hok i l Hl. destruct (Hok i l Hl) as [?|[?|?]]; unfold label_ok; [auto|auto|].
  right. right. lia.
Qed.

Lemma expand_loop_labels (steps : nat) (labels : list Z) (queue : list nat)
    (clusterId : Z) (labels' : list Z) :
  1 <= clusterId ->
  labels_ok (clusterId + 1) labels ->
  expand_loop steps matrix labels queue clusterId eps minPts n = Some labels' ->
  labels_ok (clusterId + 1) labels' /\ extends labels labels'.
Proof.
  intros Hc. revert labels queue.
  induction steps as [|steps IH]; intros labels [|q queue] Hok Hrun; cbn in Hrun;
    try discriminate; try (injection Hrun as <-; split; [done | apply extends_refl]).
  assert (label_ok (clusterId + 1) q clusterId) as Hlabel
    by (right; right; lia).
  assert (clusterId <> -1) as Hne by lia.
  set (labels1 := if bool_decide (labels !! q = Some 0)
                  then <[q := clusterId]> labels else labels) in *.
  assert (labels_ok (clusterId + 1) labels1 /\ extends labels labels1) as [Hok1 Hext1].
  { unfold labels1. destruct (bool_decide (labels !! q = Some 0));
      [|split; [done | apply extends_refl]].
    split; [by apply labels_ok_insert | by apply extends_insert]. }
  destruct (bool_decide (labels1 !! q <> Some (-1))).
  - destruct (IH _ _ Hok1 Hrun) as [Hok' Hext']. split; [done|].
    by eapply extends_trans.
  - destruct (IH _ _ (labels_ok_insert _ _ q clusterId Hok1 Hlabel) Hrun)
      as [Hok' Hext'].
    split; [done|]. eapply extends_trans; [exact Hext1|].
    eapply extends_trans; [by apply extends_insert | exact Hext'].
Qed.

Lemma cluster_loop_labels (points : list nat) (labels : list Z) (clusterId : Z)
    (labels' : list Z) :
  1 <= clusterId ->
  labels_ok clusterId labels ->
  cluster_loop points matrix labels clusterId eps minPts n = Some labels' ->
  (exists next, labels_ok next labels')
  /\ extends labels labels'
  /\ forall i, i ∈ points -> (i < length labels)%nat -> visited labels' i.
Proof.
  revert labels clusterId.
  induction points as [|i points IH]; intros labels clusterId Hc Hok Hrun;
    cbn [cluster_loop] in Hrun.
  - injection Hrun as <-. split; [by exists clusterId|]. split; [apply extends_refl|].
    by intros i ?%elem_of_nil.
  - assert (forall labels1 next,
              1 <= next -> labels_ok next labels1 -> extends labels labels1 ->
              ((i < length labels)%nat -> visited labels1 i) ->
              cluster_loop points matrix labels1 next eps minPts n = Some labels' ->
              (exists next', labels_ok next' labels')
              /\ extends labels labels'
              /\ forall j, j ∈ i :: points -> (j < length labels)%nat ->
                           visited labels' j) as Hstep.
    { intros labels1 next Hnext Hok1 Hext1 Hi Hrest.
      destruct (IH _ _ Hnext Hok1 Hrest) as (Hok' & Hext' & Hpoints).
      split; [done|]. split; [by eapply extends_trans|].
      intros j [->|Hj]%elem_of_cons Hlt.
      - apply Hext'. auto.
      - apply Hpoints; [done|]. destruct Hext1 as [-> _]. done. }
    destruct (decide (labels !! i <> Some (-1))) as [Hi|Hi].
    + rewrite bool_decide_eq_true_2 in Hrun by done.
      apply (Hstep labels clusterId); try done.
      intros [l Hl]%lookup_lt_is_Some_2. exists l. split; [done|]. congruence.
    + rewrite bool_decide_eq_false_2 in Hrun by done.
      destruct (Nat.ltb_spec (length (regionQuery matrix i eps n)) minPts) as [Hfew|Hcore].
      * apply (Hstep (<[i := NOISE]> labels) clusterId); try done.
        -- apply labels_ok_insert; [done|]. right. left. done.
        -- by apply extends_insert.
        -- intros Hlt. by apply visited_insert.
      * destruct (expandCluster _ _ _ _ _ _ _ _) as [labels1|] eqn:Hexpand; [|done].
        unfold expandCluster in Hexpand.
        assert (labels_ok (clusterId + 1) (<[i := clusterId]> labels)) as Hok1.
        { apply labels_ok_insert; [by eapply labels_ok_mono; [|exact Hok]; lia|].
          right. right. lia. }
        destruct (expand_loop_labels _ _ _ _ _ Hc Hok1 Hexpand) as [Hok2 Hext2].
        apply (Hstep labels1 (clusterId + 1)); try done; [lia| |].
        -- eapply extends_trans; [|exact Hext2]. apply extends_insert. lia.
        -- intros Hlt. apply Hext2, visited_insert; [lia | done].
Qed.

End Facts.

Section Results.
Context {num : Type} {N : Number num}.

Lemma elem_of_members_of (labels : list Z) (key : Z) (i : nat) :
  i ∈ members_of labels key <-> labels !! i = Some key.
Proof.
  unfold members_of. rewrite elem_of_list_filter, bool_decide_eq_true, elem_of_seq.
  split; [tauto|]. intros Hi. split; [|done]. apply lookup_lt_Some in Hi. lia.
Qed.

Lemma members_of_ascending (labels : list Z) (key : Z) :
  StronglySorted lt (members_of labels key).
Proof.
  unfold members_of. generalize 0%nat.
  induction (length labels) as [|m IH]; intros start; cbn [seq List.filter];
    [constructor|].
  destruct (bool_decide _); [|apply IH]. constructor; [apply IH|].
  apply Forall_forall. intros j [Hj _]%elem_of_list_filter.
  apply elem_of_seq in Hj. lia.
Qed.

Lemma NoDup_members_of (labels : list Z) (key : Z) : NoDup (members_of labels key).
Proof. apply NoDup_list_filter, NoDup_seq. Qed.

(** The members of distinct keys, some of them dropped, never repeat an
    index. *)
Lemma NoDup_clusters (labels : list Z) (keep : list nat -> bool) (keys : list Z) :
  NoDup keys ->
  NoDup (concat (List.filter keep (members_of labels <$> keys))).
Proof.
  induction 1 as [|key keys Hkey Hkeys IH]; cbn [fmap list_fmap List.filter concat];
    [constructor|].
  destruct (keep _); [|exact IH]. cbn [concat]. apply NoDup_app.
  split; [apply NoDup_members_of|]. split; [|exact IH].
  intros i Hi%elem_of_members_of Hin.
  apply list_elem_of_In, in_concat in Hin as (c & Hc & Hic).
  apply list_elem_of_In, elem_of_list_filter in Hc as [Hc _].
  apply list_elem_of_fmap in Hc as (key' & -> & Hkey').
  apply list_elem_of_In, elem_of_members_of in Hic.
  rewrite Hi in Hic. injection Hic as ->. done.
Qed.

Lemma elem_of_object_keys (labels : list Z) (key : Z) :
  key ∈ object_keys labels <-> key ∈ labels /\ key <> NOISE.
Proof.
  unfold object_keys.
  rewrite elem_of_property_order, elem_of_set_of, elem_of_list_filter, negb_true_iff.
  by rewrite bool_decide_eq_false.
Qed.

Lemma cluster_loop_all_labelled (matrix : list (list num)) (eps : num) (minPts n : nat)
    (labels : list Z) :
  cluster_loop (seq 0 n) matrix (replicate n (-1)%Z) 1%Z eps minPts n = Some labels ->
  length labels = n
  /\ forall i l, labels !! i = Some l ->
       (l = 0%Z /\ length (regionQuery matrix i eps n) < minPts) \/ (1 <= l)%Z.
Proof.
  intros Hrun.
  destruct (cluster_loop_labels matrix eps minPts n (seq 0 n) (replicate n (-1)%Z) 1
              labels) as ((next & Hok) & [Hlen _] & Hvisited); [lia| |done|].
  { intros i l [-> _]%lookup_replicate. by left. }
  rewrite length_replicate in Hlen, Hvisited. split; [done|].
  intros i l Hl. assert (i < n) as Hi by (rewrite <- Hlen; by eapply lookup_lt_Some).
  destruct (Hvisited i) as (l' & Hl' & Hne); [apply elem_of_seq; lia | done|].
  rewrite Hl in Hl'. injection Hl' as <-.
  destruct (Hok i l Hl) as [?|[?|?]]; [done | by left | right; lia].
Qed.

Lemma dbscanCluster_returned (grievances : list (grievance num)) (eps : num)
    (minPts : nat) (result : dbscan_result) :
  dbscanCluster grievances eps minPts = Returned (Some result) ->
  exists matrix,
    computeSimilarityMatrix grievances = Returned matrix
    /\ cluster_loop (seq 0 (length grievances)) matrix
         (replicate (length grievances) (-1)%Z) 1%Z eps minPts (length grievances)
       = Some (labels result)
    /\ clusters result
       = List.filter (fun c => (minPts <=? length c)%nat)
           (members_of (labels result) <$> object_keys (labels result))
    /\ noise result = members_of (labels result) NOISE.
Proof.
  unfold dbscanCluster. intros Hrun.
  destruct (computeSimilarityMatrix grievances) as [matrix|]; [|done].
  cbn [and_then] in Hrun. exists matrix. split; [done|].
  destruct (cluster_loop _ _ _ _ _ _ _) as [labels'|]; [|done].
  injection Hrun as <-. done.
Qed.

(** When [dbscanCluster] returns, every point has a label: 0 for noise, or
    the positive id of a cluster; none is left unvisited.  The points
    listed as noise are those with the label 0, and each of them has fewer
    than [minPts] neighbours within [eps], itself included; so a point with
    at least [minPts] neighbours always carries the id of a cluster. *)
Theorem dbscanCluster_labels_every_point (grievances : list (grievance num)) (eps : num)
    (minPts : nat) (result : dbscan_result) :
  dbscanCluster grievances eps minPts = Returned (Some result) ->
  exists matrix,
    computeSimilarityMatrix grievances = Returned matrix
    /\ length (labels result) = length grievances
    /\ forall i l,
         labels result !! i = Some l ->
         (0 <= l)%Z
         /\ (l = 0%Z <-> i ∈ noise result)
         /\ (l = 0%Z ->
             length (regionQuery matrix i eps (length grievances)) < minPts).
Proof.
  intros (matrix & Hmatrix & Hloop & _ & Hnoise)%dbscanCluster_returned.
  exists matrix. split; [done|].
  destruct (cluster_loop_all_labelled _ _ _ _ _ Hloop) as [Hlen Hlabels].
  split; [done|]. intros i l Hl. rewrite Hnoise, elem_of_members_of, Hl.
  destruct (Hlabels i l Hl) as [[-> Hfew]|Hpos].
  - split; [done|]. split; [done|]. done.
  - split; [lia|]. split; [|lia]. split; [lia|]. intros [= ->]. unfold NOISE in Hpos. lia.
Qed.

(** The clusters that [dbscanCluster] returns and its noise never list an
    index twice.  Every returned cluster has at least [minPts] members, in
    ascending order, and they are exactly the points of one positive label.
    A point whose label is shared by fewer than [minPts] points is in no
    returned cluster, and it is not noise either. *)
Theorem dbscanCluster_clusters_are_disjoint (grievances : list (grievance num))
    (eps : num) (minPts : nat) (result : dbscan_result) :
  dbscanCluster grievances eps minPts = Returned (Some result) ->
  NoDup (concat (clusters result) ++ noise result)
  /\ (forall c, c ∈ clusters result ->
        minPts <= length c
        /\ StronglySorted lt c
        /\ exists key, (1 <= key)%Z
             /\ forall i, i ∈ c <-> labels result !! i = Some key)
  /\ (forall i key,
        labels result !! i = Some key -> (1 <= key)%Z ->
        ((exists c, c ∈ clusters result /\ i ∈ c)
         <-> minPts <= length (members_of (labels result) key))
        /\ i ∉ noise result).
Proof.
  intros (matrix & Hmatrix & Hloop & Hclusters & Hnoise)%dbscanCluster_returned.
  destruct (cluster_loop_all_labelled _ _ _ _ _ Hloop) as [Hlen Hlabels].
  assert (NoDup (object_keys (labels result))) as Hkeys
    by apply NoDup_property_order, NoDup_set_of.
  assert (forall c, c ∈ clusters result ->
            minPts <= length c
            /\ exists key, (1 <= key)%Z /\ c = members_of (labels result) key) as Hc.
  { intros c. rewrite Hclusters, elem_of_list_filter, Nat.leb_le.
    intros [(key & -> & Hkey)%list_elem_of_fmap Hsize]. split; [done|].
    exists key. split; [|done].
    apply elem_of_object_keys in Hkey as [[i Hi]%list_elem_of_lookup Hne].
    destruct (Hlabels i key Hi) as [[? _]|?]; [done | lia]. }
  split; [|split].
  - apply NoDup_app. split; [rewrite Hclusters; by apply NoDup_clusters|].
    split; [|rewrite Hnoise; apply NoDup_members_of].
    intros i Hi. apply list_elem_of_In, in_concat in Hi as (c & Hin & Hic).
    apply list_elem_of_In in Hin, Hic.
    destruct (Hc c Hin) as (_ & key & Hkey & ->).
    rewrite Hnoise, elem_of_members_of. apply elem_of_members_of in Hic.
    rewrite Hic. intros [= ->]. unfold NOISE in Hkey. lia.
  - intros c Hin. destruct (Hc c Hin) as (Hsize & key & Hkey & ->).
    split; [done|]. split; [apply members_of_ascending|].
    exists key. split; [done|]. intros i. apply elem_of_members_of.
  - intros i key Hi Hkey. split.
    + split.
      * intros (c & Hin & Hic). destruct (Hc c Hin) as (Hsize & key' & _ & ->).
        apply elem_of_members_of in Hic. rewrite Hi in Hic. by injection Hic as <-.
      * intros Hsize. exists (members_of (labels result) key).
        split; [|by apply elem_of_members_of].
        rewrite Hclusters, elem_of_list_filter, Nat.leb_le. split; [|done].
        apply list_elem_of_fmap. exists key. split; [done|].
        apply elem_of_object_keys. split; [by eapply list_elem_of_lookup_2|].
        unfold NOISE. lia.
    + rewrite Hnoise, elem_of_members_of, Hi. intros [= ->]. unfold NOISE in Hkey. lia.
Qed.

End Results.

Lemma dbscanCluster_labels_witness :
  exists result,
    dbscanCluster chained_batch (lit 0.40) 2 = Returned (Some result)
    /\ length (labels result) = 3.
Proof.
  assert (exists result, dbscanCluster chained_batch (lit 0.40) 2
                         = Returned (Some result)) as [result Hrun]
    by (eexists; vm_compute; reflexivity).
  exists result. split; [exact Hrun|].
  destruct (dbscanCluster_labels_every_point chained_batch (lit 0.40) 2 result Hrun)
    as (matrix & _ & Hlen & _).
  exact Hlen.
Defined.

Lemma dbscanCluster_clusters_witness :
  exists result,
    dbscanCluster chained_batch (lit 0.40) 2 = Returned (Some result)
    /\ NoDup (concat (clusters result) ++ noise result).
Proof.
  assert (exists result, dbscanCluster chained_batch (lit 0.40) 2
                         = Returned (Some result)) as [result Hrun]
    by (eexists; vm_compute; reflexivity).
  exists result. split; [exact Hrun|].
  exact (proj1 (dbscanCluster_clusters_are_disjoint chained_batch (lit 0.40) 2 result
                  Hrun)).
Defined.

End ClusteringFacts.

(** * What the clustering pass leaves alone *)

Module ClusterPassFacts.
Import Js JsArray Records Embedding AdaptiveThreshold Dbscan.
Import ArrayFacts BatchProcessorFacts DbscanFacts.

Section Facts.
Context {num : Type} {N : Number num}.

Lemma foldl_link_elsewhere (primaryIdx : nat) (rest : list nat) (l : list (grievance num))
    (i : nat) :
  i ∉ rest ->
  foldl (fun gs dupIdx => alter (link_to primaryIdx) dupIdx gs) l rest !! i = l !! i.
Proof.
  revert l. induction rest as [|dupIdx rest IH]; intros l Hi; cbn [foldl]; [done|].
  apply not_elem_of_cons in Hi as [Hne Hi].
  rewrite IH by done. by apply list_lookup_alter_ne.
Qed.

(** The grievance of index [i] follows the primary of none of the
    clusters, sorted by the page numbers of [grievances]. *)
Definition follows_none (grievances : list (grievance num)) (clusters : list (list nat))
    (i : nat) : Prop :=
  forall cluster primaryIdx rest,
    cluster ∈ clusters ->
    sort_by (page_of grievances) cluster = primaryIdx :: rest ->
    i ∉ rest.

Lemma mark_cluster_elsewhere (l : list (grievance num)) (cluster : list nat) (i : nat) :
  follows_none l [cluster] i -> mark_cluster l cluster !! i = l !! i.
Proof.
  intros Hi. unfold mark_cluster. destruct (2 <=? length cluster); [|done].
  destruct (sort_by (page_of l) cluster) as [|primaryIdx rest] eqn:Hsort; [done|].
  apply foldl_link_elsewhere. eapply Hi; [apply list_elem_of_here | exact Hsort].
Qed.

Lemma foldl_mark_elsewhere (clusters : list (list nat)) (l : list (grievance num))
    (i : nat) :
  follows_none l clusters i -> foldl mark_cluster l clusters !! i = l !! i.
Proof.
  revert l. induction clusters as [|cluster clusters IH]; intros l Hi; cbn [foldl];
    [done|].
  rewrite IH.
  - apply mark_cluster_elsewhere. intros c primaryIdx rest ->%list_elem_of_singleton.
    apply Hi, list_elem_of_here.
  - intros c primaryIdx rest Hc Hsort. apply (Hi c primaryIdx rest).
    + by apply list_elem_of_further.
    + rewrite <- Hsort. symmetry. apply sort_by_ext. intros idx.
      apply page_of_relabelled; [apply mark_cluster_relabelled | apply length_mark_cluster].
Qed.

(** [applyDBSCANClustering] returns a batch of fewer than two grievances as
    it is.  Otherwise it returns as many grievances as it was given, and a
    grievance that follows the primary of no returned cluster, may it be
    noise, the primary of a cluster or a point of a cluster too small to
    be returned, only receives its label and the size of its cluster: its
    status and every other property stay as they were. *)
Theorem clustering_changes_only_followers (grievances : list (grievance num))
    (thresholds : gmap string num) (after : list (grievance num)) :
  applyDBSCANClustering grievances thresholds = Returned (Some after) ->
  (length grievances < 2 /\ after = grievances)
  \/ (2 <= length grievances
      /\ exists result,
           dbscanCluster grievances
             (sub (lit 1) (opt_or_else (thresholds !! "near_duplicate") (lit 0.30))) 2
           = Returned (Some result)
           /\ length after = length grievances
           /\ forall i g,
                grievances !! i = Some g ->
                follows_none grievances (clusters result) i ->
                after !! i = Some (with_cluster_info (labels result) i g)).
Proof.
  unfold applyDBSCANClustering. intros Hrun.
  destruct (Nat.ltb_spec (length grievances) 2) as [Hfew|Hmany].
  - injection Hrun as <-. by left.
  - right. split; [done|].
    destruct (dbscanCluster _ _ _) as [[result|]|]; cbn [and_then] in Hrun; try done.
    injection Hrun as <-. exists result. split; [done|].
    set (l0 := imap (with_cluster_info (labels result)) grievances).
    split; [rewrite (proj2 (foldl_mark_relabelled _ _)); unfold l0; apply length_imap|].
    intros i g Hg Hi. rewrite foldl_mark_elsewhere.
    + unfold l0. by rewrite list_lookup_imap, Hg.
    + intros c primaryIdx rest Hc Hsort. apply (Hi c primaryIdx rest Hc).
      rewrite <- Hsort. apply sort_by_ext. intros idx. unfold page_of, l0.
      rewrite list_lookup_imap. by destruct (grievances !! idx).
Qed.

End Facts.

Lemma clustering_changes_only_followers_witness :
  exists after g',
    applyDBSCANClustering chained_batch thresholds_init = Returned (Some after)
    /\ after !! 0 = Some g'
    /\ finalStatus g' = UNIQUE.
Proof.
  assert (exists after, applyDBSCANClustering chained_batch thresholds_init
                        = Returned (Some after)) as [after Hrun]
    by (eexists; vm_compute; reflexivity).
  assert (exists result,
            dbscanCluster chained_batch
              (sub (lit 1) (opt_or_else (thresholds_init !! "near_duplicate") (lit 0.30))) 2
            = Returned (Some result)
            /\ clusters result = [[0; 1; 2]]) as (result & Hdb & Hclusters)
    by (eexists; split; vm_compute; reflexivity).
  destruct (clustering_changes_only_followers chained_batch thresholds_init after Hrun)
    as [[Hfew _]|(_ & result' & Hdb' & _ & Hkept)]; [cbn in Hfew; lia|].
  rewrite Hdb in Hdb'. injection Hdb' as <-.
  exists after, (with_cluster_info (labels result) 0 (chained_point 1 1 0)).
  split; [exact Hrun|]. split; [|reflexivity].
  apply Hkept; [reflexivity|].
  intros c primaryIdx rest Hc Hsort. rewrite Hclusters in Hc.
  apply list_elem_of_singleton in Hc. subst c.
  vm_compute in Hsort. injection Hsort as <- <-.
  intros Hin. apply elem_of_cons in Hin as [Hin|Hin]; [discriminate|].
  apply list_elem_of_singleton in Hin. discriminate.
Defined.

End ClusterPassFacts.
